(** * Grid search algorithms: a shallow embedding of [search_algorithms.py]

    The development follows the Python module function by function: the
    successor generator, path reconstruction, the six batch searches ([bfs],
    [dfs], [ucs], [dls], [iddfs], [bidirectional_search]), [heapq] as the
    frontier of the uniform-cost search, and the generator ("step")
    variants.  It then proves what the searches return: valid paths,
    shortest paths for [bfs] and [iddfs], cheapest paths for [ucs], the
    cutoff behaviour of [dls], termination, and how far the generators
    agree with the batch forms.

    Modelling conventions.
    - A cell is a pair of Python integers, hence [Z * Z].
    - Move costs are the Python numbers [1] and [1.5].  Every cost the
      program computes is a sum of these, a multiple of one half far below
      2^53, so floating-point addition and comparison are exact on them; they
      are represented by rationals ([Q]), with [1.5] written [3 # 2].
    - Python sets of cells are [gset Cell]; the dictionaries of the
      bidirectional search are [gmap Cell Node].
    - A [while] loop takes a fuel argument, and its result is [None] only
      when the fuel runs out (or, for the heap, on an index out of range,
      which is shown not to happen).  Termination lemmas give the fuel that
      suffices, and more fuel never changes a result.
    - A search result is a found path, Python's [None], or the string
      ["cutoff"].
    - Limits of the Python runtime (the recursion limit met by a deep
      [recursive_dls]) are not modelled. *)

From Stdlib Require Import ZArith QArith Lqa Lia List.
From stdpp Require Import base decidable option list sorting gmap sets.

Local Open Scope Z_scope.

(** ** Cells, grids and moves *)

Definition Cell : Type := (Z * Z)%type.
Definition Grid : Type := (Z * Z)%type.

Inductive Action : Type :=
  | Up | Right | Bottom | BottomRight | Left | TopLeft.

#[global] Instance Action_eq_dec : EqDecision Action.
Proof. solve_decision. Defined.

(** The rows of the [actions] table of [get_successors], in its order. *)
Definition actions : list (Action * (Z * Z) * Q) :=
  [ (Up, (-1, 0), 1%Q);
    (Right, (0, 1), 1%Q);
    (Bottom, (1, 0), 1%Q);
    (BottomRight, (1, 1), (3 # 2)%Q);
    (Left, (0, -1), 1%Q);
    (TopLeft, (-1, -1), (3 # 2)%Q) ].

Definition in_bounds (gs : Grid) (s : Cell) : bool :=
  (0 <=? s.1) && (s.1 <? gs.1) && (0 <=? s.2) && (s.2 <? gs.2).

Definition get_successors (state : Cell) (grid_size : Grid)
  : list (Cell * Action * Q) :=
  let '(row, col) := state in
  flat_map (fun '(action, (dr, dc), cost) =>
              let new_row := row + dr in
              let new_col := col + dc in
              if in_bounds grid_size (new_row, new_col)
              then [((new_row, new_col), action, cost)] else [])
           actions.

(** ** Search nodes *)

#[warnings="-register-all"]
Inductive Node : Type :=
  mkNode { state : Cell;
           parent : option Node;
           action : option Action;
           cost : Q;
           depth : Z }.

(** [Node(start)]: the defaults of the constructor. *)
Definition root_node (s : Cell) : Node := mkNode s None None 0%Q 0.

(** [reconstruct_path]: the loop appends the actions while walking the
    parent links, and the list is reversed at the end. *)
Fixpoint walk_actions (current : Node) : list (option Action) :=
  match parent current with
  | Some p => action current :: walk_actions p
  | None => []
  end.

Definition reconstruct_path (node : Node) : list (option Action) :=
  rev (walk_actions node).

(** A path as the program returns it is a list of [action] fields.  Every
    node with a parent is created with an action, so the entries are all
    [Some]; the type keeps the field as the constructor has it. *)
Definition Path : Type := list (option Action).

Inductive Result : Type :=
  | Found (p : Path)
  | NoPath
  | Cutoff.

(** ** Replaying a path

    [moves] is the table by which the shell replays a path
    ([display_path_result]); [move_cost] is the cost column of [actions]. *)

Definition moves (a : Action) : Z * Z :=
  match a with
  | Up => (-1, 0)
  | Right => (0, 1)
  | Bottom => (1, 0)
  | BottomRight => (1, 1)
  | Left => (0, -1)
  | TopLeft => (-1, -1)
  end.

Definition move_cost (a : Action) : Q :=
  match a with
  | BottomRight | TopLeft => (3 # 2)%Q
  | _ => 1%Q
  end.

Definition move_to (s : Cell) (a : Action) : Cell :=
  (s.1 + (moves a).1, s.2 + (moves a).2).

(** One move, refused when it leaves the grid. *)
Definition step_cell (gs : Grid) (s : Cell) (a : Action) : option Cell :=
  if in_bounds gs (move_to s a) then Some (move_to s a) else None.

(** Replaying a path from [s]: [None] as soon as a move leaves the grid (or
    an entry is not a move), otherwise the cell reached. *)
Fixpoint replay (gs : Grid) (s : Cell) (p : Path) : option Cell :=
  match p with
  | [] => Some s
  | None :: _ => None
  | Some a :: p' =>
      match step_cell gs s a with
      | Some s' => replay gs s' p'
      | None => None
      end
  end.

(** Sum of the listed costs of the moves of a path. *)
Fixpoint path_cost (p : Path) : Q :=
  match p with
  | [] => 0%Q
  | Some a :: p' => (move_cost a + path_cost p')%Q
  | None :: p' => path_cost p'
  end.

(** ** Depth-limited and iterative-deepening search *)

(** The [for] loop of [recursive_dls] over the successors; [rec] is the
    recursive call at [limit - 1].  The set of path states is threaded
    through, as the Python set is shared by all the calls. *)
Fixpoint dls_loop (rec : Node -> gset Cell -> Result * gset Cell)
    (node : Node) (succs : list (Cell * Action * Q))
    (cutoff_occurred : bool) (path_states : gset Cell)
  : Result * gset Cell :=
  match succs with
  | [] =>
      let path_states := path_states ∖ {[ state node ]} in
      (if cutoff_occurred then Cutoff else NoPath, path_states)
  | (s, a, c) :: rest =>
      if decide (s ∈ path_states) then
        dls_loop rec node rest cutoff_occurred path_states
      else
        let child := mkNode s (Some node) (Some a) (cost node + c)%Q
                            (depth node + 1) in
        match rec child path_states with
        | (Cutoff, path_states) => dls_loop rec node rest true path_states
        | (NoPath, path_states) =>
            dls_loop rec node rest cutoff_occurred path_states
        | (Found p, path_states) => (Found p, path_states)
        end
  end.

(** [recursive_dls].  The limit only ever is compared with [0] and
    decremented, so it is a natural number here: [limit <= 0] is [O]. *)
Fixpoint recursive_dls (limit : nat) (goal : Cell) (grid_size : Grid)
    (node : Node) (path_states : gset Cell) : Result * gset Cell :=
  if decide (state node = goal) then
    (Found (reconstruct_path node), path_states)
  else
    match limit with
    | O => (Cutoff, path_states)
    | S limit' =>
        dls_loop (recursive_dls limit' goal grid_size) node
                 (get_successors (state node) grid_size)
                 false (path_states ∪ {[ state node ]})
    end.

Definition dls (start goal : Cell) (grid_size : Grid) (limit : Z) : Result :=
  (recursive_dls (Z.to_nat limit) goal grid_size (root_node start) ∅).1.

(** [iddfs]: [range(max_depth)] is walked upwards from [depth]; [n] counts
    the depths that remain. *)
Fixpoint iddfs_from (start goal : Cell) (grid_size : Grid)
    (depth : Z) (n : nat) : Result :=
  match n with
  | O => NoPath
  | S n' =>
      match dls start goal grid_size depth with
      | Found p => Found p
      | _ => iddfs_from start goal grid_size (depth + 1) n'
      end
  end.

Definition iddfs (start goal : Cell) (grid_size : Grid) (max_depth : Z)
  : Result :=
  iddfs_from start goal grid_size 0 (Z.to_nat max_depth).

Definition default_max_depth : Z := 1000.

(** ** Breadth-first search *)

(** The [for] loop of [bfs] over the successors of the dequeued node: either
    the goal is generated (left) or the loop ends with the grown frontier. *)
Fixpoint bfs_expand (goal : Cell) (node : Node) (explored : gset Cell)
    (succs : list (Cell * Action * Q)) (frontier : list Node)
  : Path + list Node :=
  match succs with
  | [] => inr frontier
  | (s, a, c) :: rest =>
      if decide ((s ∉ explored) ∧ (s ∉ state <$> frontier)) then
        let child := mkNode s (Some node) (Some a) (cost node + c)%Q
                            (depth node + 1) in
        if decide (state child = goal) then inl (reconstruct_path child)
        else bfs_expand goal node explored rest (frontier ++ [child])
      else bfs_expand goal node explored rest frontier
  end.

(** The [while frontier] loop; the explored set is returned with the
    result. *)
Fixpoint bfs_loop (fuel : nat) (goal : Cell) (grid_size : Grid)
    (frontier : list Node) (explored : gset Cell)
  : option (Result * gset Cell) :=
  match frontier with
  | [] => Some (NoPath, explored)
  | node :: frontier =>
      match fuel with
      | O => None
      | S fuel' =>
          let explored := explored ∪ {[ state node ]} in
          match bfs_expand goal node explored
                  (get_successors (state node) grid_size) frontier with
          | inl p => Some (Found p, explored)
          | inr frontier => bfs_loop fuel' goal grid_size frontier explored
          end
      end
  end.

(** [bfs], with the explored set at the time of the return.  The early
    return for [start == goal] comes before the set is created: the empty
    set stands for it. *)
Definition bfs_run (fuel : nat) (start goal : Cell) (grid_size : Grid)
  : option (Result * gset Cell) :=
  let start_node := root_node start in
  if decide (start = goal) then Some (Found [], ∅)
  else bfs_loop fuel goal grid_size [start_node] ∅.

Definition bfs (fuel : nat) (start goal : Cell) (grid_size : Grid)
  : option Result :=
  fst <$> bfs_run fuel start goal grid_size.

(** ** Depth-first search *)

(** The frontier is a Python list used as a stack; its top (the end of the
    Python list) is the head here.  [dfs_push] is the [for] loop over
    [reversed(neighbors)], which it receives already reversed. *)
Fixpoint dfs_push (node : Node) (explored : gset Cell)
    (succs : list (Cell * Action * Q)) (frontier : list Node) : list Node :=
  match succs with
  | [] => frontier
  | (s, a, c) :: rest =>
      if decide (s ∉ explored) then
        let child := mkNode s (Some node) (Some a) (cost node + c)%Q
                            (depth node + 1) in
        dfs_push node explored rest (child :: frontier)
      else dfs_push node explored rest frontier
  end.

Fixpoint dfs_loop (fuel : nat) (goal : Cell) (grid_size : Grid)
    (frontier : list Node) (explored : gset Cell)
  : option (Result * gset Cell) :=
  match frontier with
  | [] => Some (NoPath, explored)
  | node :: frontier =>
      match fuel with
      | O => None
      | S fuel' =>
          if decide (state node = goal) then
            Some (Found (reconstruct_path node), explored)
          else if decide (state node ∉ explored) then
            let explored := explored ∪ {[ state node ]} in
            let neighbors := get_successors (state node) grid_size in
            dfs_loop fuel' goal grid_size
                     (dfs_push node explored (rev neighbors) frontier)
                     explored
          else dfs_loop fuel' goal grid_size frontier explored
      end
  end.

Definition dfs_run (fuel : nat) (start goal : Cell) (grid_size : Grid)
  : option (Result * gset Cell) :=
  dfs_loop fuel goal grid_size [root_node start] ∅.

Definition dfs (fuel : nat) (start goal : Cell) (grid_size : Grid)
  : option Result :=
  fst <$> dfs_run fuel start goal grid_size.

(** ** The priority queue: Python's [heapq] on a list of nodes

    [Node.__lt__] compares costs only.  The heap functions are those of
    CPython's [heapq]; list indexing out of range (Python's [IndexError])
    and the exhaustion of a loop's fuel give [None]. *)

Definition Qltb (x y : Q) : bool :=
  (Qnum x * QDen y <? Qnum y * QDen x)%Z.

Definition node_lt (a b : Node) : bool := Qltb (cost a) (cost b).

Local Open Scope nat_scope.

Fixpoint siftdown_loop (fuel : nat) (heap : list Node) (newitem : Node)
    (startpos pos : nat) : option (list Node) :=
  if decide (startpos < pos) then
    match fuel with
    | O => None
    | S fuel' =>
        let parentpos := (pos - 1) / 2 in
        parent ← heap !! parentpos;
        if node_lt newitem parent then
          siftdown_loop fuel' (<[pos := parent]> heap) newitem
                        startpos parentpos
        else Some (<[pos := newitem]> heap)
    end
  else Some (<[pos := newitem]> heap).

Definition siftdown (heap : list Node) (startpos pos : nat)
  : option (list Node) :=
  newitem ← heap !! pos;
  siftdown_loop pos heap newitem startpos pos.

(** The choice of the smaller child in [_siftup]: the right one when it
    exists and the left one is not smaller. *)
Definition smaller_child (heap : list Node) (endpos childpos : nat)
  : option nat :=
  let rightpos := childpos + 1 in
  if decide (rightpos < endpos) then
    l ← heap !! childpos;
    r ← heap !! rightpos;
    Some (if negb (node_lt l r) then rightpos else childpos)
  else Some childpos.

(** The first loop of [_siftup]: the smaller child moves up until the hole
    is at a leaf; the result is the list and the position of the hole. *)
Fixpoint siftup_loop (fuel : nat) (heap : list Node) (endpos pos : nat)
  : option (list Node * nat) :=
  let childpos := 2 * pos + 1 in
  if decide (childpos < endpos) then
    match fuel with
    | O => None
    | S fuel' =>
        childpos ← smaller_child heap endpos childpos;
        c ← heap !! childpos;
        siftup_loop fuel' (<[pos := c]> heap) endpos childpos
    end
  else Some (heap, pos).

Definition siftup (heap : list Node) (pos : nat) : option (list Node) :=
  let endpos := length heap in
  let startpos := pos in
  newitem ← heap !! pos;
  '(heap, pos) ← siftup_loop endpos heap endpos pos;
  let heap := <[pos := newitem]> heap in
  siftdown heap startpos pos.

Definition heappush (heap : list Node) (item : Node) : option (list Node) :=
  let heap := heap ++ [item] in
  siftdown heap 0 (length heap - 1).

Definition heappop (heap : list Node) : option (Node * list Node) :=
  lastelt ← last heap;
  let heap := removelast heap in
  match heap with
  | returnitem :: _ =>
      let heap := <[0 := lastelt]> heap in
      heap ← siftup heap 0;
      Some (returnitem, heap)
  | [] => Some (lastelt, heap)
  end.

Local Close Scope nat_scope.

(** ** Uniform-cost search *)

Fixpoint ucs_push (node : Node) (explored : gset Cell)
    (succs : list (Cell * Action * Q)) (frontier : list Node)
  : option (list Node) :=
  match succs with
  | [] => Some frontier
  | (s, a, c) :: rest =>
      if decide (s ∉ explored) then
        let new_cost := (cost node + c)%Q in
        let child := mkNode s (Some node) (Some a) new_cost
                            (depth node + 1) in
        frontier ← heappush frontier child;
        ucs_push node explored rest frontier
      else ucs_push node explored rest frontier
  end.

Fixpoint ucs_loop (fuel : nat) (goal : Cell) (grid_size : Grid)
    (frontier : list Node) (explored : gset Cell)
  : option (Result * gset Cell) :=
  match frontier with
  | [] => Some (NoPath, explored)
  | _ :: _ =>
      match fuel with
      | O => None
      | S fuel' =>
          '(node, frontier) ← heappop frontier;
          if decide (state node = goal) then
            Some (Found (reconstruct_path node), explored)
          else if decide (state node ∉ explored) then
            let explored := explored ∪ {[ state node ]} in
            frontier ← ucs_push node explored
                          (get_successors (state node) grid_size) frontier;
            ucs_loop fuel' goal grid_size frontier explored
          else ucs_loop fuel' goal grid_size frontier explored
      end
  end.

Definition ucs_run (fuel : nat) (start goal : Cell) (grid_size : Grid)
  : option (Result * gset Cell) :=
  frontier ← heappush [] (root_node start);
  ucs_loop fuel goal grid_size frontier ∅.

Definition ucs (fuel : nat) (start goal : Cell) (grid_size : Grid)
  : option Result :=
  fst <$> ucs_run fuel start goal grid_size.

(** ** Bidirectional search *)

Definition get_inverse_action (a : option Action) : option Action :=
  match a with
  | Some Up => Some Bottom
  | Some Bottom => Some Up
  | Some Left => Some Right
  | Some Right => Some Left
  | Some TopLeft => Some BottomRight
  | Some BottomRight => Some TopLeft
  | None => None
  end.

Definition merge_paths (f_node b_node : Node) : Path :=
  let path_forward := reconstruct_path f_node in
  let path_backward := get_inverse_action <$> walk_actions b_node in
  path_forward ++ path_backward.

(** One direction's [for] loop over the successors of the dequeued node.
    [explored] is this direction's dictionary and [other] the opposite
    one.  Left: the new child and the node it met in [other].  The
    children are created without a depth argument, which stays at the
    constructor's default. *)
Fixpoint bidi_expand (other : gmap Cell Node) (node : Node)
    (succs : list (Cell * Action * Q))
    (frontier : list Node) (explored : gmap Cell Node)
  : (Node * Node) + (list Node * gmap Cell Node) :=
  match succs with
  | [] => inr (frontier, explored)
  | (s, a, c) :: rest =>
      match explored !! s with
      | None =>
          let child := mkNode s (Some node) (Some a) (cost node + c)%Q 0 in
          let explored := <[s := child]> explored in
          let frontier := frontier ++ [child] in
          match other !! s with
          | Some met => inl (child, met)
          | None => bidi_expand other node rest frontier explored
          end
      | Some _ => bidi_expand other node rest frontier explored
      end
  end.

(** The [while f_frontier and b_frontier] loop.  Inside it both inner
    tests succeed: the forward phase leaves [b_frontier] as it was.  The
    result is the pair of nodes handed to [merge_paths], or [None] for the
    final [return None]. *)
Fixpoint bidi_loop (fuel : nat) (grid_size : Grid)
    (f_frontier : list Node) (f_explored : gmap Cell Node)
    (b_frontier : list Node) (b_explored : gmap Cell Node)
  : option (option (Node * Node)) :=
  match f_frontier, b_frontier with
  | f_node :: f_frontier, b_node :: b_frontier =>
      match fuel with
      | O => None
      | S fuel' =>
          match bidi_expand b_explored f_node
                  (get_successors (state f_node) grid_size)
                  f_frontier f_explored with
          | inl (child, met) => Some (Some (child, met))
          | inr (f_frontier, f_explored) =>
              match bidi_expand f_explored b_node
                      (get_successors (state b_node) grid_size)
                      b_frontier b_explored with
              | inl (child, met) => Some (Some (met, child))
              | inr (b_frontier, b_explored) =>
                  bidi_loop fuel' grid_size f_frontier f_explored
                            b_frontier b_explored
              end
          end
      end
  | _, _ => Some None
  end.

(** The two nodes at which the searches meet, when they do. *)
Definition bidirectional_meet (fuel : nat) (start goal : Cell)
    (grid_size : Grid) : option (option (Node * Node)) :=
  bidi_loop fuel grid_size
            [root_node start] {[ start := root_node start ]}
            [root_node goal] {[ goal := root_node goal ]}.

Definition bidirectional_search (fuel : nat) (start goal : Cell)
    (grid_size : Grid) : option Result :=
  if decide (start = goal) then Some (Found [])
  else
    meet ← bidirectional_meet fuel start goal grid_size;
    Some (match meet with
          | Some (f_node, b_node) => Found (merge_paths f_node b_node)
          | None => NoPath
          end).

(** * Specification predicates *)

(** ** Well-formed nodes

    A node is well formed for a search from [start] when its reconstructed
    path replays from [start] to its state, its cost is the cost of that
    path and its depth the number of moves. *)

Record node_wf (gs : Grid) (start : Cell) (n : Node) : Prop := {
  wf_replay : replay gs start (reconstruct_path n) = Some (state n);
  wf_cost : (cost n == path_cost (reconstruct_path n))%Q;
  wf_depth : depth n = Z.of_nat (length (reconstruct_path n))
}.

Definition not_found (r : Result) : Prop :=
  match r with Found _ => False | _ => True end.


(** A depth-limited call that does not find the goal gives back the set of
    path states it received. *)
Definition restores (rec : Node -> gset Cell -> Result * gset Cell) : Prop :=
  forall (child : Node) (ps1 : gset Cell) (r1 : Result) (ps1' : gset Cell),
    state child ∉ ps1 -> rec child ps1 = (r1, ps1') ->
    not_found r1 -> ps1' = ps1.

(** [q] leads from [s] to [t] inside the grid, and no cell it enters is in
    [ps]. *)
Fixpoint avoids (gs : Grid) (ps : gset Cell) (s : Cell) (q : Path)
    (t : Cell) : Prop :=
  match q with
  | [] => s = t
  | Some a :: q' =>
      exists s', step_cell gs s a = Some s' /\ (s' ∉ ps)
                 /\ avoids gs ps s' q' t
  | None :: _ => False
  end.

(** As [avoids], and moreover [q] enters no cell twice and never comes back
    to [s]: every cell left joins the forbidden set. *)
Fixpoint simple_path (gs : Grid) (ps : gset Cell) (s : Cell) (q : Path)
    (t : Cell) : Prop :=
  match q with
  | [] => s = t
  | Some a :: q' =>
      exists s', step_cell gs s a = Some s' /\ (s' ∉ ps ∪ {[ s ]})
                 /\ simple_path gs (ps ∪ {[ s ]}) s' q' t
  | None :: _ => False
  end.

(** [p] is a path from [start] to [goal] with the fewest moves. *)
Definition shortest (gs : Grid) (start goal : Cell) (p : Path) : Prop :=
  replay gs start p = Some goal /\
  forall q, replay gs start q = Some goal -> (length p <= length q)%nat.

(** [p] is a path from [start] to [goal] of least total cost. *)
Definition cheapest (gs : Grid) (start goal : Cell) (p : Path) : Prop :=
  replay gs start p = Some goal /\
  forall q, replay gs start q = Some goal -> (path_cost p <= path_cost q)%Q.

(** ** Invariants of the breadth-first loop *)

Definition depth_le (n m : Node) : Prop := depth n <= depth m.

(** The frontier holds each state once, and none that is explored. *)
Record bfs_fresh (F : list Node) (E : gset Cell) : Prop := {
  bf_nodup : NoDup (state <$> F);
  bf_notin : forall m, m ∈ F -> state m ∉ E
}.

(** At the head of the [while] loop: the frontier is sorted by depth within
    a band of one, every explored state has all its successors explored or
    in the frontier at a depth no path can beat, and the goal has not been
    generated. *)
Record bfs_inv (gs : Grid) (start goal : Cell) (F : list Node)
    (E : gset Cell) : Prop := {
  bi_wf : forall m, m ∈ F -> node_wf gs start m;
  bi_sorted : StronglySorted depth_le F;
  bi_band : forall n m, n ∈ F -> m ∈ F -> depth m <= depth n + 1;
  bi_fresh : bfs_fresh F E;
  bi_closed : forall s q a s',
      s ∈ E -> replay gs start q = Some s -> step_cell gs s a = Some s' ->
      s' ∈ E \/ exists m, m ∈ F /\ state m = s'
                          /\ depth m <= Z.of_nat (length q) + 1;
  bi_start : start ∈ E \/ exists m, m ∈ F /\ state m = start /\ depth m <= 0;
  bi_goal : (goal ∉ E) /\ (goal ∉ state <$> F)
}.

(** Inside the [for] loop over the successors of [n0]: [F] is the frontier
    left by the dequeue, [Fc] the frontier grown so far and [E'] the
    explored set with the state of [n0]. *)
Record bfs_mid (gs : Grid) (start goal : Cell) (n0 : Node)
    (E' : gset Cell) (F Fc : list Node) : Prop := {
  bm_wf : forall m, m ∈ Fc -> node_wf gs start m;
  bm_sorted : StronglySorted depth_le Fc;
  bm_band : forall m, m ∈ Fc -> depth n0 <= depth m <= depth n0 + 1;
  bm_fresh : bfs_fresh Fc E';
  bm_goal : goal ∉ state <$> Fc;
  bm_old : forall m, m ∈ F -> m ∈ Fc
}.

(** ** The finite universe of a search *)

(** The cells of the grid, as a finite set. *)
Definition grid_cells (gs : Grid) : gset Cell :=
  list_to_set (r ← seqZ 0 gs.1; c ← seqZ 0 gs.2; [(r, c)]).

(** The states a search from [start] can ever hold: the cells of the grid
    and [start] itself, which need not be one of them. *)
Definition universe (gs : Grid) (start : Cell) : gset Cell :=
  grid_cells gs ∪ {[ start ]}.

(** ** The heap invariant of [heapq] *)

Definition node_le (a b : Node) : Prop := (cost a <= cost b)%Q.

(** Every item is at least its parent, the item at [(i - 1) >> 1]. *)
Definition is_heap (h : list Node) : Prop :=
  forall (i : nat) n p,
    (0 < i)%nat -> h !! i = Some n -> h !! ((i - 1) / 2)%nat = Some p ->
    node_le p n.

(** The heap invariant around a hole at [pos], whose content does not
    count: the edges that do not touch [pos] are in order, and the children
    of [pos] are at least its parent. *)
Record hole_heap (h : list Node) (pos : nat) : Prop := {
  hh_edges : forall (i : nat) n p,
      (0 < i)%nat -> i <> pos -> ((i - 1) / 2)%nat <> pos ->
      h !! i = Some n -> h !! ((i - 1) / 2)%nat = Some p -> node_le p n;
  hh_skip : forall (c : nat) n p,
      (0 < c)%nat -> (0 < pos)%nat -> ((c - 1) / 2)%nat = pos ->
      h !! c = Some n -> h !! ((pos - 1) / 2)%nat = Some p -> node_le p n
}.

(** [newitem] may be put at [pos]: it is at most the children of [pos]. *)
Definition fits_hole (h : list Node) (pos : nat) (newitem : Node) : Prop :=
  forall (c : nat) n,
    (0 < c)%nat -> ((c - 1) / 2)%nat = pos -> h !! c = Some n ->
    node_le newitem n.

(** ** Invariants of the uniform-cost loop *)

(** The children the [for] loop of [ucs] pushes for [node]. *)
Definition ucs_children (node : Node) (E : gset Cell)
    (succs : list (Cell * Action * Q)) : list Node :=
  (fun x : Cell * Action * Q =>
     mkNode x.1.1 (Some node) (Some x.1.2) (cost node + x.2)%Q
            (depth node + 1))
    <$> filter (fun x : Cell * Action * Q => x.1.1 ∉ E) succs.

(** At the head of the [while] loop: the frontier is a heap of well-formed
    nodes; each successor of an explored state is explored or has a node in
    the frontier no dearer than any path through that state; the goal is
    not explored. *)
Record ucs_inv (gs : Grid) (start goal : Cell) (H : list Node)
    (E : gset Cell) : Prop := {
  ui_heap : is_heap H;
  ui_wf : forall m, m ∈ H -> node_wf gs start m;
  ui_closed : forall s q a s',
      s ∈ E -> replay gs start q = Some s -> step_cell gs s a = Some s' ->
      s' ∈ E \/ exists m, m ∈ H /\ state m = s'
                          /\ (cost m <= path_cost q + move_cost a)%Q;
  ui_start : start ∈ E \/ exists m, m ∈ H /\ state m = start
                                    /\ (cost m <= 0)%Q;
  ui_goal : goal ∉ E
}.

(** ** Invariants of the bidirectional search *)

(** The path of a forward node leads from [start] to its state. *)
Definition forward_ok (gs : Grid) (start : Cell) (n : Node) : Prop :=
  replay gs start (reconstruct_path n) = Some (state n).

(** The second half of [merge_paths]: the inverted actions met while
    walking from a backward node to its root. *)
Definition backward_path (n : Node) : Path :=
  get_inverse_action <$> walk_actions n.

(** The inverted path of a backward node leads from its state, a cell of
    the grid, to [goal]. *)
Definition backward_ok (gs : Grid) (goal : Cell) (n : Node) : Prop :=
  in_bounds gs (state n) = true
  /\ replay gs (state n) (backward_path n) = Some goal.

(** A dictionary of explored states files each node under its state. *)
Definition explored_ok (P : Node -> Prop) (E : gmap Cell Node) : Prop :=
  forall s m, E !! s = Some m -> state m = s /\ P m.

(** ** Notions used by the main theorems *)

(** A fuelled search returns [r]: from some amount of fuel on, every run
    ends with [r]. *)
Definition returns (run : nat -> option Result) (r : Result) : Prop :=
  exists fuel, forall fuel', (fuel <= fuel')%nat -> run fuel' = Some r.

(** Replaying [p] from [start] never leaves the grid and ends on [goal]:
    every prefix of [p] replays to a cell of the grid. *)
Definition valid_replay (gs : Grid) (start goal : Cell) (p : Path) : Prop :=
  replay gs start p = Some goal /\
  forall k, exists c, replay gs start (take k p) = Some c
                      /\ in_bounds gs c = true.

(** [p] is returned by one of the six batch searches. *)
Definition returned_by_some_search (gs : Grid) (start goal : Cell) (p : Path)
  : Prop :=
  (exists fuel, bfs fuel start goal gs = Some (Found p))
  \/ (exists fuel, dfs fuel start goal gs = Some (Found p))
  \/ (exists fuel, ucs fuel start goal gs = Some (Found p))
  \/ (exists limit, dls start goal gs limit = Found p)
  \/ (exists max_depth, iddfs start goal gs max_depth = Found p)
  \/ (exists fuel, bidirectional_search fuel start goal gs = Some (Found p)).

(** ** Diagonal and orthogonal moves *)

Definition is_diagonal (x : option Action) : bool :=
  match x with
  | Some BottomRight | Some TopLeft => true
  | _ => false
  end.

(** A path of orthogonal moves only, and a path with a diagonal move. *)
Definition orthogonal (p : Path) : Prop :=
  Forall (fun x => is_diagonal x = false) p.

Definition has_diagonal (p : Path) : Prop :=
  Exists (fun x => is_diagonal x = true) p.

(** Twice the cost of a path, an integer, and its number of diagonal
    moves. *)
Fixpoint cost2 (p : Path) : Z :=
  match p with
  | [] => 0
  | Some a :: p' => (if is_diagonal (Some a) then 3 else 2) + cost2 p'
  | None :: p' => cost2 p'
  end.

Fixpoint diag_count (p : Path) : Z :=
  match p with
  | [] => 0
  | x :: p' => (if is_diagonal x then 1 else 0) + diag_count p'
  end.

(** * The step-wise (generator) variants

    A generator is modelled by the list of the events it yields when run to
    its end.  A [step] event carries the frontier states, the explored
    states (a set: the order of [list(explored)] is not modelled) and the
    current state; a [path] event carries the path or Python's [None]; a
    [log] event carries the depth its message announces.  The other fields
    some [path] events have are not modelled. *)

Inductive Event : Type :=
  | EvStep (frontier : list Cell) (explored : gset Cell)
           (current : option Cell)
  | EvPath (path : option Path)
  | EvLog (depth : Z).

Definition is_path_event (e : Event) : bool :=
  match e with EvPath _ => true | _ => false end.

(** What a consumer that relays events does: [yield event], and stop after
    the first one of type [path].  The flag tells whether there was one. *)
Fixpoint until_path (events : list Event) : list Event * bool :=
  match events with
  | [] => ([], false)
  | e :: rest =>
      if is_path_event e then ([e], true)
      else let '(rest', found) := until_path rest in (e :: rest', found)
  end.

(** The path carried by the first [path] event of a sequence; the outer
    [None] when the sequence has no [path] event at all. *)
Fixpoint terminal_path (events : list Event) : option (option Path) :=
  match events with
  | [] => None
  | EvPath p :: _ => Some p
  | _ :: rest => terminal_path rest
  end.

(** ** [dls_step] and [iddfs_step] *)

(** The [for] loop of [recursive_dls_step]; [rec] is the generator of a
    child, given by its events and the set of path states it leaves.  The
    result is the events relayed, the value returned ([True] when a [path]
    event was relayed) and the set of path states. *)
Fixpoint dls_step_loop (rec : Node -> gset Cell -> list Event * gset Cell)
    (node : Node) (succs : list (Cell * Action * Q))
    (path_states : gset Cell) : list Event * bool * gset Cell :=
  match succs with
  | [] => ([], false, path_states ∖ {[ state node ]})
  | (s, a, c) :: rest =>
      if decide (s ∈ path_states) then
        dls_step_loop rec node rest path_states
      else
        let child := mkNode s (Some node) (Some a) (cost node + c)%Q
                            (depth node + 1) in
        let '(events, path_states) := rec child path_states in
        let '(events, found) := until_path events in
        if found then (events, true, path_states)
        else
          let '(more, found, path_states) :=
            dls_step_loop rec node rest path_states in
          (events ++ more, found, path_states)
  end.

Fixpoint recursive_dls_step (limit : nat) (goal : Cell) (grid_size : Grid)
    (node : Node) (path_states : gset Cell) : list Event * gset Cell :=
  let first := EvStep [] path_states (Some (state node)) in
  if decide (state node = goal) then
    ([first; EvPath (Some (reconstruct_path node))], path_states)
  else
    match limit with
    | O => ([first], path_states)
    | S limit' =>
        let '(events, _, path_states) :=
          dls_step_loop (recursive_dls_step limit' goal grid_size) node
                        (get_successors (state node) grid_size)
                        (path_states ∪ {[ state node ]}) in
        (first :: events, path_states)
    end.

Definition dls_step (start goal : Cell) (grid_size : Grid) (limit : Z)
  : list Event :=
  (recursive_dls_step (Z.to_nat limit) goal grid_size (root_node start) ∅).1.

Fixpoint iddfs_step_from (start goal : Cell) (grid_size : Grid)
    (depth : Z) (n : nat) : list Event :=
  match n with
  | O => [EvPath None]
  | S n' =>
      let '(events, found) :=
        until_path (dls_step start goal grid_size depth) in
      EvLog depth
        :: events
        ++ (if found then []
            else iddfs_step_from start goal grid_size (depth + 1) n')
  end.

Definition iddfs_step (start goal : Cell) (grid_size : Grid) (max_depth : Z)
  : list Event :=
  iddfs_step_from start goal grid_size 0 (Z.to_nat max_depth).

(** ** [bfs_step] *)

(** The [for] loop of the first [while] loop of [bfs_step], which adds a
    state to [explored] when it appends its node to the frontier. *)
Fixpoint bfs_step_expand (goal : Cell) (node : Node)
    (succs : list (Cell * Action * Q))
    (frontier : list Node) (explored : gset Cell)
  : Path + (list Node * gset Cell) :=
  match succs with
  | [] => inr (frontier, explored)
  | (s, a, c) :: rest =>
      if decide ((s ∉ explored) ∧ (s ∉ state <$> frontier)) then
        let child := mkNode s (Some node) (Some a) (cost node + c)%Q
                            (depth node + 1) in
        if decide (state child = goal) then inl (reconstruct_path child)
        else bfs_step_expand goal node rest (frontier ++ [child])
                             (explored ∪ {[ s ]})
      else bfs_step_expand goal node rest frontier explored
  end.

(** The first [while] loop: the events, and whether the generator has
    returned (after a [path] event). *)
Fixpoint bfs_step_loop1 (fuel : nat) (goal : Cell) (grid_size : Grid)
    (frontier : list Node) (explored : gset Cell)
  : option (list Event * bool) :=
  match frontier with
  | [] => Some ([], false)
  | node :: frontier =>
      match fuel with
      | O => None
      | S fuel' =>
          let ev := EvStep (state <$> frontier) explored
                           (Some (state node)) in
          match bfs_step_expand goal node
                  (get_successors (state node) grid_size)
                  frontier explored with
          | inl p => Some ([ev; EvPath (Some p)], true)
          | inr (frontier, explored) =>
              '(events, returned) ←
                bfs_step_loop1 fuel' goal grid_size frontier explored;
              Some (ev :: events, returned)
          end
      end
  end.

(** The second [while] loop, which is the loop of [bfs] with a [step]
    event after each dequeue. *)
Fixpoint bfs_step_loop2 (fuel : nat) (goal : Cell) (grid_size : Grid)
    (frontier : list Node) (explored : gset Cell)
  : option (list Event * bool) :=
  match frontier with
  | [] => Some ([], false)
  | node :: frontier =>
      match fuel with
      | O => None
      | S fuel' =>
          let explored := explored ∪ {[ state node ]} in
          let ev := EvStep (state <$> frontier) explored
                           (Some (state node)) in
          match bfs_expand goal node explored
                  (get_successors (state node) grid_size) frontier with
          | inl p => Some ([ev; EvPath (Some p)], true)
          | inr frontier =>
              '(events, returned) ←
                bfs_step_loop2 fuel' goal grid_size frontier explored;
              Some (ev :: events, returned)
          end
      end
  end.

Definition bfs_step (fuel : nat) (start goal : Cell) (grid_size : Grid)
  : option (list Event) :=
  let start_node := root_node start in
  if decide (start = goal) then Some [EvPath (Some [])]
  else
    let first := EvStep [start] {[ start ]} (Some start) in
    match bfs_step_loop1 fuel goal grid_size [start_node] {[ start ]} with
    | None => None
    | Some (events1, true) => Some (first :: events1)
    | Some (events1, false) =>
        match bfs_step_loop2 fuel goal grid_size [start_node] ∅ with
        | None => None
        | Some (events2, returned) =>
            Some (first :: events1 ++ events2
                    ++ (if returned then [] else [EvPath None]))
        end
    end.

(** ** [dfs_step] and [ucs_step] *)

Fixpoint dfs_step_loop (fuel : nat) (goal : Cell) (grid_size : Grid)
    (frontier : list Node) (explored : gset Cell) : option (list Event) :=
  match frontier with
  | [] => Some [EvPath None]
  | node :: frontier =>
      match fuel with
      | O => None
      | S fuel' =>
          if decide (state node = goal) then
            Some [EvPath (Some (reconstruct_path node))]
          else if decide (state node ∉ explored) then
            let explored := explored ∪ {[ state node ]} in
            let ev := EvStep (rev (state <$> frontier)) explored
                             (Some (state node)) in
            let neighbors := get_successors (state node) grid_size in
            events ← dfs_step_loop fuel' goal grid_size
                       (dfs_push node explored (rev neighbors) frontier)
                       explored;
            Some (ev :: events)
          else dfs_step_loop fuel' goal grid_size frontier explored
      end
  end.

Definition dfs_step (fuel : nat) (start goal : Cell) (grid_size : Grid)
  : option (list Event) :=
  events ← dfs_step_loop fuel goal grid_size [root_node start] ∅;
  Some (EvStep [start] ∅ None :: events).

Fixpoint ucs_step_loop (fuel : nat) (goal : Cell) (grid_size : Grid)
    (frontier : list Node) (explored : gset Cell) : option (list Event) :=
  match frontier with
  | [] => Some [EvPath None]
  | _ :: _ =>
      match fuel with
      | O => None
      | S fuel' =>
          '(node, frontier) ← heappop frontier;
          if decide (state node = goal) then
            Some [EvPath (Some (reconstruct_path node))]
          else if decide (state node ∉ explored) then
            let explored := explored ∪ {[ state node ]} in
            let ev := EvStep (state <$> frontier) explored
                             (Some (state node)) in
            frontier ← ucs_push node explored
                          (get_successors (state node) grid_size) frontier;
            events ← ucs_step_loop fuel' goal grid_size frontier explored;
            Some (ev :: events)
          else ucs_step_loop fuel' goal grid_size frontier explored
      end
  end.

Definition ucs_step (fuel : nat) (start goal : Cell) (grid_size : Grid)
  : option (list Event) :=
  frontier ← heappush [] (root_node start);
  events ← ucs_step_loop fuel goal grid_size frontier ∅;
  Some (EvStep (state <$> frontier) ∅ None :: events).

(** ** [bidirectional_search_step] *)

Fixpoint bidi_step_loop (fuel : nat) (grid_size : Grid)
    (f_frontier : list Node) (f_explored : gmap Cell Node)
    (b_frontier : list Node) (b_explored : gmap Cell Node)
  : option (list Event) :=
  match f_frontier, b_frontier with
  | f_node :: f_frontier, b_node :: b_frontier0 =>
      match fuel with
      | O => None
      | S fuel' =>
          let ev_f :=
            EvStep ((state <$> f_frontier)
                      ++ (state <$> (b_node :: b_frontier0)))
                   (dom f_explored ∪ dom b_explored)
                   (Some (state f_node)) in
          match bidi_expand b_explored f_node
                  (get_successors (state f_node) grid_size)
                  f_frontier f_explored with
          | inl (child, met) =>
              Some [ev_f; EvPath (Some (merge_paths child met))]
          | inr (f_frontier, f_explored) =>
              let ev_b :=
                EvStep ((state <$> f_frontier) ++ (state <$> b_frontier0))
                       (dom f_explored ∪ dom b_explored)
                       (Some (state b_node)) in
              match bidi_expand f_explored b_node
                      (get_successors (state b_node) grid_size)
                      b_frontier0 b_explored with
              | inl (child, met) =>
                  Some [ev_f; ev_b; EvPath (Some (merge_paths met child))]
              | inr (b_frontier, b_explored) =>
                  events ← bidi_step_loop fuel' grid_size
                             f_frontier f_explored b_frontier b_explored;
                  Some (ev_f :: ev_b :: events)
              end
          end
      end
  | _, _ => Some [EvPath None]
  end.

Definition bidirectional_search_step (fuel : nat) (start goal : Cell)
    (grid_size : Grid) : option (list Event) :=
  if decide (start = goal) then Some [EvPath (Some [])]
  else
    bidi_step_loop fuel grid_size
                   [root_node start] {[ start := root_node start ]}
                   [root_node goal] {[ goal := root_node goal ]}.

(** ** Comparing a sequence of events with a batch result *)

(** The path a batch result stands for in a [path] event: a found path, or
    Python's [None]. *)
Definition result_path (r : Result) : option Path :=
  match r with Found p => Some p | _ => None end.

Definition is_found (r : Result) : bool :=
  match r with Found _ => true | _ => false end.

(** The events of a depth-limited generator match the batch result [r]:
    with a found path, the sequence ends with its one [path] event, which
    carries that path; otherwise it has no [path] event at all. *)
Definition dls_trace (events : list Event) (r : Result) : Prop :=
  match r with
  | Found p => until_path events = (events, true)
               /\ terminal_path events = Some (Some p)
  | _ => until_path events = (events, false)
         /\ terminal_path events = None
  end.

(** * Further notions *)

(** A sequence of events ends with a [path] event carrying [po], and has no
    other [path] event. *)
Definition ends_with_path (events : list Event) (po : option Path) : Prop :=
  exists pre, events = pre ++ [EvPath po]
              /\ Forall (fun e => is_path_event e = false) pre.

(** The depths announced by the [log] events of a sequence, in order. *)
Fixpoint log_depths (events : list Event) : list Z :=
  match events with
  | [] => []
  | EvLog d :: rest => d :: log_depths rest
  | _ :: rest => log_depths rest
  end.

(** At the head of the loop of [dfs] (and of [ucs]): each successor of an
    explored state is explored or waits in the frontier, so does [start],
    and the goal is not explored. *)
Record frontier_covers (gs : Grid) (start goal : Cell) (F : list Node)
    (E : gset Cell) : Prop := {
  fc_closed : forall s a s',
      s ∈ E -> step_cell gs s a = Some s' ->
      s' ∈ E \/ exists m, m ∈ F /\ state m = s';
  fc_start : start ∈ E \/ exists m, m ∈ F /\ state m = start;
  fc_goal : goal ∉ E
}.

(** At the head of the loop of [bidirectional_search]: on each side a
    recorded state either still waits in that side's frontier or has all
    its successors recorded; the two records share no state. *)
Definition side_closed (gs : Grid) (F : list Node) (E : gmap Cell Node)
  : Prop :=
  forall s, s ∈ dom E ->
    (exists m, m ∈ F /\ state m = s)
    \/ (forall a s', step_cell gs s a = Some s' -> s' ∈ dom E).

Record bidi_inv (gs : Grid) (start goal : Cell)
    (ff : list Node) (fe : gmap Cell Node)
    (bf : list Node) (be : gmap Cell Node) : Prop := {
  meet_forward : side_closed gs ff fe;
  meet_backward : side_closed gs bf be;
  meet_start : start ∈ dom fe;
  meet_goal : goal ∈ dom be;
  meet_apart : forall s, s ∈ dom fe -> s ∉ dom be
}.

(** * The visualizer, [gui.py]

    [SearchGUI] is modelled by the fields its methods read and write.  The
    canvas is the map from a cell [(r, c)], which stands for the tag
    [cell_r_c], to the rectangle drawn under that tag.  The option menu is
    the enum [Algo] and the status label holds one of five texts.  The
    window, the widgets' layout and the delay between two steps are not
    modelled. *)

Inductive Color : Type :=
  | White | Black | Orange | Purple | Cyan | LightGray | Green | Yellow.

Definition COLOR_EMPTY : Color := White.
Definition COLOR_WALL : Color := Black.
Definition COLOR_START : Color := Orange.
Definition COLOR_GOAL : Color := Purple.
Definition COLOR_FRONTIER : Color := Cyan.
Definition COLOR_EXPLORED : Color := LightGray.
Definition COLOR_PATH : Color := Green.
Definition COLOR_CURRENT : Color := Yellow.

(** The entries of the option menu. *)
Inductive Algo : Type := BFS | DFS | UCS | DLS | IDDFS | Bidirectional.

(** The texts of the status label: ["Ready"], ["Running <algo>..."],
    ["Goal Reached!"], ["No Path Found"] and ["Finished"]. *)
Inductive Status : Type :=
  | Ready | Running (algo : Algo) | GoalReached | NoPathFound | Finished.

Definition ROWS : Z := 20.
Definition COLS : Z := 20.
Definition CELL_SIZE : Z := 25.

(** [self.grid_size]. *)
Definition gui_grid_size : Grid := (ROWS, COLS).

(** What [create_rectangle(x1, y1, x2, y2, fill=color, ...)] draws. *)
Record Rectangle : Type := mkRectangle {
  rect_x1 : Z;
  rect_y1 : Z;
  rect_x2 : Z;
  rect_y2 : Z;
  rect_fill : Color
}.

Record SearchGUI : Type := mkGUI {
  start_pos : Cell;
  goal_pos : Cell;
  walls : gset Cell;
  running : bool;
  generator : option (list Event);
  algo_var : Algo;
  status_label : Status;
  canvas : gmap Cell Rectangle
}.

Definition set_start_pos (rc : Cell) (g : SearchGUI) : SearchGUI :=
  mkGUI rc (goal_pos g) (walls g) (running g) (generator g) (algo_var g)
        (status_label g) (canvas g).

Definition set_goal_pos (rc : Cell) (g : SearchGUI) : SearchGUI :=
  mkGUI (start_pos g) rc (walls g) (running g) (generator g) (algo_var g)
        (status_label g) (canvas g).

Definition set_running (b : bool) (g : SearchGUI) : SearchGUI :=
  mkGUI (start_pos g) (goal_pos g) (walls g) b (generator g) (algo_var g)
        (status_label g) (canvas g).

Definition set_generator (gen : option (list Event)) (g : SearchGUI)
  : SearchGUI :=
  mkGUI (start_pos g) (goal_pos g) (walls g) (running g) gen (algo_var g)
        (status_label g) (canvas g).

Definition set_status (st : Status) (g : SearchGUI) : SearchGUI :=
  mkGUI (start_pos g) (goal_pos g) (walls g) (running g) (generator g)
        (algo_var g) st (canvas g).

Definition set_canvas (cv : gmap Cell Rectangle) (g : SearchGUI)
  : SearchGUI :=
  mkGUI (start_pos g) (goal_pos g) (walls g) (running g) (generator g)
        (algo_var g) (status_label g) cv.

(** The colour [draw_grid] chooses for a cell. *)
Definition cell_color (g : SearchGUI) (rc : Cell) : Color :=
  if decide (rc = start_pos g) then COLOR_START
  else if decide (rc = goal_pos g) then COLOR_GOAL
  else if decide (rc ∈ walls g) then COLOR_WALL
  else COLOR_EMPTY.

(** The body of the two loops of [draw_grid]. *)
Definition draw_cell (g : SearchGUI) (cv : gmap Cell Rectangle) (rc : Cell)
  : gmap Cell Rectangle :=
  let x1 := rc.2 * CELL_SIZE in
  let y1 := rc.1 * CELL_SIZE in
  let x2 := x1 + CELL_SIZE in
  let y2 := y1 + CELL_SIZE in
  <[ rc := mkRectangle x1 y1 x2 y2 (cell_color g rc) ]> cv.

Definition draw_grid (g : SearchGUI) : SearchGUI :=
  set_canvas
    (foldl (draw_cell g) ∅ (r ← seqZ 0 ROWS; c ← seqZ 0 COLS; [(r, c)])) g.

(** [itemconfig] changes the rectangles that carry the tag, and does nothing
    when there is none. *)
Definition update_cell_color (g : SearchGUI) (rc : Cell) (color : Color)
  : SearchGUI :=
  if decide (rc = start_pos g \/ rc = goal_pos g) then g
  else
    set_canvas
      (alter (fun it => mkRectangle (rect_x1 it) (rect_y1 it) (rect_x2 it)
                                    (rect_y2 it) color)
             rc (canvas g)) g.

(** [on_click] and [on_right_click], with [event.x] and [event.y]. *)
Definition on_click (g : SearchGUI) (x y : Z) : SearchGUI :=
  let r := y / CELL_SIZE in
  let c := x / CELL_SIZE in
  if (0 <=? r) && (r <? ROWS) && (0 <=? c) && (c <? COLS) then
    if decide ((r, c) <> goal_pos g) then draw_grid (set_start_pos (r, c) g)
    else g
  else g.

Definition on_right_click (g : SearchGUI) (x y : Z) : SearchGUI :=
  let r := y / CELL_SIZE in
  let c := x / CELL_SIZE in
  if (0 <=? r) && (r <? ROWS) && (0 <=? c) && (c <? COLS) then
    if decide ((r, c) <> start_pos g) then draw_grid (set_goal_pos (r, c) g)
    else g
  else g.

Definition reset_visualization (g : SearchGUI) : SearchGUI :=
  set_status Ready (draw_grid (set_generator None (set_running false g))).

(** The [for] loop of [display_path_result]: an entry that is no key of
    [moves] is skipped. *)
Fixpoint display_path_loop (g : SearchGUI) (rc : Cell) (actions : Path)
  : SearchGUI :=
  match actions with
  | [] => g
  | Some a :: rest =>
      let rc' := move_to rc a in
      let g' := if decide (rc' <> goal_pos g)
                then update_cell_color g rc' COLOR_PATH else g in
      display_path_loop g' rc' rest
  | None :: rest => display_path_loop g rc rest
  end.

Definition display_path_result (g : SearchGUI) (actions : Path) : SearchGUI :=
  display_path_loop g (start_pos g) actions.

(** One [for r, c in cells: self.update_cell_color(r, c, color)] loop. *)
Definition paint_cells (color : Color) (cells : list Cell) (g : SearchGUI)
  : SearchGUI :=
  foldl (fun g rc => update_cell_color g rc color) g cells.

(** [step_search].  The flag tells whether the call has scheduled the next
    one with [root.after]; the result is [None] for the [TypeError] of
    [next(None)].  The explored states are painted in the order of
    [elements]: they all get the same colour, so the order of
    [list(explored)] does not matter. *)
Definition step_search (g : SearchGUI) : option (SearchGUI * bool) :=
  if negb (running g) then Some (g, false)
  else
    match generator g with
    | None => None
    | Some [] => Some (set_status Finished (set_running false g), false)
    | Some (event :: rest) =>
        let g := set_generator (Some rest) g in
        match event with
        | EvStep frontier explored current =>
            let g := paint_cells COLOR_EXPLORED (elements explored) g in
            let g := paint_cells COLOR_FRONTIER frontier g in
            let g := match current with
                     | Some rc => update_cell_color g rc COLOR_CURRENT
                     | None => g
                     end in
            Some (g, true)
        | EvPath path =>
            let g := set_running false g in
            match path with
            | Some p =>
                Some (set_status GoalReached (display_path_result g p), false)
            | None => Some (set_status NoPathFound g, false)
            end
        | EvLog _ => Some (g, true)
        end
    end.

(** [run_search]: the generator of the chosen algorithm, then the first call
    of [step_search].  [fuel] bounds the loops of the generator. *)
Definition run_search (fuel : nat) (g : SearchGUI)
  : option (SearchGUI * bool) :=
  if running g then Some (g, false)
  else
    let algo := algo_var g in
    let g := reset_visualization g in
    let g := set_status (Running algo) (set_running true g) in
    events ← match algo with
             | BFS => bfs_step fuel (start_pos g) (goal_pos g) gui_grid_size
             | DFS => dfs_step fuel (start_pos g) (goal_pos g) gui_grid_size
             | UCS => ucs_step fuel (start_pos g) (goal_pos g) gui_grid_size
             | DLS =>
                 Some (dls_step (start_pos g) (goal_pos g) gui_grid_size 50)
             | IDDFS =>
                 Some (iddfs_step (start_pos g) (goal_pos g) gui_grid_size
                                  default_max_depth)
             | Bidirectional =>
                 bidirectional_search_step fuel (start_pos g) (goal_pos g)
                                           gui_grid_size
             end;
    step_search (set_generator (Some events) g).

(** The main loop of Tk with no further input from the user: the scheduled
    calls of [step_search] run one after the other, at most [n] of them. *)
Fixpoint run_scheduled (n : nat) (g : SearchGUI) (scheduled : bool)
  : option SearchGUI :=
  if scheduled then
    match n with
    | O => None
    | S n' =>
        match step_search g with
        | Some (g', s) => run_scheduled n' g' s
        | None => None
        end
    end
  else Some g.

(** [SearchGUI.__init__]. *)
Definition gui_init : SearchGUI :=
  draw_grid (mkGUI (0, 0) (ROWS - 1, COLS - 1) ∅ false None BFS Ready ∅).

(** Start and goal are two different cells of the grid. *)
Definition positions_ok (g : SearchGUI) : Prop :=
  in_bounds gui_grid_size (start_pos g) = true
  /\ in_bounds gui_grid_size (goal_pos g) = true
  /\ start_pos g <> goal_pos g.

(** The colour the canvas shows for a cell, if it has a rectangle. *)
Definition shown (g : SearchGUI) (rc : Cell) : option Color :=
  rect_fill <$> canvas g !! rc.

(** What a method that only recolours rectangles keeps: the two positions,
    the colours shown for them, and the cells that have a rectangle. *)
Definition keeps_marks (g g' : SearchGUI) : Prop :=
  start_pos g' = start_pos g
  /\ goal_pos g' = goal_pos g
  /\ shown g' (start_pos g) = shown g (start_pos g)
  /\ shown g' (goal_pos g) = shown g (goal_pos g)
  /\ forall rc, is_Some (shown g' rc) <-> is_Some (shown g rc).

(** The cells [display_path_result] walks through, from the cell [rc]. *)
Fixpoint walk_cells (rc : Cell) (actions : Path) : list Cell :=
  match actions with
  | [] => []
  | Some a :: rest => move_to rc a :: walk_cells (move_to rc a) rest
  | None :: rest => walk_cells rc rest
  end.

(** * Paths that visit no cell twice *)

(** The cells [q] passes through from [s], [s] included. *)
Fixpoint visited (gs : Grid) (s : Cell) (q : Path) : gset Cell :=
  match q with
  | Some a :: q' =>
      {[ s ]} ∪ match step_cell gs s a with
               | Some s' => visited gs s' q'
               | None => ∅
               end
  | _ => {[ s ]}
  end.

(** The path to the node [m] visits no cell twice, and every cell on it
    before [state m] is in [E] (the explored states, or the path states of
    [recursive_dls]). *)
Definition node_simple (gs : Grid) (start : Cell) (E : gset Cell) (m : Node)
  : Prop :=
  simple_path gs ∅ start (reconstruct_path m) (state m)
  /\ visited gs start (reconstruct_path m) ⊆ E ∪ {[ state m ]}.

(** Replaying two prefixes of [p] of different lengths never ends on the
    same cell. *)
Definition visits_no_cell_twice (gs : Grid) (start : Cell) (p : Path)
  : Prop :=
  forall (i j : nat) (c : Cell),
    (i < j <= length p)%nat ->
    replay gs start (take i p) = Some c ->
    replay gs start (take j p) <> Some c.
(** * Properties *)

(** ** Successors and replay *)

Lemma in_bounds_spec gs s :
  in_bounds gs s = true <-> 0 <= s.1 < gs.1 /\ 0 <= s.2 < gs.2.
Proof. unfold in_bounds. rewrite !andb_true_iff. lia. Qed.

(** The successors of a cell are exactly its in-bounds moves, with the
    listed cost. *)
Lemma get_successors_spec s gs s' a c :
  (s', a, c) ∈ get_successors s gs <->
  step_cell gs s a = Some s' /\ c = move_cost a.
Proof.
  destruct s as [row col]. unfold get_successors, step_cell, move_to.
  rewrite list_elem_of_In, in_flat_map. split.
  - intros [[[a' [dr dc]] c'] [Hin Hs]].
    destruct (in_bounds gs (row + dr, col + dc)) eqn:Hb; [| by destruct Hs].
    destruct Hs as [Hs | []]. inversion Hs; subst; clear Hs.
    cbn in Hin.
    repeat destruct Hin as [Hin | Hin]; try done;
      inversion Hin; subst; cbn [moves fst snd move_cost]; by rewrite Hb.
  - intros [Hs ->].
    exists (a, moves a, move_cost a). split.
    + destruct a; cbn; tauto.
    + destruct (moves a) as [dr dc] eqn:Hm. cbn [fst snd] in Hs.
      destruct (in_bounds gs (row + dr, col + dc)); [| done].
      left. by simplify_eq.
Qed.

Lemma replay_app gs s p q :
  replay gs s (p ++ q) = replay gs s p ≫= fun t => replay gs t q.
Proof.
  revert s. induction p as [| [a |] p IH]; intros s; cbn; [done | | done].
  destruct (step_cell gs s a); cbn; [apply IH | done].
Qed.

Lemma replay_snoc gs s p a t u :
  replay gs s p = Some t -> step_cell gs t a = Some u ->
  replay gs s (p ++ [Some a]) = Some u.
Proof. intros Hp Ha. rewrite replay_app, Hp. cbn. by rewrite Ha. Qed.

Lemma step_cell_in_bounds gs s a t :
  step_cell gs s a = Some t -> in_bounds gs t = true.
Proof.
  unfold step_cell. destruct (in_bounds gs (move_to s a)) eqn:Hb; [| done].
  by intros [= <-].
Qed.

Lemma replay_in_bounds gs s p t :
  in_bounds gs s = true -> replay gs s p = Some t -> in_bounds gs t = true.
Proof.
  revert s. induction p as [| [a |] p IH]; intros s Hs; cbn; [| | done].
  - by intros [= <-].
  - destruct (step_cell gs s a) as [s' |] eqn:Hstep; [| done].
    apply IH. by eapply step_cell_in_bounds.
Qed.

Lemma path_cost_app p q :
  (path_cost (p ++ q) == path_cost p + path_cost q)%Q.
Proof.
  induction p as [| [a |] p IH]; cbn; [ring | | exact IH].
  rewrite IH. ring.
Qed.

Lemma move_cost_nonneg a : (0 <= move_cost a)%Q.
Proof. destruct a; cbn; lra. Qed.

Lemma path_cost_nonneg p : (0 <= path_cost p)%Q.
Proof.
  induction p as [| [a |] p IH]; cbn; [lra | | exact IH].
  pose proof (move_cost_nonneg a). lra.
Qed.

(** Path reconstruction of a freshly created child. *)
Lemma reconstruct_path_child s node a c d :
  reconstruct_path (mkNode s (Some node) (Some a) c d)
  = reconstruct_path node ++ [Some a].
Proof. reflexivity. Qed.

Lemma reconstruct_path_root s : reconstruct_path (root_node s) = [].
Proof. reflexivity. Qed.

Lemma node_wf_root gs start : node_wf gs start (root_node start).
Proof. split; cbn; [done | reflexivity | done]. Qed.

Lemma node_wf_child gs start node s a c :
  node_wf gs start node ->
  (s, a, c) ∈ get_successors (state node) gs ->
  node_wf gs start
          (mkNode s (Some node) (Some a) (cost node + c)%Q (depth node + 1)).
Proof.
  intros [Hr Hc Hd] [Hs ->]%get_successors_spec.
  split; rewrite reconstruct_path_child; cbn [state cost depth].
  - by eapply replay_snoc.
  - rewrite path_cost_app, Hc. cbn. ring.
  - rewrite length_app, Hd. cbn. lia.
Qed.

(** ** Depth-limited search *)

Section Dls.
Variables (gs : Grid) (start goal : Cell).

(** A call that does not find the goal leaves the shared set of path
    states as it received it: every [add] is undone by the [remove] (which
    therefore never raises). *)
Lemma dls_loop_restores (rec : Node -> gset Cell -> Result * gset Cell)
    (node : Node) (succs : list (Cell * Action * Q))
    (cut : bool) (ps : gset Cell) r ps' :
  (forall child (ps1 : gset Cell) r1 ps1',
      state child ∉ ps1 -> rec child ps1 = (r1, ps1') ->
      not_found r1 -> ps1' = ps1) ->
  dls_loop rec node succs cut ps = (r, ps') ->
  not_found r -> ps' = ps ∖ {[ state node ]}.
Proof.
  intros Hrec. revert cut ps.
  induction succs as [| [[s a] c] rest IH]; intros cut ps; cbn.
  - by intros [= <- <-].
  - case_decide as Hin; [apply IH |].
    destruct (rec _ ps) as [r1 ps1] eqn:Hcall.
    pose proof (fun H => Hrec _ _ _ _ H Hcall) as Hres.
    specialize (Hres Hin).
    destruct r1; cbn in Hres.
    + by intros [= <- <-] [].
    + rewrite Hres by done. apply IH.
    + rewrite Hres by done. apply IH.
Qed.

Lemma recursive_dls_restores (limit : nat) (node : Node) (ps : gset Cell)
    (r : Result) (ps' : gset Cell) :
  state node ∉ ps ->
  recursive_dls limit goal gs node ps = (r, ps') ->
  not_found r -> ps' = ps.
Proof.
  revert node ps r ps'.
  induction limit as [| limit IH]; intros node ps r ps' Hnotin; cbn;
    case_decide as Hgoal.
  - intros [= <- <-]. by intros [].
  - by intros [= <- <-].
  - intros [= <- <-]. by intros [].
  - intros Hloop Hnf.
    eapply dls_loop_restores in Hloop; [| | done].
    + rewrite Hloop. set_solver.
    + intros child ps1 r1 ps1'. apply IH.
Qed.

(** Soundness: a found path replays from [start] to the goal and is at
    most [limit] moves longer than the path to the node searched. *)
Lemma dls_loop_sound (rec : Node -> gset Cell -> Result * gset Cell)
    (node : Node) (succs : list (Cell * Action * Q))
    (cut : bool) (ps : gset Cell) p ps' (bound : nat) :
  node_wf gs start node ->
  (forall s a c, (s, a, c) ∈ succs ->
                 (s, a, c) ∈ get_successors (state node) gs) ->
  (forall child (ps1 : gset Cell) p1 ps1',
      node_wf gs start child ->
      length (reconstruct_path child)
      = S (length (reconstruct_path node)) ->
      rec child ps1 = (Found p1, ps1') ->
      replay gs start p1 = Some goal /\ (length p1 <= bound)%nat) ->
  dls_loop rec node succs cut ps = (Found p, ps') ->
  replay gs start p = Some goal /\ (length p <= bound)%nat.
Proof.
  intros Hwf Hsub Hrec. revert cut ps.
  induction succs as [| [[s a] c] rest IH]; intros cut ps; cbn.
  - by destruct cut.
  - assert (forall s a c, (s, a, c) ∈ rest ->
              (s, a, c) ∈ get_successors (state node) gs) as Hrest
      by (intros; apply Hsub; by right).
    case_decide as Hin; [by apply IH |].
    destruct (rec _ ps) as [r1 ps1] eqn:Hcall.
    destruct r1; [| by apply IH | by apply IH].
    intros [= <- <-].
    eapply Hrec; [| | exact Hcall].
    + apply node_wf_child; [done |]. apply Hsub. by left.
    + rewrite reconstruct_path_child, length_app. cbn. lia.
Qed.

Lemma recursive_dls_sound (limit : nat) (node : Node) (ps : gset Cell)
    (p : Path) (ps' : gset Cell) :
  node_wf gs start node ->
  recursive_dls limit goal gs node ps = (Found p, ps') ->
  replay gs start p = Some goal
  /\ (length p <= length (reconstruct_path node) + limit)%nat.
Proof.
  revert node ps p ps'.
  induction limit as [| limit IH]; intros node ps p ps' Hwf; cbn;
    case_decide as Hgoal; try done.
  - intros [= <- <-]. split; [| lia]. rewrite <- Hgoal. apply Hwf.
  - intros [= <- <-]. split; [| lia]. rewrite <- Hgoal. apply Hwf.
  - intros Hloop.
    eapply dls_loop_sound in Hloop; [exact Hloop | done | done |].
    intros child ps1 p1 ps1' Hwfc Hlen Hcall.
    apply IH in Hcall; [| done]. rewrite Hlen in Hcall.
    split; [apply Hcall | lia].
Qed.
End Dls.

(** ** Paths that avoid a set, and simple paths *)

Lemma replay_avoids gs s q t : replay gs s q = Some t <-> avoids gs ∅ s q t.
Proof.
  revert s. induction q as [| [a |] q IH]; intros s; cbn.
  - split; [by intros [= ->] | by intros ->].
  - destruct (step_cell gs s a) as [s' |]; split.
    + intros H. exists s'. split; [done |]. split; [set_solver |].
      by apply IH.
    + intros (s'' & [= <-] & _ & H). by apply IH.
    + done.
    + by intros (s'' & [=] & _).
  - split; [done | intros []].
Qed.

Lemma avoids_replay (gs : Grid) (ps : gset Cell) s q t :
  avoids gs ps s q t -> replay gs s q = Some t.
Proof.
  revert s. induction q as [| [a |] q IH]; intros s; cbn.
  - by intros ->.
  - intros (s' & -> & _ & H). by apply IH.
  - intros [].
Qed.

Lemma simple_path_replay (gs : Grid) (ps : gset Cell) s q t :
  simple_path gs ps s q t -> replay gs s q = Some t.
Proof.
  revert s ps. induction q as [| [a |] q IH]; intros s ps; cbn.
  - by intros ->.
  - intros (s' & -> & _ & H). by eapply IH.
  - intros [].
Qed.

(** Cutting a path at its last visit of a cell [s0]. *)
Lemma avoids_last_visit (gs : Grid) (ps : gset Cell) s0 q u t :
  avoids gs ps u q t ->
  avoids gs (ps ∪ {[ s0 ]}) u q t
  \/ exists q2, (length q2 < length q)%nat
                /\ avoids gs (ps ∪ {[ s0 ]}) s0 q2 t.
Proof.
  revert u. induction q as [| [a |] q IH]; intros u; cbn.
  - by left.
  - intros (s' & Hstep & Hnot & Hrest).
    destruct (IH _ Hrest) as [Hl | (q2 & Hlen & Hq2)].
    + destruct (decide (s' = s0)) as [-> | Hne].
      * right. exists q. split; [lia | done].
      * left. exists s'. split; [done |]. split; [set_solver | done].
    + right. exists q2. split; [lia | done].
  - intros [].
Qed.

(** Loops can be cut out of a path. *)
Lemma avoids_simple gs (n : nat) :
  forall (ps : gset Cell) s q t,
    (length q <= n)%nat -> avoids gs ps s q t ->
    exists q', (length q' <= length q)%nat /\ simple_path gs ps s q' t.
Proof.
  induction n as [| n IH]; intros ps s q t Hlen Hav.
  - destruct q; [| cbn in Hlen; lia]. exists []. done.
  - destruct (avoids_last_visit gs ps s q s t Hav) as [Hl | (q2 & Hlt & Hq2)].
    + destruct q as [| [a |] q]; [by exists [] | | done].
      cbn in Hl. destruct Hl as (s' & Hstep & Hnot & Hrest).
      destruct (IH (ps ∪ {[ s ]}) s' q t) as (q' & Hlen' & Hsimple);
        [cbn in Hlen; lia | done |].
      exists (Some a :: q'). split; [cbn; lia |].
      cbn. exists s'. done.
    + destruct q2 as [| [a |] q2]; [exists []; split; [cbn; lia | done] | | done].
      cbn in Hq2. destruct Hq2 as (s' & Hstep & Hnot & Hrest).
      destruct (IH (ps ∪ {[ s ]}) s' q2 t) as (q' & Hlen' & Hsimple);
        [cbn in Hlt; lia | done |].
      exists (Some a :: q'). split; [cbn in *; lia |].
      cbn. exists s'. done.
Qed.

Lemma replay_simple gs s q t :
  replay gs s q = Some t ->
  exists q', (length q' <= length q)%nat /\ simple_path gs ∅ s q' t.
Proof.
  intros H%replay_avoids. by eapply avoids_simple.
Qed.

(** A prefix of a simple path is simple. *)
Lemma simple_path_take gs (k : nat) :
  forall (ps : gset Cell) s q t,
    simple_path gs ps s q t -> exists u, simple_path gs ps s (take k q) u.
Proof.
  induction k as [| k IH]; intros ps s q t H.
  - exists s. by rewrite take_0.
  - destruct q as [| [a |] q]; [by exists t | | done].
    cbn in H. destruct H as (s' & Hstep & Hnot & Hrest).
    destruct (IH _ _ _ _ Hrest) as [u Hu].
    exists u. cbn. exists s'. done.
Qed.

(** Any two cells of the grid are joined by a path. *)
Lemma grid_connected gs (n : nat) :
  forall s t,
    in_bounds gs s = true -> in_bounds gs t = true ->
    Z.abs (t.1 - s.1) + Z.abs (t.2 - s.2) = Z.of_nat n ->
    exists q, replay gs s q = Some t.
Proof.
  induction n as [| n IH]; intros [r c] [r' c'] Hs Ht Hd; cbn [fst snd] in Hd.
  - exists []. cbn. f_equal. f_equal; lia.
  - apply in_bounds_spec in Hs as Hs', Ht as Ht'. cbn [fst snd] in Hs', Ht'.
    assert (exists a s', step_cell gs (r, c) a = Some s'
              /\ Z.abs (r' - s'.1) + Z.abs (c' - s'.2) = Z.of_nat n)
      as (a & s' & Hstep & Hd').
    { destruct (Z.lt_trichotomy r r') as [Hlt | [Heq | Hgt]].
      - exists Bottom, (r + 1, c). unfold step_cell, move_to. cbn [moves fst snd].
        rewrite Z.add_0_r.
        rewrite (proj2 (in_bounds_spec gs (r + 1, c))) by (cbn; lia).
        split; [done | cbn; lia].
      - destruct (Z.lt_trichotomy c c') as [Hlt | [Heq' | Hgt]]; [| lia |].
        + exists Right, (r, c + 1). unfold step_cell, move_to.
          cbn [moves fst snd]. rewrite Z.add_0_r.
          rewrite (proj2 (in_bounds_spec gs (r, c + 1))) by (cbn; lia).
          split; [done | cbn; lia].
        + exists Left, (r, c - 1). unfold step_cell, move_to.
          cbn [moves fst snd]. rewrite Z.add_0_r.
          replace (c + -1) with (c - 1) by lia.
          rewrite (proj2 (in_bounds_spec gs (r, c - 1))) by (cbn; lia).
          split; [done | cbn; lia].
      - exists Up, (r - 1, c). unfold step_cell, move_to. cbn [moves fst snd].
        rewrite Z.add_0_r. replace (r + -1) with (r - 1) by lia.
        rewrite (proj2 (in_bounds_spec gs (r - 1, c))) by (cbn; lia).
        split; [done | cbn; lia]. }
    destruct (IH s' (r', c')) as [q Hq];
      [by eapply step_cell_in_bounds | done | done |].
    exists (Some a :: q). cbn. by rewrite Hstep.
Qed.

Lemma grid_path_exists gs s t :
  in_bounds gs s = true -> in_bounds gs t = true ->
  exists q, replay gs s q = Some t.
Proof.
  intros Hs Ht.
  apply (grid_connected gs (Z.to_nat (Z.abs (t.1 - s.1) + Z.abs (t.2 - s.2))));
    [done | done | lia].
Qed.

(** ** Depth-limited search: completeness and cutoff *)

Section DlsComplete.
Variables (gs : Grid) (goal : Cell).

Lemma dls_loop_complete (rec : Node -> gset Cell -> Result * gset Cell)
    (node : Node) (succs : list (Cell * Action * Q)) (cut : bool)
    (ps : gset Cell) (s' : Cell) (a : Action) (c : Q) :
  restores rec ->
  (s', a, c) ∈ succs -> s' ∉ ps ->
  (exists p ps1,
      rec (mkNode s' (Some node) (Some a) (cost node + c)%Q (depth node + 1))
          ps = (Found p, ps1)) ->
  exists p ps', dls_loop rec node succs cut ps = (Found p, ps').
Proof.
  intros Hres Hin Hnot (p0 & ps0 & Htarget). revert cut.
  induction succs as [| [[s1 a1] c1] rest IH]; intros cut;
    [by apply elem_of_nil in Hin |].
  cbn. apply elem_of_cons in Hin as [Heq | Hin].
  - injection Heq as <- <- <-.
    rewrite decide_False by done. rewrite Htarget. eauto.
  - case_decide as Hs1; [by apply IH |].
    match goal with
    | |- context [rec ?ch ps] =>
        destruct (rec ch ps) as [r1 ps1] eqn:Hcall
    end.
    pose proof (fun H => Hres _ _ _ _ H Hcall) as Hsame.
    specialize (Hsame Hs1).
    destruct r1; [eauto | |]; rewrite Hsame by done; by apply IH.
Qed.

Lemma recursive_dls_complete (limit : nat) :
  forall (node : Node) (ps : gset Cell) (q : Path),
    state node ∉ ps ->
    simple_path gs ps (state node) q goal ->
    (length q <= limit)%nat ->
    exists p ps', recursive_dls limit goal gs node ps = (Found p, ps').
Proof.
  induction limit as [| limit IH]; intros node ps q Hnot Hq Hlen; cbn;
    case_decide as Hgoal; eauto.
  - destruct q as [| x q]; [done | cbn in Hlen; lia].
  - destruct q as [| [a |] q]; [done | | done].
    cbn in Hq. destruct Hq as (s' & Hstep & Hs' & Hrest).
    eapply (dls_loop_complete _ _ _ _ _ s' a (move_cost a)).
    + intros child ps1 r1 ps1'. apply recursive_dls_restores.
    + by apply get_successors_spec.
    + done.
    + eapply IH; [done | exact Hrest | cbn in Hlen; lia].
Qed.

Lemma dls_loop_cutoff (rec : Node -> gset Cell -> Result * gset Cell)
    (node : Node) (succs : list (Cell * Action * Q)) (cut : bool)
    (ps : gset Cell) (r : Result) (ps' : gset Cell) :
  restores rec ->
  dls_loop rec node succs cut ps = (r, ps') -> not_found r ->
  (cut = true \/
   exists s' a c,
     (s', a, c) ∈ succs /\ (s' ∉ ps) /\
     forall r1 ps1,
       rec (mkNode s' (Some node) (Some a) (cost node + c)%Q (depth node + 1))
           ps = (r1, ps1) ->
       not_found r1 -> r1 = Cutoff) ->
  r = Cutoff.
Proof.
  intros Hres. revert cut.
  induction succs as [| [[s1 a1] c1] rest IH]; intros cut; cbn.
  - intros [= <- <-] _ [-> | (s' & a & c & Hin & _)]; [done |].
    by apply elem_of_nil in Hin.
  - intros Hloop Hnf Hor.
    case_decide as Hs1.
    { apply (IH cut); [done | done |].
      destruct Hor as [-> | (s' & a & c & Hin & Hs' & Ht)]; [by left | right].
      exists s', a, c. split; [| done].
      apply elem_of_cons in Hin as [Heq | Hin]; [| done].
      by injection Heq as -> -> ->. }
    match type of Hloop with
    | context [rec ?ch ps] =>
        destruct (rec ch ps) as [r1 ps1] eqn:Hcall
    end.
    pose proof (fun H => Hres _ _ _ _ H Hcall) as Hsame.
    specialize (Hsame Hs1).
    destruct r1.
    + injection Hloop as <- <-. done.
    + rewrite Hsame in Hloop by done.
      apply (IH cut); [done | done |].
      destruct Hor as [-> | (s' & a & c & Hin & Hs' & Ht)]; [by left | right].
      exists s', a, c. split; [| done].
      apply elem_of_cons in Hin as [Heq | Hin]; [| done].
      injection Heq as -> -> ->. by specialize (Ht _ _ Hcall I).
    + rewrite Hsame in Hloop by done.
      apply (IH true); [done | done | by left].
Qed.

Lemma recursive_dls_cutoff (limit : nat) :
  forall (node : Node) (ps : gset Cell) (q : Path) (t : Cell)
         (r : Result) (ps' : gset Cell),
    state node ∉ ps ->
    simple_path gs ps (state node) q t ->
    length q = limit ->
    recursive_dls limit goal gs node ps = (r, ps') ->
    not_found r -> r = Cutoff.
Proof.
  induction limit as [| limit IH]; intros node ps q t r ps' Hnot Hq Hlen; cbn;
    case_decide as Hgoal; try (intros [= <- <-]; done).
  destruct q as [| [a |] q]; [done | | done].
  cbn in Hq. destruct Hq as (s' & Hstep & Hs' & Hrest).
  intros Hloop Hnf.
  eapply dls_loop_cutoff; [| exact Hloop | done |].
  - intros child ps1 r1 ps1'. apply recursive_dls_restores.
  - right. exists s', a, (move_cost a).
    split; [by apply get_successors_spec |]. split; [done |].
    intros r1 ps1 Hcall Hnf1.
    refine (IH (mkNode s' (Some node) (Some a) _ _) _ q t r1 ps1
               _ Hrest _ Hcall Hnf1); [done |].
    cbn in Hlen. lia.
Qed.
End DlsComplete.

(** ** [dls] and [iddfs] from the start node *)

Lemma dls_sound gs start goal limit p :
  dls start goal gs limit = Found p ->
  replay gs start p = Some goal /\ (length p <= Z.to_nat limit)%nat.
Proof.
  unfold dls.
  destruct (recursive_dls _ _ _ _ _) as [r ps'] eqn:Hcall. cbn. intros ->.
  eapply recursive_dls_sound in Hcall; [exact Hcall | apply node_wf_root].
Qed.

Lemma dls_complete gs start goal limit q :
  replay gs start q = Some goal -> (length q <= Z.to_nat limit)%nat ->
  exists p, dls start goal gs limit = Found p.
Proof.
  intros (q' & Hlen & Hq')%replay_simple Hle.
  destruct (recursive_dls_complete gs goal (Z.to_nat limit)
              (root_node start) ∅ q') as (p & ps' & Hcall);
    [set_solver | done | lia |].
  exists p. unfold dls. by rewrite Hcall.
Qed.

Lemma dls_cutoff gs start goal limit q t :
  simple_path gs ∅ start q t -> length q = Z.to_nat limit ->
  not_found (dls start goal gs limit) ->
  dls start goal gs limit = Cutoff.
Proof.
  unfold dls. intros Hq Hlen.
  destruct (recursive_dls _ _ _ _ _) as [r ps'] eqn:Hcall. cbn. intros Hnf.
  eapply (recursive_dls_cutoff gs goal _ (root_node start)); eauto.
  set_solver.
Qed.

(** The loop of [iddfs], started at a depth below which no path exists. *)
Lemma iddfs_from_spec gs start goal (n : nat) :
  forall d,
    0 <= d ->
    (forall q, replay gs start q = Some goal -> d <= Z.of_nat (length q)) ->
    match iddfs_from start goal gs d n with
    | Found p => shortest gs start goal p
                 /\ Z.of_nat (length p) < d + Z.of_nat n
    | NoPath => forall q, replay gs start q = Some goal ->
                          d + Z.of_nat n <= Z.of_nat (length q)
    | Cutoff => False
    end.
Proof.
  induction n as [| n IH]; intros d Hd Hmin; cbn [iddfs_from].
  - intros q Hq. specialize (Hmin q Hq). lia.
  - destruct (dls start goal gs d) as [p | |] eqn:Hdls.
    + apply dls_sound in Hdls as [Hp Hlen]. split; [split; [done |] | lia].
      intros q Hq. specialize (Hmin q Hq). lia.
    + assert (forall q, replay gs start q = Some goal ->
                        d + 1 <= Z.of_nat (length q)) as Hmin'.
      { intros q Hq. destruct (decide (Z.of_nat (length q) <= d)) as [Hle |];
          [| lia].
        destruct (dls_complete gs start goal d q) as [p Hp]; [done | lia |].
        congruence. }
      specialize (IH (d + 1) ltac:(lia) Hmin').
      destruct (iddfs_from start goal gs (d + 1) n); [| | done].
      * split; [apply IH | lia].
      * intros q Hq. specialize (IH q Hq). lia.
    + assert (forall q, replay gs start q = Some goal ->
                        d + 1 <= Z.of_nat (length q)) as Hmin'.
      { intros q Hq. destruct (decide (Z.of_nat (length q) <= d)) as [Hle |];
          [| lia].
        destruct (dls_complete gs start goal d q) as [p Hp]; [done | lia |].
        congruence. }
      specialize (IH (d + 1) ltac:(lia) Hmin').
      destruct (iddfs_from start goal gs (d + 1) n); [| | done].
      * split; [apply IH | lia].
      * intros q Hq. specialize (IH q Hq). lia.
Qed.

Lemma iddfs_spec gs start goal max_depth :
  match iddfs start goal gs max_depth with
  | Found p => shortest gs start goal p /\ Z.of_nat (length p) < max_depth
  | NoPath => forall q, replay gs start q = Some goal ->
                        max_depth <= Z.of_nat (length q)
  | Cutoff => False
  end.
Proof.
  unfold iddfs.
  pose proof (iddfs_from_spec gs start goal (Z.to_nat max_depth) 0
                ltac:(lia) ltac:(intros; lia)) as H.
  destruct (iddfs_from _ _ _ _ _); [| | done].
  - split; [apply H | lia].
  - intros q Hq. specialize (H q Hq). lia.
Qed.

(** Where a path exists, a shortest one exists. *)
Lemma shortest_exists gs start goal q :
  replay gs start q = Some goal -> exists p, shortest gs start goal p.
Proof.
  intros Hq.
  pose proof (iddfs_spec gs start goal (Z.of_nat (S (length q)))) as H.
  destruct (iddfs _ _ _ _) as [p | |]; [| | done].
  - exists p. apply H.
  - specialize (H q Hq). lia.
Qed.

(** ** Breadth-first search finds a shortest path *)

Section Bfs.
Variables (gs : Grid) (start goal : Cell).

(** Every path from [start] ends in an explored state, or in a frontier
    state at a depth not above its length, or has passed through the
    frontier before its end. *)
Lemma bfs_reach (F : list Node) (E : gset Cell) (q : Path) :
  bfs_inv gs start goal F E ->
  forall t, replay gs start q = Some t ->
    t ∈ E
    \/ (exists m, m ∈ F /\ state m = t /\ depth m <= Z.of_nat (length q))
    \/ (exists m, m ∈ F /\ depth m + 1 <= Z.of_nat (length q)).
Proof.
  intros Hinv. induction q as [| x q IH] using rev_ind; intros t.
  - cbn. intros [= <-].
    destruct (bi_start _ _ _ _ _ Hinv) as [? | (m & ? & ? & ?)];
      [by left | right; left; eauto].
  - rewrite replay_app, length_app.
    destruct (replay gs start q) as [t' |] eqn:Hq; [| done]. cbn.
    destruct x as [a |]; [| done].
    destruct (step_cell gs t' a) as [t'' |] eqn:Hstep; [| done].
    intros [= ->].
    destruct (IH t' eq_refl) as [HE | [(m & Hm & Hst & Hd) | (m & Hm & Hd)]].
    + destruct (bi_closed _ _ _ _ _ Hinv _ _ _ _ HE Hq Hstep)
        as [? | (m & ? & ? & ?)]; [by left |].
      right; left. exists m. repeat split; [done | done | lia].
    + right; right. exists m. split; [done | lia].
    + right; right. exists m. split; [done | lia].
Qed.

(** The dequeued node has the least depth of the frontier. *)
Lemma bfs_head_least (n0 : Node) (F : list Node) (E : gset Cell) (m : Node) :
  bfs_inv gs start goal (n0 :: F) E -> m ∈ n0 :: F -> depth n0 <= depth m.
Proof.
  intros Hinv [-> | Hm]%elem_of_cons; [lia |].
  pose proof (bi_sorted _ _ _ _ _ Hinv) as Hs.
  apply StronglySorted_cons in Hs as [Hall _].
  rewrite Forall_forall in Hall. by apply Hall.
Qed.

Lemma bfs_expand_spec (n0 : Node) (E' : gset Cell) (F : list Node)
    (rest : list (Cell * Action * Q)) :
  node_wf gs start n0 ->
  (forall q, replay gs start q = Some goal ->
             depth n0 + 1 <= Z.of_nat (length q)) ->
  (forall x, x ∈ rest -> x ∈ get_successors (state n0) gs) ->
  forall Fc,
    bfs_mid gs start goal n0 E' F Fc ->
    match bfs_expand goal n0 E' rest Fc with
    | inl p => shortest gs start goal p
    | inr F' =>
        bfs_mid gs start goal n0 E' F F'
        /\ (forall m, m ∈ Fc -> m ∈ F')
        /\ (forall s a c, (s, a, c) ∈ rest -> s ∈ E' \/ s ∈ state <$> F')
    end.
Proof.
  intros Hwf0 Hbound.
  induction rest as [| [[s a] c] rest IH]; intros Hsub Fc Hmid; cbn.
  { split; [done |]. split; [done |]. intros s a c Hin.
    by apply elem_of_nil in Hin. }
  assert (forall x, x ∈ rest -> x ∈ get_successors (state n0) gs) as Hsub'
    by (intros; apply Hsub; by right).
  assert (node_wf gs start
            (mkNode s (Some n0) (Some a) (cost n0 + c)%Q (depth n0 + 1)))
    as Hwfc by (apply node_wf_child; [done | apply Hsub; by left]).
  case_decide as Hnew.
  - destruct Hnew as [HnE HnF]. case_decide as Hg; cbn [state] in Hg.
    + split.
      * rewrite <- Hg. apply (wf_replay _ _ _ Hwfc).
      * intros q Hq. specialize (Hbound q Hq).
        pose proof (wf_depth _ _ _ Hwfc) as Hd. cbn in Hd. lia.
    + set (child := mkNode s (Some n0) (Some a) (cost n0 + c)%Q
                           (depth n0 + 1)) in *.
      assert (bfs_mid gs start goal n0 E' F (Fc ++ [child])) as Hmid'.
      { destruct Hmid as [Hwf Hsort Hband [Hnd Hni] Hgoal Hold]. split.
        - intros m [Hm | ->%list_elem_of_singleton]%elem_of_app; auto.
        - apply StronglySorted_app_2; [| done | repeat constructor].
          intros x1 x2 Hx1 ->%list_elem_of_singleton.
          unfold depth_le. cbn. specialize (Hband _ Hx1). lia.
        - intros m [Hm | ->%list_elem_of_singleton]%elem_of_app; [auto |].
          cbn. lia.
        - split.
          + rewrite fmap_app. apply NoDup_app. split; [done |]. split.
            * intros x Hx ->%list_elem_of_singleton. done.
            * cbn. apply NoDup_singleton.
          + intros m [Hm | ->%list_elem_of_singleton]%elem_of_app; auto.
        - rewrite fmap_app. intros [? | ->%list_elem_of_singleton]%elem_of_app;
            done.
        - intros m Hm. apply elem_of_app. left. auto. }
      specialize (IH Hsub' _ Hmid').
      destruct (bfs_expand goal n0 E' rest (Fc ++ [child])) as [p | F'];
        [done |].
      destruct IH as (Hm' & Hmono & Hcov). split; [done |]. split.
      * intros m Hm. apply Hmono, elem_of_app. by left.
      * intros s1 a1 c1 [Heq | Hin]%elem_of_cons; [| eauto].
        injection Heq as -> -> ->. right.
        apply (list_elem_of_fmap_2 state _ child), Hmono, elem_of_app.
        right. by apply list_elem_of_singleton.
  - specialize (IH Hsub' _ Hmid).
    destruct (bfs_expand goal n0 E' rest Fc) as [p | F']; [done |].
    destruct IH as (Hm' & Hmono & Hcov). split; [done |]. split; [done |].
    intros s1 a1 c1 [Heq | Hin]%elem_of_cons; [| eauto].
    injection Heq as -> -> ->.
    destruct (decide (s ∈ E')) as [? | HnE]; [by left |].
    destruct (decide (s ∈ state <$> Fc)) as [HF | HnF]; [| tauto].
    right. apply list_elem_of_fmap in HF as (m & -> & Hm).
    apply list_elem_of_fmap_2. auto.
Qed.

(** One turn of the [while] loop keeps the invariant, or returns a shortest
    path. *)
Lemma bfs_iteration (n0 : Node) (F : list Node) (E : gset Cell) :
  bfs_inv gs start goal (n0 :: F) E ->
  match bfs_expand goal n0 (E ∪ {[ state n0 ]})
          (get_successors (state n0) gs) F with
  | inl p => shortest gs start goal p
  | inr F' => bfs_inv gs start goal F' (E ∪ {[ state n0 ]})
  end.
Proof.
  intros Hinv.
  pose proof Hinv as [Hwf Hsort Hband [Hnd Hni] Hclosed Hstart [HgE HgF]].
  assert (forall m, m ∈ n0 :: F -> depth n0 <= depth m) as Hleast
    by (intros m; by apply bfs_head_least with E).
  assert (forall q, replay gs start q = Some goal ->
                    depth n0 + 1 <= Z.of_nat (length q)) as Hbound.
  { intros q Hq.
    destruct (bfs_reach _ _ q Hinv goal Hq)
      as [? | [(m & Hm & Hst & _) | (m & Hm & Hd)]]; [done | |].
    - destruct HgF. by eapply list_elem_of_fmap_2'.
    - specialize (Hleast m Hm). lia. }
  assert (forall q, replay gs start q = Some (state n0) ->
                    depth n0 <= Z.of_nat (length q)) as Hopt.
  { intros q Hq.
    destruct (bfs_reach _ _ q Hinv _ Hq)
      as [HE | [(m & Hm & _ & Hd) | (m & Hm & Hd)]].
    - destruct (Hni n0); [by left | done].
    - specialize (Hleast m Hm). lia.
    - specialize (Hleast m Hm). lia. }
  rewrite fmap_cons in Hnd, HgF. apply NoDup_cons in Hnd as [Hn0 Hnd].
  apply StronglySorted_cons in Hsort as [_ Hsort].
  assert (bfs_mid gs start goal n0 (E ∪ {[ state n0 ]}) F F) as Hmid.
  { split; [| done | | | | done].
    - intros m Hm. apply Hwf. by right.
    - intros m Hm. split; [apply Hleast; by right |].
      apply Hband; [by left | by right].
    - split; [done |]. intros m Hm.
      apply not_elem_of_union. split; [apply Hni; by right |].
      intros Heq%elem_of_singleton. apply Hn0. rewrite <- Heq.
      by apply list_elem_of_fmap_2.
    - intros HF. apply HgF. by right. }
  pose proof (bfs_expand_spec n0 _ F (get_successors (state n0) gs)
                ltac:(apply Hwf; by left) Hbound ltac:(done) F Hmid) as Hexp.
  destruct (bfs_expand _ _ _ _ _) as [p | F']; [done |].
  destruct Hexp as ([Hwf' Hsort' Hband' Hfresh' Hgoal' Hold'] & _ & Hcov).
  split; [done | done | | done | | |].
  - intros n m Hn Hm. pose proof (Hband' _ Hn). pose proof (Hband' _ Hm).
    lia.
  - intros s q a s' [HsE | ->%elem_of_singleton]%elem_of_union Hq Hstep.
    + destruct (Hclosed _ _ _ _ HsE Hq Hstep) as [? | (m & Hm & Hst & Hd)];
        [left; set_solver |].
      apply elem_of_cons in Hm as [-> | Hm]; [left; set_solver |].
      right. exists m. auto.
    + assert ((s', a, move_cost a) ∈ get_successors (state n0) gs) as Hin
        by by apply get_successors_spec.
      destruct (Hcov _ _ _ Hin) as [? | HF']; [by left |].
      apply list_elem_of_fmap in HF' as (m & -> & Hm).
      right. exists m. split; [done |]. split; [done |].
      specialize (Hband' _ Hm). specialize (Hopt q Hq). lia.
  - destruct Hstart as [? | (m & Hm & Hst & Hd)]; [left; set_solver |].
    apply elem_of_cons in Hm as [-> | Hm]; [left; set_solver |].
    right. exists m. auto.
  - split; [| done]. apply not_elem_of_union. split; [done |].
    intros ->%elem_of_singleton. apply HgF. by left.
Qed.

Lemma bfs_loop_spec (fuel : nat) :
  forall (F : list Node) (E : gset Cell) (r : Result) (E' : gset Cell),
    bfs_inv gs start goal F E ->
    bfs_loop fuel goal gs F E = Some (r, E') ->
    match r with
    | Found p => shortest gs start goal p
    | NoPath => forall q, replay gs start q <> Some goal
    | Cutoff => False
    end.
Proof.
  induction fuel as [| fuel IH]; intros F E r E' Hinv;
    destruct F as [| n0 F]; cbn; try done.
  - intros [= <- <-] q Hq.
    destruct (bfs_reach _ _ q Hinv goal Hq)
      as [HE | [(m & Hm & _) | (m & Hm & _)]].
    + by destruct (bi_goal _ _ _ _ _ Hinv).
    + by apply elem_of_nil in Hm.
    + by apply elem_of_nil in Hm.
  - intros [= <- <-] q Hq.
    destruct (bfs_reach _ _ q Hinv goal Hq)
      as [HE | [(m & Hm & _) | (m & Hm & _)]].
    + by destruct (bi_goal _ _ _ _ _ Hinv).
    + by apply elem_of_nil in Hm.
    + by apply elem_of_nil in Hm.
  - pose proof (bfs_iteration n0 F E Hinv) as Hit.
    destruct (bfs_expand _ _ _ _ _) as [p | F'].
    + by intros [= <- <-].
    + by apply IH.
Qed.

Lemma bfs_inv_init :
  start <> goal -> bfs_inv gs start goal [root_node start] ∅.
Proof.
  intros Hne. split.
  - intros m ->%list_elem_of_singleton. apply node_wf_root.
  - repeat constructor.
  - intros n m ->%list_elem_of_singleton ->%list_elem_of_singleton. lia.
  - split; [cbn; apply NoDup_singleton | set_solver].
  - set_solver.
  - right. exists (root_node start). split; [by left | done].
  - split; [set_solver |]. cbn. by intros ->%list_elem_of_singleton.
Qed.

(** What [bfs] returns, when it returns. *)
Lemma bfs_spec (fuel : nat) (r : Result) :
  bfs fuel start goal gs = Some r ->
  match r with
  | Found p => shortest gs start goal p
  | NoPath => forall q, replay gs start q <> Some goal
  | Cutoff => False
  end.
Proof.
  unfold bfs, bfs_run. case_decide as Heq.
  - intros [= <-]. subst goal. split; [done |]. intros q _. cbn. lia.
  - destruct (bfs_loop _ _ _ _ _) as [[r' E'] |] eqn:Hloop; [| done].
    cbn. intros [= <-].
    eapply bfs_loop_spec; [| exact Hloop]. by apply bfs_inv_init.
Qed.
End Bfs.

(** ** Termination of the frontier loops *)

Lemma elem_of_grid_cells gs s : s ∈ grid_cells gs <-> in_bounds gs s = true.
Proof.
  unfold grid_cells. rewrite elem_of_list_to_set, list_elem_of_bind,
    in_bounds_spec.
  split.
  - intros (r & (c & Hs & Hc%elem_of_seqZ)%list_elem_of_bind & Hr%elem_of_seqZ).
    apply list_elem_of_singleton in Hs as ->. cbn. lia.
  - intros [Hr Hc]. exists s.1. split; [| apply elem_of_seqZ; lia].
    apply list_elem_of_bind. exists s.2. split; [| apply elem_of_seqZ; lia].
    destruct s. by apply list_elem_of_singleton.
Qed.

Lemma successor_in_universe gs start s x :
  x ∈ get_successors s gs -> x.1.1 ∈ universe gs start.
Proof.
  destruct x as [[s' a] c]. intros [Hstep _]%get_successors_spec.
  unfold universe. cbn [fst]. apply elem_of_union. left.
  apply elem_of_grid_cells.
  by eapply step_cell_in_bounds.
Qed.

Lemma length_get_successors s gs : (length (get_successors s gs) <= 6)%nat.
Proof.
  destruct s as [row col]. unfold get_successors. cbn [flat_map actions].
  repeat match goal with
         | |- context [in_bounds gs ?x] => destruct (in_bounds gs x)
         end; cbn; lia.
Qed.

(** Exploring a state of the universe that was not explored yet leaves
    fewer unexplored states. *)
Lemma size_unexplored_lt (U E : gset Cell) (s : Cell) :
  s ∈ U -> s ∉ E -> (size (U ∖ (E ∪ {[ s ]})) < size (U ∖ E))%nat.
Proof.
  intros HU HE. apply subset_size. set_solver.
Qed.

Section BfsTermination.
Variables (gs : Grid) (goal : Cell) (U : gset Cell).

Lemma bfs_fresh_pop (n0 : Node) (F : list Node) (E : gset Cell) :
  bfs_fresh (n0 :: F) E -> bfs_fresh F (E ∪ {[ state n0 ]}).
Proof.
  intros [Hnd Hni]. rewrite fmap_cons in Hnd.
  apply NoDup_cons in Hnd as [Hn0 Hnd]. split; [done |].
  intros m Hm. apply not_elem_of_union. split; [apply Hni; by right |].
  intros Heq%elem_of_singleton. apply Hn0. rewrite <- Heq.
  by apply list_elem_of_fmap_2.
Qed.

Lemma bfs_expand_fresh (n0 : Node) (E' : gset Cell)
    (rest : list (Cell * Action * Q)) :
  (forall x, x ∈ rest -> x.1.1 ∈ U) ->
  forall Fc,
    bfs_fresh Fc E' -> (forall m, m ∈ Fc -> state m ∈ U) ->
    match bfs_expand goal n0 E' rest Fc with
    | inl _ => True
    | inr F' => bfs_fresh F' E' /\ (forall m, m ∈ F' -> state m ∈ U)
    end.
Proof.
  induction rest as [| [[s a] c] rest IH]; intros Hsub Fc Hfresh HU; cbn;
    [done |].
  assert (forall x, x ∈ rest -> x.1.1 ∈ U) as Hsub'
    by (intros; apply Hsub; by right).
  case_decide as Hnew; [| by apply IH].
  destruct Hnew as [HnE HnF]. case_decide as Hg; [done |].
  apply IH; [done | |].
  - destruct Hfresh as [Hnd Hni]. split.
    + rewrite fmap_app. apply NoDup_app. split; [done |]. split.
      * intros x Hx ->%list_elem_of_singleton. done.
      * cbn. apply NoDup_singleton.
    + intros m [Hm | ->%list_elem_of_singleton]%elem_of_app; auto.
  - intros m [Hm | ->%list_elem_of_singleton]%elem_of_app; [auto |].
    apply (Hsub (s, a, c)). by left.
Qed.

Lemma bfs_loop_terminates (fuel : nat) :
  forall (F : list Node) (E : gset Cell),
    (forall s x, x ∈ get_successors s gs -> x.1.1 ∈ U) ->
    bfs_fresh F E -> (forall m, m ∈ F -> state m ∈ U) ->
    (size (U ∖ E) < fuel)%nat ->
    is_Some (bfs_loop fuel goal gs F E).
Proof.
  induction fuel as [| fuel IH]; intros F E Hsucc Hfresh HU Hsize; [lia |].
  destruct F as [| n0 F]; cbn; [done |].
  pose proof (bfs_expand_fresh n0 (E ∪ {[ state n0 ]})
                (get_successors (state n0) gs) (Hsucc _) F
                (bfs_fresh_pop _ _ _ Hfresh)
                ltac:(intros; apply HU; by right)) as Hexp.
  destruct (bfs_expand _ _ _ _ _) as [p | F']; [done |].
  destruct Hexp as [Hfresh' HU'].
  apply IH; [done | done | done |].
  assert (size (U ∖ (E ∪ {[ state n0 ]})) < size (U ∖ E))%nat; [| lia].
  apply size_unexplored_lt; [apply HU; by left |].
  apply (bf_notin _ _ Hfresh). by left.
Qed.
End BfsTermination.

Lemma bfs_terminates gs start goal :
  exists fuel r, bfs fuel start goal gs = Some r.
Proof.
  exists (S (size (universe gs start))). unfold bfs, bfs_run.
  case_decide; [by eexists |].
  destruct (bfs_loop_terminates gs goal (universe gs start)
              (S (size (universe gs start))) [root_node start] ∅)
    as [[r E] Hr].
  - intros s x. apply successor_in_universe.
  - split; [cbn; apply NoDup_singleton | set_solver].
  - intros m ->%list_elem_of_singleton. cbn. unfold universe. set_solver.
  - assert (size (universe gs start ∖ ∅) <= size (universe gs start))%nat;
      [| lia].
    apply subseteq_size. set_solver.
  - exists r. by rewrite Hr.
Qed.

(** ** Depth-first search *)

Lemma elem_of_rev {A} (l : list A) (x : A) : x ∈ rev l <-> x ∈ l.
Proof. rewrite !list_elem_of_In. symmetry. apply in_rev. Qed.

Section Dfs.
Variables (gs : Grid) (start goal : Cell).

Lemma dfs_push_wf (node : Node) (E : gset Cell)
    (succs : list (Cell * Action * Q)) :
  node_wf gs start node ->
  (forall x, x ∈ succs -> x ∈ get_successors (state node) gs) ->
  forall F,
    (forall m, m ∈ F -> node_wf gs start m) ->
    forall m, m ∈ dfs_push node E succs F -> node_wf gs start m.
Proof.
  intros Hwf.
  induction succs as [| [[s a] c] rest IH]; intros Hsub F HF; cbn; [done |].
  assert (forall x, x ∈ rest -> x ∈ get_successors (state node) gs) as Hsub'
    by (intros; apply Hsub; by right).
  case_decide; [| by apply IH].
  apply IH; [done |].
  intros m [-> | Hm]%elem_of_cons; [| auto].
  apply node_wf_child; [done |]. apply Hsub. by left.
Qed.

Lemma dfs_loop_sound (fuel : nat) :
  forall (F : list Node) (E : gset Cell) (p : Path) (E' : gset Cell),
    (forall m, m ∈ F -> node_wf gs start m) ->
    dfs_loop fuel goal gs F E = Some (Found p, E') ->
    replay gs start p = Some goal.
Proof.
  induction fuel as [| fuel IH]; intros F E p E' HF;
    destruct F as [| n0 F]; cbn [dfs_loop]; try done.
  assert (node_wf gs start n0) as Hwf0 by (apply HF; by left).
  assert (forall m, m ∈ F -> node_wf gs start m) as HF'
    by (intros; apply HF; by right).
  case_decide as Hg.
  - intros [= <- <-]. rewrite <- Hg. apply Hwf0.
  - case_decide; [| by apply IH]. apply IH.
    apply dfs_push_wf; [done | | done].
    intros x Hx. by rewrite elem_of_rev in Hx.
Qed.

Lemma dfs_sound (fuel : nat) (p : Path) :
  dfs fuel start goal gs = Some (Found p) -> replay gs start p = Some goal.
Proof.
  unfold dfs, dfs_run.
  destruct (dfs_loop _ _ _ _ _) as [[r E'] |] eqn:Hloop; [| done].
  cbn. intros [= ->]. eapply dfs_loop_sound; [| exact Hloop].
  intros m ->%list_elem_of_singleton. apply node_wf_root.
Qed.

Lemma length_dfs_push (node : Node) (E : gset Cell)
    (succs : list (Cell * Action * Q)) :
  forall F, (length (dfs_push node E succs F) <= length succs + length F)%nat.
Proof.
  induction succs as [| [[s a] c] rest IH]; intros F; cbn; [lia |].
  case_decide; [| specialize (IH F); lia].
  specialize (IH (mkNode s (Some node) (Some a) (cost node + c)%Q
                         (depth node + 1) :: F)).
  cbn in IH. lia.
Qed.

Lemma dfs_push_universe (U : gset Cell) (node : Node) (E : gset Cell)
    (succs : list (Cell * Action * Q)) :
  (forall x, x ∈ succs -> x.1.1 ∈ U) ->
  forall F,
    (forall m, m ∈ F -> state m ∈ U) ->
    forall m, m ∈ dfs_push node E succs F -> state m ∈ U.
Proof.
  induction succs as [| [[s a] c] rest IH]; intros Hsub F HF; cbn; [done |].
  assert (forall x, x ∈ rest -> x.1.1 ∈ U) as Hsub'
    by (intros; apply Hsub; by right).
  case_decide; [| by apply IH].
  apply IH; [done |].
  intros m [-> | Hm]%elem_of_cons; [| auto].
  apply (Hsub (s, a, c)). by left.
Qed.

(** Each turn of the loop removes a node from the stack; it pushes at most
    six when it explores a new state. *)
Lemma dfs_loop_terminates (U : gset Cell) (fuel : nat) :
  forall (F : list Node) (E : gset Cell),
    (forall s x, x ∈ get_successors s gs -> x.1.1 ∈ U) ->
    (forall m, m ∈ F -> state m ∈ U) ->
    (7 * size (U ∖ E) + length F < fuel)%nat ->
    is_Some (dfs_loop fuel goal gs F E).
Proof.
  induction fuel as [| fuel IH]; intros F E Hsucc HU Hsize; [lia |].
  destruct F as [| n0 F]; cbn [dfs_loop]; [done |].
  case_decide as Hg; [done |].
  assert (forall m, m ∈ F -> state m ∈ U) as HU'
    by (intros; apply HU; by right).
  case_decide as Hnew.
  - apply IH; [done | |].
    + apply dfs_push_universe; [| done].
      intros x Hx. rewrite elem_of_rev in Hx. exact (Hsucc _ _ Hx).
    + pose proof (length_dfs_push n0 (E ∪ {[ state n0 ]})
                    (rev (get_successors (state n0) gs)) F) as Hlen.
      rewrite length_rev in Hlen.
      pose proof (length_get_successors (state n0) gs).
      pose proof (size_unexplored_lt U E (state n0)
                    ltac:(apply HU; by left) Hnew).
      cbn in Hsize. lia.
  - apply IH; [done | done |]. cbn in Hsize. lia.
Qed.

Lemma dfs_terminates : exists fuel r, dfs fuel start goal gs = Some r.
Proof.
  exists (7 * size (universe gs start) + 2)%nat. unfold dfs, dfs_run.
  destruct (dfs_loop_terminates (universe gs start)
              (7 * size (universe gs start) + 2) [root_node start] ∅)
    as [[r E] Hr].
  - intros s x. apply successor_in_universe.
  - intros m ->%list_elem_of_singleton. cbn. unfold universe. set_solver.
  - assert (size (universe gs start ∖ ∅) <= size (universe gs start))%nat
      by (apply subseteq_size; set_solver).
    cbn [length]. lia.
  - exists r. by rewrite Hr.
Qed.
End Dfs.

(** ** [heapq]: the heap invariant, and the items a heap holds *)

Lemma Qltb_lt x y : Qltb x y = true <-> (x < y)%Q.
Proof. unfold Qltb, Qlt. apply Z.ltb_lt. Qed.

Lemma node_lt_false a b : node_lt a b = false -> node_le b a.
Proof.
  unfold node_lt, node_le. intros H. apply Qnot_lt_le. intros Hlt.
  apply Qltb_lt in Hlt. congruence.
Qed.

Lemma node_lt_true a b : node_lt a b = true -> node_le a b.
Proof. unfold node_lt, node_le. intros H%Qltb_lt. by apply Qlt_le_weak. Qed.

Lemma node_le_trans a b c : node_le a b -> node_le b c -> node_le a c.
Proof. unfold node_le. apply Qle_trans. Qed.

Local Open Scope nat_scope.

Lemma half_pred_lt (i : nat) : 0 < i -> (i - 1) / 2 < i.
Proof. intros. apply Nat.Div0.div_lt_upper_bound; lia. Qed.

Lemma half_pred_child (c pos : nat) :
  0 < c -> ((c - 1) / 2 = pos <-> c = 2 * pos + 1 \/ c = 2 * pos + 2).
Proof.
  intros Hc. pose proof (Nat.div_mod_eq (c - 1) 2) as Hdm.
  pose proof (Nat.mod_upper_bound (c - 1) 2 ltac:(lia)). lia.
Qed.

Section Heap.
Implicit Types (h heap : list Node) (pos i : nat) (newitem : Node).

Lemma siftdown_loop_spec (fuel : nat) :
  forall heap newitem pos,
    pos <= fuel -> pos < length heap ->
    hole_heap heap pos -> fits_hole heap pos newitem ->
    exists h', siftdown_loop fuel heap newitem 0 pos = Some h'
               /\ h' ≡ₚ <[pos := newitem]> heap /\ is_heap h'.
Proof.
  induction fuel as [| fuel IH]; intros heap newitem pos Hfuel Hlen Hhole Hfit.
  - assert (pos = 0) as -> by lia. cbn. eexists. split; [done |].
    split; [done |]. intros i n p Hi Hn Hp.
    rewrite list_lookup_insert_ne in Hn by lia.
    destruct (decide ((i - 1) / 2 = 0)) as [Heq | Hne].
    + rewrite Heq, list_lookup_insert_eq in Hp by done.
      injection Hp as <-. by eapply Hfit.
    + rewrite list_lookup_insert_ne in Hp by done.
      eapply (hh_edges _ _ Hhole i); eauto; lia.
  - cbn [siftdown_loop]. case_decide as Hpos.
    2: { assert (pos = 0) as -> by lia. eexists. split; [done |].
         split; [done |]. intros i n p Hi Hn Hp.
         rewrite list_lookup_insert_ne in Hn by lia.
         destruct (decide ((i - 1) / 2 = 0)) as [Heq | Hne].
         + rewrite Heq, list_lookup_insert_eq in Hp by done.
           injection Hp as <-. by eapply Hfit.
         + rewrite list_lookup_insert_ne in Hp by done.
           eapply (hh_edges _ _ Hhole i); eauto; lia. }
    pose proof (half_pred_lt pos Hpos) as Hpar.
    destruct (lookup_lt_is_Some_2 heap ((pos - 1) / 2) ltac:(lia))
      as [parent Hparent].
    rewrite Hparent. cbn.
    destruct (node_lt newitem parent) eqn:Hlt.
    + (* the parent moves down into the hole *)
      destruct (IH (<[pos := parent]> heap) newitem ((pos - 1) / 2))
        as (h' & Hrun & Hperm & Hheap).
      * lia.
      * rewrite length_insert. lia.
      * split.
        -- intros i n p Hi Hne1 Hne2 Hn Hp.
           destruct (decide (i = pos)) as [-> | Hipos]; [done |].
           rewrite list_lookup_insert_ne in Hn by done.
           destruct (decide ((i - 1) / 2 = pos)) as [Heq | Hne3].
           ++ rewrite Heq, list_lookup_insert_eq in Hp by done.
              injection Hp as <-.
              eapply (hh_skip _ _ Hhole i); eauto.
           ++ rewrite list_lookup_insert_ne in Hp by done.
              eapply (hh_edges _ _ Hhole i); eauto.
        -- intros c n p Hc Hpos' Hcpar Hn Hp.
           pose proof (half_pred_lt _ Hpos') as Hgp.
           rewrite list_lookup_insert_ne in Hp by lia.
           assert (node_le p parent) as Hpp.
           { eapply (hh_edges _ _ Hhole ((pos - 1) / 2)); eauto; lia. }
           destruct (decide (c = pos)) as [-> | Hcpos].
           ++ rewrite list_lookup_insert_eq in Hn by done.
              by injection Hn as <-.
           ++ rewrite list_lookup_insert_ne in Hn by done.
              eapply node_le_trans; [exact Hpp |].
              eapply (hh_edges _ _ Hhole c n parent);
                [lia | done | lia | done | by rewrite Hcpar].
      * intros c n Hc Hcpar Hn.
        destruct (decide (c = pos)) as [-> | Hcpos].
        -- rewrite list_lookup_insert_eq in Hn by done.
           injection Hn as <-. by apply node_lt_true.
        -- rewrite list_lookup_insert_ne in Hn by done.
           eapply node_le_trans; [by apply node_lt_true |].
           eapply (hh_edges _ _ Hhole c n parent);
             [lia | done | lia | done | by rewrite Hcpar].
      * exists h'. split; [done |]. split; [| done].
        rewrite Hperm.
        rewrite <- (list_insert_insert_eq heap pos parent newitem).
        apply Permutation_insert_swap.
        -- by apply list_lookup_insert_eq.
        -- rewrite list_lookup_insert_ne by lia. done.
    + (* the new item stays at [pos] *)
      eexists. split; [done |]. split; [done |].
      apply node_lt_false in Hlt.
      intros i n p Hi Hn Hp.
      destruct (decide (i = pos)) as [-> | Hipos].
      * rewrite list_lookup_insert_eq in Hn by done. injection Hn as <-.
        rewrite list_lookup_insert_ne in Hp by lia. congruence.
      * rewrite list_lookup_insert_ne in Hn by done.
        destruct (decide ((i - 1) / 2 = pos)) as [Heq | Hne].
        -- rewrite Heq, list_lookup_insert_eq in Hp by done.
           injection Hp as <-. by eapply Hfit.
        -- rewrite list_lookup_insert_ne in Hp by done.
           eapply (hh_edges _ _ Hhole i); eauto.
Qed.

Lemma smaller_child_spec heap pos :
  2 * pos + 1 < length heap ->
  exists (c : nat) cn,
    smaller_child heap (length heap) (2 * pos + 1) = Some c
    /\ heap !! c = Some cn /\ 0 < c /\ (c - 1) / 2 = pos
    /\ forall (i : nat) n, 0 < i -> (i - 1) / 2 = pos -> heap !! i = Some n ->
                           node_le cn n.
Proof.
  intros Hlen. unfold smaller_child.
  destruct (lookup_lt_is_Some_2 heap (2 * pos + 1) Hlen) as [l Hl].
  case_decide as Hright.
  - destruct (lookup_lt_is_Some_2 heap (2 * pos + 1 + 1) Hright) as [r Hr].
    rewrite Hl, Hr. cbn.
    destruct (node_lt l r) eqn:Hlt; cbn.
    + exists (2 * pos + 1), l. repeat split; [done | lia | |].
      * apply half_pred_child; lia.
      * intros i n Hi [-> | ->]%half_pred_child Hn; [| | done].
        -- rewrite Hl in Hn. injection Hn as <-. unfold node_le. lra.
        -- replace (2 * pos + 2) with (2 * pos + 1 + 1) in Hn by lia.
           rewrite Hr in Hn. injection Hn as <-. by apply node_lt_true.
    + exists (2 * pos + 1 + 1), r. repeat split; [done | lia | |].
      * apply half_pred_child; lia.
      * intros i n Hi [-> | ->]%half_pred_child Hn; [| | done].
        -- rewrite Hl in Hn. injection Hn as <-. by apply node_lt_false.
        -- replace (2 * pos + 2) with (2 * pos + 1 + 1) in Hn by lia.
           rewrite Hr in Hn. injection Hn as <-. unfold node_le. lra.
  - exists (2 * pos + 1), l. repeat split; [done | lia | |].
    + apply half_pred_child; lia.
    + intros i n Hi [-> | ->]%half_pred_child Hn; [| | done].
      * rewrite Hl in Hn. injection Hn as <-. unfold node_le. lra.
      * apply lookup_lt_Some in Hn. lia.
Qed.

Lemma siftup_loop_spec (fuel : nat) :
  forall heap pos,
    length heap <= fuel + pos -> pos < length heap ->
    hole_heap heap pos ->
    exists h' (pos' : nat),
      siftup_loop fuel heap (length heap) pos = Some (h', pos')
      /\ length h' = length heap /\ pos' < length heap
      /\ hole_heap h' pos' /\ length heap <= 2 * pos' + 1
      /\ forall x, <[pos' := x]> h' ≡ₚ <[pos := x]> heap.
Proof.
  induction fuel as [| fuel IH]; intros heap pos Hfuel Hlen Hhole;
    cbn [siftup_loop]; case_decide as Hchild; try lia;
    try (exists heap, pos; do 3 (split; [done |]); split; [done |];
         split; [lia | done]).
  destruct (smaller_child_spec heap pos Hchild)
    as (c & cn & -> & Hc & Hc0 & Hcpar & Hmin).
  cbn. rewrite Hc. cbn.
  pose proof (lookup_lt_Some _ _ _ Hc) as Hclen.
  apply half_pred_child in Hcpar as Hc2; [| done].
  destruct (IH (<[pos := cn]> heap) c) as (h' & pos' & Hrun & IHrest).
  - rewrite length_insert. lia.
  - by rewrite length_insert.
  - split.
    + intros i n p Hi Hne1 Hne2 Hn Hp.
      destruct (decide (i = pos)) as [-> | Hipos].
      * rewrite list_lookup_insert_eq in Hn by done. injection Hn as <-.
        pose proof (half_pred_lt pos Hi).
        rewrite list_lookup_insert_ne in Hp by lia.
        eapply (hh_skip _ _ Hhole c); eauto.
      * rewrite list_lookup_insert_ne in Hn by done.
        destruct (decide ((i - 1) / 2 = pos)) as [Heq | Hne3].
        -- rewrite Heq, list_lookup_insert_eq in Hp by done.
           injection Hp as <-. by eapply Hmin.
        -- rewrite list_lookup_insert_ne in Hp by done.
           eapply (hh_edges _ _ Hhole i); eauto.
    + intros g n p Hg _ Hgpar Hn Hp.
      rewrite Hcpar, list_lookup_insert_eq in Hp by done.
      injection Hp as <-.
      apply half_pred_child in Hgpar as Hg2; [| done].
      rewrite list_lookup_insert_ne in Hn by lia.
      eapply (hh_edges _ _ Hhole g n cn); [done | lia | lia | done |].
      by rewrite Hgpar.
  - rewrite length_insert in Hrun, IHrest.
    destruct IHrest as (Hl' & Hpos' & Hhole' & Hleaf & Hperm).
    exists h', pos'. do 5 (split; [done |]). intros x.
    rewrite Hperm.
    rewrite <- (list_insert_insert_eq heap pos cn x).
    apply Permutation_insert_swap.
    + by apply list_lookup_insert_eq.
    + rewrite list_lookup_insert_ne by lia. done.
Qed.

Lemma node_le_refl n : node_le n n.
Proof. unfold node_le. apply Qle_refl. Qed.

(** The root of a heap is a least item. *)
Lemma is_heap_root h r :
  is_heap h -> h !! 0 = Some r -> forall m, m ∈ h -> node_le r m.
Proof.
  intros Hheap Hr m [i Hi]%list_elem_of_lookup. revert m Hi.
  induction i as [i IH] using lt_wf_ind. intros m Hi.
  destruct (decide (i = 0)) as [-> | Hne].
  - rewrite Hr in Hi. injection Hi as <-. apply node_le_refl.
  - pose proof (half_pred_lt i ltac:(lia)) as Hpar.
    pose proof (lookup_lt_Some _ _ _ Hi) as Hlen.
    destruct (lookup_lt_is_Some_2 h ((i - 1) / 2) ltac:(lia)) as [p Hp].
    eapply node_le_trans; [by apply (IH _ Hpar) |].
    eapply (Hheap i); eauto. lia.
Qed.

Lemma heappush_spec h x :
  is_heap h ->
  exists h', heappush h x = Some h' /\ h' ≡ₚ x :: h /\ is_heap h'.
Proof.
  intros Hheap. unfold heappush, siftdown.
  rewrite length_app. cbn [length].
  replace (length h + 1 - 1) with (length h) by lia.
  rewrite lookup_app_r, Nat.sub_diag by lia. cbn.
  destruct (siftdown_loop_spec (length h) (h ++ [x]) x (length h))
    as (h' & Hrun & Hperm & Hheap').
  - lia.
  - rewrite length_app. cbn. lia.
  - split.
    + intros i n p Hi Hne1 Hne2 Hn Hp.
      pose proof (lookup_lt_Some _ _ _ Hn) as Hlen.
      rewrite length_app in Hlen. cbn in Hlen.
      pose proof (half_pred_lt i Hi).
      rewrite lookup_app_l in Hn, Hp by lia. by eapply (Hheap i).
    + intros c n p Hc Hpos Hcpar Hn Hp.
      apply lookup_lt_Some in Hn. rewrite length_app in Hn. cbn in Hn.
      apply half_pred_child in Hcpar; lia.
  - intros c n Hc Hcpar Hn.
    apply lookup_lt_Some in Hn. rewrite length_app in Hn. cbn in Hn.
    apply half_pred_child in Hcpar; lia.
  - exists h'. split; [done |]. split; [| done].
    rewrite Hperm, list_insert_id by (rewrite lookup_app_r, Nat.sub_diag; done).
    by rewrite Permutation_app_comm.
Qed.

Lemma heappop_spec h :
  is_heap h -> h <> [] ->
  exists x h', heappop h = Some (x, h') /\ h ≡ₚ x :: h' /\ is_heap h'
               /\ forall m, m ∈ h -> node_le x m.
Proof.
  intros Hheap Hne. unfold heappop.
  destruct (last h) as [lastelt |] eqn:Hlast;
    [| by apply last_is_Some in Hne as [? ?]; congruence].
  apply last_Some in Hlast as [h0 ->]. cbn.
  rewrite removelast_last.
  destruct h0 as [| ret t].
  - exists lastelt, []. split; [done |]. split; [done |]. split.
    + intros i n p _ Hn. by rewrite lookup_nil in Hn.
    + intros m ->%list_elem_of_singleton. apply node_le_refl.
  - assert (forall m, m ∈ (ret :: t) ++ [lastelt] -> node_le ret m) as Hmin
      by (by apply is_heap_root).
    cbn [insert list_insert]. unfold siftup.
    cbn [lookup list_lookup]. cbn [mbind option_bind].
    set (h1 := lastelt :: t).
    assert (hole_heap h1 0) as Hhole1.
    { split; [| intros; lia].
      intros i n p Hi _ Hne2 Hn Hp.
      pose proof (lookup_lt_Some _ _ _ Hn) as Hlen.
      pose proof (half_pred_lt i Hi).
      destruct i as [| i]; [lia |].
      destruct ((S i - 1) / 2) as [| j] eqn:Hj; [done |].
      cbn in Hn, Hp.
      eapply (Hheap (S i)); [lia | |].
      - cbn. by apply lookup_app_l_Some.
      - rewrite Hj. cbn. by apply lookup_app_l_Some. }
    destruct (siftup_loop_spec (length h1) h1 0)
      as (h2 & pos2 & Hrun & Hlen2 & Hpos2 & Hhole2 & Hleaf & Hperm);
      [lia | cbn; lia | done |].
    rewrite Hrun. cbn [mbind option_bind]. unfold siftdown.
    rewrite list_lookup_insert_eq by lia. cbn [mbind option_bind].
    destruct (siftdown_loop_spec pos2 (<[pos2 := lastelt]> h2) lastelt pos2)
      as (h4 & Hrun4 & Hperm4 & Hheap4).
    + lia.
    + rewrite length_insert. lia.
    + split.
      * intros i n p Hi Hne1 Hne2 Hn Hp.
        rewrite list_lookup_insert_ne in Hn, Hp by done.
        by eapply (hh_edges _ _ Hhole2 i).
      * intros c n p Hc _ Hcpar Hn _.
        apply lookup_lt_Some in Hn. rewrite length_insert in Hn.
        apply half_pred_child in Hcpar; lia.
    + intros c n Hc Hcpar Hn.
      apply lookup_lt_Some in Hn. rewrite length_insert in Hn.
      apply half_pred_child in Hcpar; lia.
    + rewrite Hrun4. cbn. exists ret, h4. split; [done |].
      rewrite list_insert_insert_eq in Hperm4.
      split; [| done].
      rewrite Hperm4, Hperm. cbn.
      by rewrite <- Permutation_cons_append.
Qed.
End Heap.

Local Close Scope nat_scope.

(** ** Uniform-cost search finds a cheapest path *)

Lemma ucs_children_cons (node : Node) (E : gset Cell) s a c
    (rest : list (Cell * Action * Q)) :
  ucs_children node E ((s, a, c) :: rest)
  = if decide (s ∉ E)
    then mkNode s (Some node) (Some a) (cost node + c)%Q (depth node + 1)
         :: ucs_children node E rest
    else ucs_children node E rest.
Proof.
  unfold ucs_children. rewrite filter_cons. cbn [fst snd].
  by case_decide.
Qed.

Lemma ucs_push_spec (node : Node) (E : gset Cell)
    (succs : list (Cell * Action * Q)) :
  forall F,
    is_heap F ->
    exists F', ucs_push node E succs F = Some F'
               /\ F' ≡ₚ ucs_children node E succs ++ F /\ is_heap F'.
Proof.
  induction succs as [| [[s a] c] rest IH]; intros F Hheap.
  - exists F. done.
  - rewrite ucs_children_cons. cbn [ucs_push]. case_decide as Hnew.
    + destruct (heappush_spec F
                  (mkNode s (Some node) (Some a) (cost node + c)%Q
                          (depth node + 1)) Hheap)
        as (F1 & -> & Hperm1 & Hheap1).
      cbn [mbind option_bind].
      destruct (IH F1 Hheap1) as (F' & -> & Hperm & Hheap').
      exists F'. split; [done |]. split; [| done].
      rewrite Hperm, Hperm1. symmetry. apply Permutation_middle.
    + destruct (IH F Hheap) as (F' & -> & Hperm & Hheap').
      exists F'. done.
Qed.

Lemma elem_of_ucs_children (node : Node) (E : gset Cell)
    (succs : list (Cell * Action * Q)) (m : Node) :
  m ∈ ucs_children node E succs <->
  exists s a c, (s, a, c) ∈ succs /\ (s ∉ E)
                /\ m = mkNode s (Some node) (Some a) (cost node + c)%Q
                              (depth node + 1).
Proof.
  unfold ucs_children. rewrite list_elem_of_fmap. split.
  - intros ([[s a] c] & -> & [Hnew Hin]%list_elem_of_filter).
    exists s, a, c. done.
  - intros (s & a & c & Hin & Hnew & ->). exists (s, a, c).
    split; [done |]. by apply list_elem_of_filter.
Qed.

Lemma length_ucs_children (node : Node) (E : gset Cell)
    (succs : list (Cell * Action * Q)) :
  (length (ucs_children node E succs) <= length succs)%nat.
Proof. unfold ucs_children. rewrite length_fmap. apply length_filter. Qed.

Section Ucs.
Variables (gs : Grid) (start goal : Cell).

(** Every path from [start] ends in an explored state or costs at least as
    much as some node of the frontier. *)
Lemma ucs_reach (H : list Node) (E : gset Cell) (q : Path) :
  ucs_inv gs start goal H E ->
  forall t, replay gs start q = Some t ->
    t ∈ E \/ exists m, m ∈ H /\ (cost m <= path_cost q)%Q.
Proof.
  intros Hinv. induction q as [| x q IH] using rev_ind; intros t.
  - cbn. intros [= <-].
    destruct (ui_start _ _ _ _ _ Hinv) as [? | (m & ? & ? & ?)];
      [by left | right; eauto].
  - rewrite replay_app.
    destruct (replay gs start q) as [t' |] eqn:Hq; [| done]. cbn.
    destruct x as [a |]; [| done].
    destruct (step_cell gs t' a) as [t'' |] eqn:Hstep; [| done].
    intros [= ->].
    assert (path_cost (q ++ [Some a]) == path_cost q + move_cost a)%Q as Hc
      by (rewrite path_cost_app; cbn; ring).
    destruct (IH t' eq_refl) as [HE | (m & Hm & Hd)].
    + destruct (ui_closed _ _ _ _ _ Hinv _ _ _ _ HE Hq Hstep)
        as [? | (m & ? & ? & ?)]; [by left |].
      right. exists m. split; [done |]. by rewrite Hc.
    + right. exists m. split; [done |]. rewrite Hc.
      pose proof (move_cost_nonneg a). lra.
Qed.

(** A node popped as least of the frontier is no dearer than any path to a
    state that is not explored. *)
Lemma ucs_pop_least (H H' : list Node) (E : gset Cell) (x : Node)
    (q : Path) (t : Cell) :
  ucs_inv gs start goal H E ->
  (forall m, m ∈ H -> node_le x m) ->
  replay gs start q = Some t -> t ∉ E ->
  (cost x <= path_cost q)%Q.
Proof.
  intros Hinv Hmin Hq Ht.
  destruct (ucs_reach H E q Hinv t Hq) as [? | (m & Hm & Hd)]; [done |].
  specialize (Hmin m Hm). unfold node_le in Hmin. lra.
Qed.

(** One turn of the [while] loop. *)
Lemma ucs_iteration (H H' : list Node) (E : gset Cell) (x : Node) :
  ucs_inv gs start goal H E ->
  H ≡ₚ x :: H' -> is_heap H' -> (forall m, m ∈ H -> node_le x m) ->
  (state x = goal -> cheapest gs start goal (reconstruct_path x))
  /\ (state x <> goal -> state x ∈ E -> ucs_inv gs start goal H' E)
  /\ (state x <> goal -> state x ∉ E ->
      forall H'',
        H'' ≡ₚ ucs_children x (E ∪ {[ state x ]})
                 (get_successors (state x) gs) ++ H' ->
        is_heap H'' ->
        ucs_inv gs start goal H'' (E ∪ {[ state x ]})).
Proof.
  intros Hinv Hperm Hheap' Hmin.
  pose proof Hinv as [Hheap Hwf Hclosed Hstart Hgoal].
  assert (x ∈ H) as HxH by (rewrite Hperm; by left).
  assert (forall m, m ∈ H -> m = x \/ m ∈ H') as Hsplit.
  { intros m Hm. rewrite Hperm in Hm. by apply elem_of_cons in Hm. }
  assert (forall m, m ∈ H' -> m ∈ H) as Hsub.
  { intros m Hm. rewrite Hperm. by right. }
  pose proof (Hwf x HxH) as Hwfx.
  split; [| split].
  - intros Hg. split.
    + rewrite <- Hg. apply Hwfx.
    + intros q Hq. rewrite <- (wf_cost _ _ _ Hwfx).
      by eapply (ucs_pop_least H H' E x q goal).
  - intros Hng HxE. split; [done | auto | | | done].
    + intros s q a s' HsE Hq Hstep.
      destruct (Hclosed _ _ _ _ HsE Hq Hstep) as [? | (m & Hm & Hst & Hd)];
        [by left |].
      destruct (Hsplit m Hm) as [-> | Hm']; [left; by rewrite <- Hst |].
      right. eauto.
    + destruct Hstart as [? | (m & Hm & Hst & Hd)]; [by left |].
      destruct (Hsplit m Hm) as [-> | Hm']; [left; by rewrite <- Hst |].
      right. eauto.
  - intros Hng HxE H'' Hperm'' Hheap''.
    assert (forall m, m ∈ H' -> m ∈ H'') as Hsub''.
    { intros m Hm. rewrite Hperm''. apply elem_of_app. by right. }
    split; [done | | | |].
    + intros m Hm. rewrite Hperm'' in Hm.
      apply elem_of_app in Hm as [Hm | Hm]; [| auto].
      apply elem_of_ucs_children in Hm as (s & a & c & Hin & _ & ->).
      by apply node_wf_child.
    + intros s q a s' [HsE | ->%elem_of_singleton]%elem_of_union Hq Hstep.
      * destruct (Hclosed _ _ _ _ HsE Hq Hstep)
          as [? | (m & Hm & Hst & Hd)]; [left; set_solver |].
        destruct (Hsplit m Hm) as [-> | Hm']; [left; set_solver |].
        right. eauto.
      * destruct (decide (s' ∈ E ∪ {[ state x ]})) as [? | Hnew];
          [by left |].
        right.
        exists (mkNode s' (Some x) (Some a) (cost x + move_cost a)%Q
                       (depth x + 1)).
        split; [| split; [done |]].
        -- rewrite Hperm''. apply elem_of_app. left.
           apply elem_of_ucs_children. exists s', a, (move_cost a).
           split; [by apply get_successors_spec | done].
        -- cbn [cost].
           pose proof (ucs_pop_least H H' E x q (state x) Hinv Hmin Hq HxE).
           lra.
    + destruct Hstart as [? | (m & Hm & Hst & Hd)]; [left; set_solver |].
      destruct (Hsplit m Hm) as [-> | Hm']; [left; set_solver |].
      right. eauto.
    + set_solver.
Qed.

Lemma ucs_loop_spec (fuel : nat) :
  forall (H : list Node) (E : gset Cell) (r : Result) (E' : gset Cell),
    ucs_inv gs start goal H E ->
    ucs_loop fuel goal gs H E = Some (r, E') ->
    match r with
    | Found p => cheapest gs start goal p
    | NoPath => forall q, replay gs start q <> Some goal
    | Cutoff => False
    end.
Proof.
  assert (forall E q, ucs_inv gs start goal [] E ->
                      replay gs start q <> Some goal) as Hempty.
  { intros E q Hinv Hq.
    destruct (ucs_reach _ _ q Hinv goal Hq) as [HE | (m & Hm & _)].
    - by apply (ui_goal _ _ _ _ _ Hinv).
    - by apply elem_of_nil in Hm. }
  induction fuel as [| fuel IH]; intros H E r E' Hinv;
    destruct H as [| n H]; cbn [ucs_loop]; try done.
  - intros [= <- <-] q. by eapply Hempty.
  - intros [= <- <-] q. by eapply Hempty.
  - destruct (heappop_spec (n :: H) (ui_heap _ _ _ _ _ Hinv) ltac:(done))
      as (x & H' & -> & Hperm & Hheap' & Hmin).
    cbn [mbind option_bind].
    destruct (ucs_iteration (n :: H) H' E x Hinv Hperm Hheap' Hmin)
      as (Hfound & Hold & Hnew).
    case_decide as Hg; [intros [= <- <-]; auto |].
    case_decide as HxE.
    + destruct (ucs_push_spec x (E ∪ {[ state x ]})
                  (get_successors (state x) gs) H' Hheap')
        as (H'' & -> & Hperm'' & Hheap'').
      cbn [mbind option_bind]. apply IH. by apply Hnew.
    + apply IH. apply Hold; [done |].
      by destruct (decide (state x ∈ E)).
Qed.

Lemma ucs_spec (fuel : nat) (r : Result) :
  ucs fuel start goal gs = Some r ->
  match r with
  | Found p => cheapest gs start goal p
  | NoPath => forall q, replay gs start q <> Some goal
  | Cutoff => False
  end.
Proof.
  unfold ucs, ucs_run.
  destruct (heappush_spec [] (root_node start)) as (h0 & -> & Hperm & Hheap0).
  { intros i n p _ Hn. by rewrite lookup_nil in Hn. }
  cbn [mbind option_bind].
  destruct (ucs_loop _ _ _ _ _) as [[r' E'] |] eqn:Hloop; [| done].
  cbn. intros [= <-]. eapply ucs_loop_spec; [| exact Hloop].
  assert (forall m, m ∈ h0 -> m = root_node start) as Hroot.
  { intros m Hm. rewrite Hperm in Hm. by apply list_elem_of_singleton in Hm. }
  split; [done | | | | set_solver].
  - intros m ->%Hroot. apply node_wf_root.
  - set_solver.
  - right. exists (root_node start). split; [| split; [done | cbn; lra]].
    rewrite Hperm. by left.
Qed.

Lemma ucs_loop_terminates (U : gset Cell) (fuel : nat) :
  forall (H : list Node) (E : gset Cell),
    (forall s x, x ∈ get_successors s gs -> x.1.1 ∈ U) ->
    is_heap H -> (forall m, m ∈ H -> state m ∈ U) ->
    (7 * size (U ∖ E) + length H < fuel)%nat ->
    is_Some (ucs_loop fuel goal gs H E).
Proof.
  induction fuel as [| fuel IH]; intros H E Hsucc Hheap HU Hsize; [lia |].
  destruct H as [| n H]; cbn [ucs_loop]; [done |].
  destruct (heappop_spec (n :: H) Hheap ltac:(done))
    as (x & H' & -> & Hperm & Hheap' & Hmin).
  cbn [mbind option_bind].
  pose proof (Permutation_length Hperm) as Hlen. cbn [length] in Hlen.
  assert (state x ∈ U) as HxU by (apply HU; rewrite Hperm; by left).
  assert (forall m, m ∈ H' -> state m ∈ U) as HU'
    by (intros m Hm; apply HU; rewrite Hperm; by right).
  case_decide as Hg; [done |].
  case_decide as HxE.
  - destruct (ucs_push_spec x (E ∪ {[ state x ]})
                (get_successors (state x) gs) H' Hheap')
      as (H'' & -> & Hperm'' & Hheap'').
    cbn [mbind option_bind]. apply IH; [done | done | |].
    + intros m Hm. rewrite Hperm'' in Hm.
      apply elem_of_app in Hm as [Hm | Hm]; [| auto].
      apply elem_of_ucs_children in Hm as (s & a & c & Hin & _ & ->).
      apply (Hsucc _ _ Hin).
    + pose proof (Permutation_length Hperm'') as Hlen''.
      rewrite length_app in Hlen''.
      pose proof (length_ucs_children x (E ∪ {[ state x ]})
                    (get_successors (state x) gs)).
      pose proof (length_get_successors (state x) gs).
      pose proof (size_unexplored_lt U E (state x) HxU HxE).
      cbn [length] in Hsize. lia.
  - apply IH; [done | done | done |]. cbn [length] in Hsize. lia.
Qed.

Lemma ucs_terminates : exists fuel r, ucs fuel start goal gs = Some r.
Proof.
  exists (7 * size (universe gs start) + 2)%nat. unfold ucs, ucs_run.
  destruct (heappush_spec [] (root_node start)) as (h0 & -> & Hperm & Hheap0).
  { intros i n p _ Hn. by rewrite lookup_nil in Hn. }
  cbn [mbind option_bind].
  destruct (ucs_loop_terminates (universe gs start)
              (7 * size (universe gs start) + 2) h0 ∅)
    as [[r E] Hr].
  - intros s x. apply successor_in_universe.
  - done.
  - intros m Hm. rewrite Hperm in Hm.
    apply list_elem_of_singleton in Hm as ->. cbn. unfold universe.
    set_solver.
  - assert (size (universe gs start ∖ ∅) <= size (universe gs start))%nat
      by (apply subseteq_size; set_solver).
    apply Permutation_length in Hperm. cbn [length] in Hperm. lia.
  - exists r. by rewrite Hr.
Qed.
End Ucs.

(** ** Bidirectional search *)

Lemma inverse_move_back gs s a s' :
  in_bounds gs s = true -> step_cell gs s a = Some s' ->
  exists b, get_inverse_action (Some a) = Some b
            /\ step_cell gs s' b = Some s.
Proof.
  intros Hs. unfold step_cell.
  destruct (in_bounds gs (move_to s a)) eqn:Hb; [| done].
  intros [= <-].
  assert (forall b, move_to (move_to s a) b = s ->
                    (if in_bounds gs (move_to (move_to s a) b)
                     then Some (move_to (move_to s a) b) else None) = Some s)
    as Hback by (intros b ->; by rewrite Hs).
  destruct s as [r c].
  destruct a; cbn [get_inverse_action]; eexists; (split; [done |]);
    apply Hback; unfold move_to; cbn; f_equal; lia.
Qed.

Section Bidirectional.
Variables (gs : Grid) (start goal : Cell).

Lemma bidi_expand_inv (P : Node -> Prop) (other : gmap Cell Node)
    (node : Node) (succs : list (Cell * Action * Q)) :
  (forall s a c, (s, a, c) ∈ succs ->
                 P (mkNode s (Some node) (Some a) (cost node + c)%Q 0)) ->
  forall (F : list Node) (E : gmap Cell Node),
    (forall m, m ∈ F -> P m) -> explored_ok P E ->
    match bidi_expand other node succs F E with
    | inl (child, met) => P child /\ other !! state child = Some met
    | inr (F', E') => (forall m, m ∈ F' -> P m) /\ explored_ok P E'
    end.
Proof.
  induction succs as [| [[s a] c] rest IH]; intros Hchild F E HF HE;
    cbn [bidi_expand]; [done |].
  assert (forall s a c, (s, a, c) ∈ rest ->
            P (mkNode s (Some node) (Some a) (cost node + c)%Q 0)) as Hchild'
    by (intros; apply Hchild; by right).
  destruct (E !! s) as [m |] eqn:HEs; [by apply IH |].
  assert (P (mkNode s (Some node) (Some a) (cost node + c)%Q 0)) as HPc
    by (apply Hchild; by left).
  destruct (other !! s) as [met |] eqn:Hmet; [done |].
  apply IH; [done | |].
  - intros m [Hm | ->%list_elem_of_singleton]%elem_of_app; auto.
  - intros s' m. rewrite lookup_insert. case_decide as Heq.
    + intros [= <-]. by subst s'.
    + apply HE.
Qed.

Lemma forward_ok_child (node : Node) s a c :
  forward_ok gs start node ->
  (s, a, c) ∈ get_successors (state node) gs ->
  forward_ok gs start (mkNode s (Some node) (Some a) (cost node + c)%Q 0).
Proof.
  unfold forward_ok. intros Hn [Hstep _]%get_successors_spec.
  rewrite reconstruct_path_child. by eapply replay_snoc.
Qed.

Lemma backward_ok_child (node : Node) s a c :
  backward_ok gs goal node ->
  (s, a, c) ∈ get_successors (state node) gs ->
  backward_ok gs goal (mkNode s (Some node) (Some a) (cost node + c)%Q 0).
Proof.
  intros [Hb Hn] [Hstep _]%get_successors_spec. split.
  - by eapply step_cell_in_bounds.
  - destruct (inverse_move_back gs _ _ _ Hb Hstep) as (b & Hinv & Hback).
    unfold backward_path. cbn [walk_actions parent action state fmap list_fmap].
    rewrite Hinv. cbn [replay]. rewrite Hback. exact Hn.
Qed.

Lemma bidi_loop_sound (fuel : nat) :
  forall (ff : list Node) (fe : gmap Cell Node)
         (bf : list Node) (be : gmap Cell Node) f_node b_node,
    (forall m, m ∈ ff -> forward_ok gs start m) ->
    explored_ok (forward_ok gs start) fe ->
    (forall m, m ∈ bf -> backward_ok gs goal m) ->
    explored_ok (backward_ok gs goal) be ->
    bidi_loop fuel gs ff fe bf be = Some (Some (f_node, b_node)) ->
    forward_ok gs start f_node /\ backward_ok gs goal b_node
    /\ state f_node = state b_node.
Proof.
  induction fuel as [| fuel IH]; intros ff fe bf be f_node b_node Hff Hfe Hbf Hbe;
    destruct ff as [| fn ff]; destruct bf as [| bn bf]; cbn [bidi_loop];
    try done.
  pose proof (bidi_expand_inv (forward_ok gs start) be fn
                (get_successors (state fn) gs)
                ltac:(intros; apply forward_ok_child; [apply Hff; by left | done])
                ff fe ltac:(intros; apply Hff; by right) Hfe) as Hf.
  destruct (bidi_expand be fn _ ff fe) as [[child met] | [ff2 fe2]].
  - intros [= <- <-]. destruct Hf as [Hc Hmet].
    destruct (Hbe _ _ Hmet) as [Hst Hb]. done.
  - destruct Hf as [Hff2 Hfe2].
    pose proof (bidi_expand_inv (backward_ok gs goal) fe2 bn
                  (get_successors (state bn) gs)
                  ltac:(intros; apply backward_ok_child;
                        [apply Hbf; by left | done])
                  bf be ltac:(intros; apply Hbf; by right) Hbe) as Hb.
    destruct (bidi_expand fe2 bn _ bf be) as [[child met] | [bf2 be2]].
    + intros [= <- <-]. destruct Hb as [Hc Hmet].
      destruct (Hfe2 _ _ Hmet) as [Hst Hf]. done.
    + destruct Hb as [Hbf2 Hbe2]. by apply IH.
Qed.

Lemma merge_paths_replay f_node b_node :
  forward_ok gs start f_node -> backward_ok gs goal b_node ->
  state f_node = state b_node ->
  replay gs start (merge_paths f_node b_node) = Some goal.
Proof.
  intros Hf [_ Hb] Heq. unfold merge_paths. rewrite replay_app, Hf. cbn.
  rewrite Heq. exact Hb.
Qed.

Lemma bidirectional_search_sound (fuel : nat) (p : Path) :
  in_bounds gs goal = true ->
  bidirectional_search fuel start goal gs = Some (Found p) ->
  replay gs start p = Some goal.
Proof.
  intros Hgoal. unfold bidirectional_search, bidirectional_meet.
  case_decide as Heq; [by intros [= <-]; subst |].
  destruct (bidi_loop _ _ _ _ _ _) as [[[f_node b_node] |] |] eqn:Hloop;
    cbn; [| done | done].
  intros [= <-].
  apply bidi_loop_sound in Hloop as (Hf & Hb & Hst).
  - by apply merge_paths_replay.
  - by intros m ->%list_elem_of_singleton.
  - intros s m [<- <-]%lookup_singleton_Some. done.
  - intros m ->%list_elem_of_singleton. done.
  - intros s m [<- <-]%lookup_singleton_Some. done.
Qed.
End Bidirectional.

Section BidirectionalTermination.
Variables (gs : Grid) (U : gset Cell).

(** A direction's expansion adds to its frontier only states that are new
    in its dictionary. *)
Lemma bidi_expand_measure (other : gmap Cell Node) (node : Node)
    (succs : list (Cell * Action * Q)) :
  (forall x, x ∈ succs -> x.1.1 ∈ U) ->
  forall (F : list Node) (E : gmap Cell Node),
    match bidi_expand other node succs F E with
    | inl _ => True
    | inr (F', E') =>
        (size (U ∖ dom E') + length F' <= size (U ∖ dom E) + length F)%nat
    end.
Proof.
  induction succs as [| [[s a] c] rest IH]; intros Hsub F E;
    cbn [bidi_expand]; [done |].
  assert (forall x, x ∈ rest -> x.1.1 ∈ U) as Hsub'
    by (intros; apply Hsub; by right).
  destruct (E !! s) as [m |] eqn:HEs; [by apply IH |].
  destruct (other !! s) as [met |]; [done |].
  set (child := mkNode s (Some node) (Some a) (cost node + c)%Q 0).
  specialize (IH Hsub' (F ++ [child]) (<[s := child]> E)).
  destruct (bidi_expand other node rest _ _) as [? | [F' E']]; [done |].
  rewrite length_app, dom_insert_L in IH. cbn [length] in IH.
  assert (size (U ∖ ({[ s ]} ∪ dom E)) < size (U ∖ dom E))%nat; [| lia].
  apply subset_size.
  assert (s ∈ U) by (apply (Hsub (s, a, c)); by left).
  assert (s ∉ dom E) by by apply not_elem_of_dom.
  set_solver.
Qed.

Lemma bidi_loop_terminates (fuel : nat) :
  forall (ff : list Node) (fe : gmap Cell Node)
         (bf : list Node) (be : gmap Cell Node),
    (forall s x, x ∈ get_successors s gs -> x.1.1 ∈ U) ->
    (size (U ∖ dom fe) + length ff < fuel)%nat ->
    is_Some (bidi_loop fuel gs ff fe bf be).
Proof.
  induction fuel as [| fuel IH]; intros ff fe bf be Hsucc Hsize; [lia |].
  destruct ff as [| fn ff]; destruct bf as [| bn bf]; cbn [bidi_loop];
    try done.
  pose proof (bidi_expand_measure be fn (get_successors (state fn) gs)
                (Hsucc _) ff fe) as Hm.
  destruct (bidi_expand be fn _ ff fe) as [[child met] | [ff2 fe2]]; [done |].
  destruct (bidi_expand fe2 bn _ bf be) as [[child met] | [bf2 be2]]; [done |].
  apply IH; [done |]. cbn [length] in Hsize. lia.
Qed.
End BidirectionalTermination.

Lemma bidirectional_search_terminates gs start goal :
  exists fuel r, bidirectional_search fuel start goal gs = Some r.
Proof.
  exists (S (S (size (universe gs start)))).
  unfold bidirectional_search, bidirectional_meet.
  case_decide; [by eexists |].
  destruct (bidi_loop_terminates gs (universe gs start)
              (S (S (size (universe gs start))))
              [root_node start] {[ start := root_node start ]}
              [root_node goal] {[ goal := root_node goal ]})
    as [meet Hmeet].
  - intros s x. apply successor_in_universe.
  - assert (size (universe gs start ∖ dom ({[start := root_node start]}
                                            : gmap Cell Node))
            <= size (universe gs start))%nat
      by (apply subseteq_size; set_solver).
    cbn [length]. lia.
  - rewrite Hmeet. cbn. by eexists.
Qed.

(** ** More fuel never changes a result *)

Lemma bfs_loop_mono gs goal (fuel : nat) :
  forall (F : list Node) (E : gset Cell) r (fuel' : nat),
    bfs_loop fuel goal gs F E = Some r -> (fuel <= fuel')%nat ->
    bfs_loop fuel' goal gs F E = Some r.
Proof.
  induction fuel as [| fuel IH]; intros F E r fuel' Hrun Hle;
    destruct F as [| n0 F]; destruct fuel' as [| fuel']; cbn in *;
    try done; try lia.
  destruct (bfs_expand _ _ _ _ _); [done |]. apply IH; [done | lia].
Qed.

Lemma dfs_loop_mono gs goal (fuel : nat) :
  forall (F : list Node) (E : gset Cell) r (fuel' : nat),
    dfs_loop fuel goal gs F E = Some r -> (fuel <= fuel')%nat ->
    dfs_loop fuel' goal gs F E = Some r.
Proof.
  induction fuel as [| fuel IH]; intros F E r fuel' Hrun Hle;
    destruct F as [| n0 F]; destruct fuel' as [| fuel'];
    cbn [dfs_loop] in *; try done; try lia.
  repeat case_decide; try done; (apply IH; [done | lia]).
Qed.

Lemma ucs_loop_mono gs goal (fuel : nat) :
  forall (F : list Node) (E : gset Cell) r (fuel' : nat),
    ucs_loop fuel goal gs F E = Some r -> (fuel <= fuel')%nat ->
    ucs_loop fuel' goal gs F E = Some r.
Proof.
  induction fuel as [| fuel IH]; intros F E r fuel' Hrun Hle;
    destruct F as [| n0 F]; destruct fuel' as [| fuel'];
    cbn [ucs_loop] in *; try done; try lia.
  destruct (heappop (n0 :: F)) as [[x H'] |]; [| done].
  cbn [mbind option_bind] in *.
  repeat case_decide; try done.
  - destruct (ucs_push _ _ _ _); [| done]. cbn [mbind option_bind] in *.
    apply IH; [done | lia].
  - apply IH; [done | lia].
Qed.

Lemma bidi_loop_mono gs (fuel : nat) :
  forall (ff : list Node) (fe : gmap Cell Node)
         (bf : list Node) (be : gmap Cell Node) r (fuel' : nat),
    bidi_loop fuel gs ff fe bf be = Some r -> (fuel <= fuel')%nat ->
    bidi_loop fuel' gs ff fe bf be = Some r.
Proof.
  induction fuel as [| fuel IH]; intros ff fe bf be r fuel' Hrun Hle;
    destruct ff as [| fn ff]; destruct bf as [| bn bf];
    destruct fuel' as [| fuel']; cbn [bidi_loop] in *; try done; try lia.
  destruct (bidi_expand be fn _ ff fe) as [[? ?] | [ff2 fe2]]; [done |].
  destruct (bidi_expand fe2 bn _ bf be) as [[? ?] | [bf2 be2]]; [done |].
  apply IH; [done | lia].
Qed.

Lemma bfs_mono gs start goal (fuel fuel' : nat) r :
  bfs fuel start goal gs = Some r -> (fuel <= fuel')%nat ->
  bfs fuel' start goal gs = Some r.
Proof.
  unfold bfs, bfs_run. case_decide; [done |].
  destruct (bfs_loop fuel _ _ _ _) as [x |] eqn:Hrun; [| done].
  intros Hr Hle. by rewrite (bfs_loop_mono _ _ _ _ _ _ _ Hrun Hle).
Qed.

Lemma dfs_mono gs start goal (fuel fuel' : nat) r :
  dfs fuel start goal gs = Some r -> (fuel <= fuel')%nat ->
  dfs fuel' start goal gs = Some r.
Proof.
  unfold dfs, dfs_run.
  destruct (dfs_loop fuel _ _ _ _) as [x |] eqn:Hrun; [| done].
  intros Hr Hle. by rewrite (dfs_loop_mono _ _ _ _ _ _ _ Hrun Hle).
Qed.

Lemma ucs_mono gs start goal (fuel fuel' : nat) r :
  ucs fuel start goal gs = Some r -> (fuel <= fuel')%nat ->
  ucs fuel' start goal gs = Some r.
Proof.
  unfold ucs, ucs_run.
  destruct (heappush [] (root_node start)) as [h0 |]; [| done].
  cbn [mbind option_bind].
  destruct (ucs_loop fuel _ _ _ _) as [x |] eqn:Hrun; [| done].
  intros Hr Hle. by rewrite (ucs_loop_mono _ _ _ _ _ _ _ Hrun Hle).
Qed.

Lemma bidirectional_search_mono gs start goal (fuel fuel' : nat) r :
  bidirectional_search fuel start goal gs = Some r -> (fuel <= fuel')%nat ->
  bidirectional_search fuel' start goal gs = Some r.
Proof.
  unfold bidirectional_search, bidirectional_meet. case_decide; [done |].
  destruct (bidi_loop fuel _ _ _ _ _) as [x |] eqn:Hrun; [| done].
  intros Hr Hle. by rewrite (bidi_loop_mono _ _ _ _ _ _ _ _ Hrun Hle).
Qed.

(** ** Returning, and replaying inside the grid *)

Lemma returns_intro (run : nat -> option Result) (fuel : nat) r :
  (forall f f' r', run f = Some r' -> (f <= f')%nat -> run f' = Some r') ->
  run fuel = Some r -> returns run r.
Proof. intros Hmono Hrun. exists fuel. intros fuel' Hle. by eapply Hmono. Qed.

Lemma returns_run (run : nat -> option Result) (fuel : nat) r r' :
  (forall f f' r', run f = Some r' -> (f <= f')%nat -> run f' = Some r') ->
  returns run r -> run fuel = Some r' -> r' = r.
Proof.
  intros Hmono [f0 Hf0] Hrun.
  pose proof (Hf0 (max f0 fuel) ltac:(lia)) as H1.
  pose proof (Hmono _ (max f0 fuel) _ Hrun ltac:(lia)) as H2. congruence.
Qed.

Lemma replay_valid gs start goal p :
  in_bounds gs start = true -> replay gs start p = Some goal ->
  valid_replay gs start goal p.
Proof.
  intros Hs Hp. split; [done |]. intros k.
  rewrite <- (take_drop k p), replay_app in Hp.
  destruct (replay gs start (take k p)) as [c |] eqn:Hc; [| done].
  exists c. split; [done |]. by eapply replay_in_bounds.
Qed.

(** For in-bounds cells [bfs] returns a path, a shortest one. *)
Lemma bfs_returns_shortest gs start goal :
  in_bounds gs start = true -> in_bounds gs goal = true ->
  exists p, returns (fun fuel => bfs fuel start goal gs) (Found p)
            /\ shortest gs start goal p.
Proof.
  intros Hs Hg.
  destruct (bfs_terminates gs start goal) as (fuel & r & Hrun).
  pose proof (bfs_spec gs start goal fuel r Hrun) as Hspec.
  destruct r as [p | |]; [| | done].
  - exists p. split; [| done].
    eapply returns_intro; [| exact Hrun].
    intros f f' r'. apply bfs_mono.
  - destruct (grid_path_exists gs start goal Hs Hg) as [q Hq].
    by destruct (Hspec q).
Qed.

Lemma heappush_nil x : heappush [] x = Some [x].
Proof.
  unfold heappush, siftdown. cbn. by rewrite decide_False by lia.
Qed.

(** ** Diagonal moves on cheapest paths *)

Lemma path_cost_cost2 p : (2 * path_cost p == inject_Z (cost2 p))%Q.
Proof.
  induction p as [| [a |] p IH]; cbn [path_cost cost2]; [done | | done].
  rewrite inject_Z_plus, <- IH.
  destruct a; cbn; ring.
Qed.

Lemma path_cost_lt_cost2 p q :
  cost2 p < cost2 q -> (path_cost p < path_cost q)%Q.
Proof.
  intros H. rewrite Zlt_Qlt in H.
  rewrite <- !path_cost_cost2 in H. lra.
Qed.

Lemma path_cost_le_cost2 p q :
  (path_cost p <= path_cost q)%Q -> cost2 p <= cost2 q.
Proof.
  intros H. rewrite Zle_Qle, <- !path_cost_cost2. lra.
Qed.

Lemma step_cell_move gs s a t :
  step_cell gs s a = Some t ->
  t.1 = s.1 + (moves a).1 /\ t.2 = s.2 + (moves a).2.
Proof.
  unfold step_cell. destruct (in_bounds gs (move_to s a)); [| done].
  by intros [= <-].
Qed.

(** Diagonal moves keep [row - col]; every other move changes it by one. *)
Lemma cost2_lower_bound gs p :
  forall s t,
    replay gs s p = Some t ->
    2 * Z.abs ((t.1 - s.1) - (t.2 - s.2)) + 3 * diag_count p <= cost2 p.
Proof.
  induction p as [| [a |] p IH]; intros s t; cbn [replay cost2 diag_count];
    [| | done].
  - intros [= <-]. lia.
  - destruct (step_cell gs s a) as [s' |] eqn:Hstep; [| done].
    intros Hrest. specialize (IH _ _ Hrest).
    apply step_cell_move in Hstep as [H1 H2].
    destruct a; cbn [is_diagonal moves fst snd] in *; lia.
Qed.

Lemma cost2_orthogonal gs p :
  forall s t,
    replay gs s p = Some t -> orthogonal p ->
    2 * (Z.abs (t.1 - s.1) + Z.abs (t.2 - s.2)) <= cost2 p.
Proof.
  induction p as [| [a |] p IH]; intros s t; cbn [replay cost2];
    [| | done].
  - intros [= <-] _. lia.
  - destruct (step_cell gs s a) as [s' |] eqn:Hstep; [| done].
    intros Hrest [Ha Hp]%Forall_cons. specialize (IH _ _ Hrest Hp).
    apply step_cell_move in Hstep as [H1 H2].
    destruct a; cbn [is_diagonal moves fst snd] in *; try done; lia.
Qed.

Lemma diag_count_pos p : has_diagonal p -> 1 <= diag_count p.
Proof.
  assert (forall q, 0 <= diag_count q) as Hnn.
  { induction q as [| x q IH]; cbn; [lia |]. destruct (is_diagonal x); lia. }
  induction 1 as [x p Hx | x p Hp IH]; cbn.
  - rewrite Hx. specialize (Hnn p). lia.
  - destruct (is_diagonal x); lia.
Qed.

(** The path along the row and then the column, with its cost. *)
Lemma manhattan_path gs (n : nat) :
  forall s t,
    in_bounds gs s = true -> in_bounds gs t = true ->
    Z.abs (t.1 - s.1) + Z.abs (t.2 - s.2) = Z.of_nat n ->
    exists q, replay gs s q = Some t /\ cost2 q = 2 * Z.of_nat n.
Proof.
  induction n as [| n IH]; intros [r c] [r' c'] Hs Ht Hd; cbn [fst snd] in Hd.
  - exists []. split; [| done]. cbn. f_equal. f_equal; lia.
  - apply in_bounds_spec in Hs as Hs', Ht as Ht'. cbn [fst snd] in Hs', Ht'.
    assert (exists a s', step_cell gs (r, c) a = Some s'
              /\ is_diagonal (Some a) = false
              /\ Z.abs (r' - s'.1) + Z.abs (c' - s'.2) = Z.of_nat n)
      as (a & s' & Hstep & Hdiag & Hd').
    { destruct (Z.lt_trichotomy r r') as [Hlt | [Heq | Hgt]].
      - exists Bottom, (r + 1, c). unfold step_cell, move_to. cbn [moves fst snd].
        rewrite Z.add_0_r.
        rewrite (proj2 (in_bounds_spec gs (r + 1, c))) by (cbn; lia).
        split; [done |]. split; [done | cbn; lia].
      - destruct (Z.lt_trichotomy c c') as [Hlt | [Heq' | Hgt]]; [| lia |].
        + exists Right, (r, c + 1). unfold step_cell, move_to.
          cbn [moves fst snd]. rewrite Z.add_0_r.
          rewrite (proj2 (in_bounds_spec gs (r, c + 1))) by (cbn; lia).
          split; [done |]. split; [done | cbn; lia].
        + exists Left, (r, c - 1). unfold step_cell, move_to.
          cbn [moves fst snd]. rewrite Z.add_0_r.
          replace (c + -1) with (c - 1) by lia.
          rewrite (proj2 (in_bounds_spec gs (r, c - 1))) by (cbn; lia).
          split; [done |]. split; [done | cbn; lia].
      - exists Up, (r - 1, c). unfold step_cell, move_to. cbn [moves fst snd].
        rewrite Z.add_0_r. replace (r + -1) with (r - 1) by lia.
        rewrite (proj2 (in_bounds_spec gs (r - 1, c))) by (cbn; lia).
        split; [done |]. split; [done | cbn; lia]. }
    destruct (IH s' (r', c')) as (q & Hq & Hcost);
      [by eapply step_cell_in_bounds | done | done |].
    exists (Some a :: q). split; [cbn; by rewrite Hstep |].
    cbn [cost2]. rewrite Hdiag. lia.
Qed.

(** A cheapest path that has a diagonal move is strictly cheaper than every
    path of orthogonal moves. *)
Lemma cheapest_diagonal_beats_orthogonal gs s t p q :
  in_bounds gs s = true -> in_bounds gs t = true ->
  cheapest gs s t p -> has_diagonal p ->
  replay gs s q = Some t -> orthogonal q ->
  (path_cost p < path_cost q)%Q.
Proof.
  intros Hs Ht [Hp Hmin] Hdiag Hq Horth. apply path_cost_lt_cost2.
  pose proof (cost2_lower_bound gs p s t Hp) as Hlow.
  pose proof (diag_count_pos p Hdiag) as Hd1.
  pose proof (cost2_orthogonal gs q s t Hq Horth) as Hq2.
  apply in_bounds_spec in Hs as Hs', Ht as Ht'.
  assert (forall a s1,
            step_cell gs s a = Some s1 -> is_diagonal (Some a) = true ->
            cost2 p <= 3 + 2 * (Z.abs (t.1 - s1.1) + Z.abs (t.2 - s1.2)))
    as Hvia.
  { intros a s1 Hstep Ha.
    destruct (manhattan_path gs
                (Z.to_nat (Z.abs (t.1 - s1.1) + Z.abs (t.2 - s1.2))) s1 t)
      as (q1 & Hq1 & Hc1); [by eapply step_cell_in_bounds | done | lia |].
    assert (replay gs s (Some a :: q1) = Some t) as Hp'
      by (cbn; by rewrite Hstep).
    apply Hmin, path_cost_le_cost2 in Hp'. cbn [cost2] in Hp'.
    rewrite Ha in Hp'. lia. }
  destruct (decide (0 < t.1 - s.1 /\ 0 < t.2 - s.2)) as [[Hr Hc] | Hnot1].
  { specialize (Hvia BottomRight (s.1 + 1, s.2 + 1)).
    unfold step_cell, move_to in Hvia. cbn [moves fst snd] in Hvia.
    rewrite (proj2 (in_bounds_spec gs (s.1 + 1, s.2 + 1))) in Hvia
      by (cbn; lia).
    specialize (Hvia eq_refl eq_refl). cbn [fst snd] in Hvia. lia. }
  destruct (decide (t.1 - s.1 < 0 /\ t.2 - s.2 < 0)) as [[Hr Hc] | Hnot2].
  { specialize (Hvia TopLeft (s.1 + -1, s.2 + -1)).
    unfold step_cell, move_to in Hvia. cbn [moves fst snd] in Hvia.
    rewrite (proj2 (in_bounds_spec gs (s.1 + -1, s.2 + -1))) in Hvia
      by (cbn; lia).
    specialize (Hvia eq_refl eq_refl). cbn [fst snd] in Hvia. lia. }
  destruct (manhattan_path gs
              (Z.to_nat (Z.abs (t.1 - s.1) + Z.abs (t.2 - s.2))) s t)
    as (m & Hm & Hcm); [done | done | lia |].
  apply Hmin, path_cost_le_cost2 in Hm. lia.
Qed.

(** For in-bounds cells [ucs] returns a path, a cheapest one. *)
Lemma ucs_returns_cheapest gs start goal :
  in_bounds gs start = true -> in_bounds gs goal = true ->
  exists p, returns (fun fuel => ucs fuel start goal gs) (Found p)
            /\ cheapest gs start goal p.
Proof.
  intros Hs Hg.
  destruct (ucs_terminates gs start goal) as (fuel & r & Hrun).
  pose proof (ucs_spec gs start goal fuel r Hrun) as Hspec.
  destruct r as [p | |]; [| | done].
  - exists p. split; [| done].
    eapply returns_intro; [| exact Hrun].
    intros f f' r'. apply ucs_mono.
  - destruct (grid_path_exists gs start goal Hs Hg) as [q Hq].
    by destruct (Hspec q).
Qed.

(** ** The step-wise variants against the batch searches *)

Lemma until_path_app events more :
  until_path events = (events, false) ->
  until_path (events ++ more)
  = (events ++ (until_path more).1, (until_path more).2).
Proof.
  induction events as [| e events IH]; cbn [until_path app].
  - intros _. by destruct (until_path more).
  - destruct (is_path_event e); [done |].
    destruct (until_path events) as [rest found] eqn:Hrest.
    intros [= -> ->]. rewrite IH by done.
    by destruct (until_path more).
Qed.

Lemma terminal_path_app events more :
  terminal_path events = None ->
  terminal_path (events ++ more) = terminal_path more.
Proof.
  induction events as [| e events IH]; cbn [terminal_path app]; [done |].
  destruct e; auto. done.
Qed.

Lemma until_path_cons_step e events :
  is_path_event e = false ->
  until_path (e :: events)
  = (e :: (until_path events).1, (until_path events).2).
Proof.
  intros He. cbn [until_path]. rewrite He. by destruct (until_path events).
Qed.

Section DlsStep.
Variables (gs : Grid) (goal : Cell).

Lemma dls_step_loop_agrees
    (rec : Node -> gset Cell -> Result * gset Cell)
    (rec_step : Node -> gset Cell -> list Event * gset Cell)
    (node : Node) (succs : list (Cell * Action * Q)) :
  (forall child (ps : gset Cell),
      (rec_step child ps).2 = (rec child ps).2
      /\ dls_trace (rec_step child ps).1 (rec child ps).1) ->
  forall (cut : bool) (ps : gset Cell),
    (dls_step_loop rec_step node succs ps).2 = (dls_loop rec node succs cut ps).2
    /\ (dls_step_loop rec_step node succs ps).1.2
       = is_found (dls_loop rec node succs cut ps).1
    /\ dls_trace (dls_step_loop rec_step node succs ps).1.1
                 (dls_loop rec node succs cut ps).1.
Proof.
  intros Hrec.
  induction succs as [| [[s a] c] rest IH]; intros cut ps;
    cbn [dls_step_loop dls_loop].
  - by destruct cut.
  - case_decide as Hin; [apply IH |].
    set (child := mkNode s (Some node) (Some a) (cost node + c)%Q
                         (depth node + 1)).
    destruct (Hrec child ps) as [Hps Htrace].
    destruct (rec_step child ps) as [events ps1].
    destruct (rec child ps) as [r ps2]. cbn [fst snd] in Hps, Htrace.
    subst ps2.
    destruct r as [p | |]; cbn [dls_trace] in Htrace;
      destruct Htrace as [Huntil Hterm]; rewrite Huntil.
    + done.
    + specialize (IH cut ps1).
      destruct (dls_step_loop rec_step node rest ps1) as [[more found] ps3].
      destruct (dls_loop rec node rest cut ps1) as [r' ps4].
      cbn [fst snd] in *. destruct IH as (-> & -> & Htr).
      split; [done |]. split; [done |].
      destruct r'; cbn [dls_trace] in *; destruct Htr as [Hu Ht];
        rewrite until_path_app, Hu, terminal_path_app by done; done.
    + specialize (IH true ps1).
      destruct (dls_step_loop rec_step node rest ps1) as [[more found] ps3].
      destruct (dls_loop rec node rest true ps1) as [r' ps4].
      cbn [fst snd] in *. destruct IH as (-> & -> & Htr).
      split; [done |]. split; [done |].
      destruct r'; cbn [dls_trace] in *; destruct Htr as [Hu Ht];
        rewrite until_path_app, Hu, terminal_path_app by done; done.
Qed.

Lemma recursive_dls_step_agrees (limit : nat) :
  forall (node : Node) (ps : gset Cell),
    (recursive_dls_step limit goal gs node ps).2
    = (recursive_dls limit goal gs node ps).2
    /\ dls_trace (recursive_dls_step limit goal gs node ps).1
                 (recursive_dls limit goal gs node ps).1.
Proof.
  induction limit as [| limit IH]; intros node ps;
    cbn [recursive_dls_step recursive_dls]; case_decide as Hg; try done.
  pose proof (dls_step_loop_agrees _ _ node
                (get_successors (state node) gs) IH false
                (ps ∪ {[ state node ]})) as Hloop.
  destruct (dls_step_loop _ node _ _) as [[events found] ps1].
  destruct (dls_loop _ node _ _ _) as [r ps2].
  cbn [fst snd] in *. destruct Hloop as (-> & _ & Htr).
  split; [done |].
  destruct r; cbn [dls_trace] in *; destruct Htr as [Hu Ht];
    by rewrite until_path_cons_step, Hu by done.
Qed.
End DlsStep.

(** [dls_step] has a [path] event exactly when [dls] finds a path, and
    then it carries that path. *)
Lemma dls_step_agrees gs start goal limit :
  dls_trace (dls_step start goal gs limit) (dls start goal gs limit).
Proof. unfold dls_step, dls. apply recursive_dls_step_agrees. Qed.

Lemma iddfs_step_from_agrees gs start goal (n : nat) :
  forall d,
    terminal_path (iddfs_step_from start goal gs d n)
    = Some (result_path (iddfs_from start goal gs d n)).
Proof.
  induction n as [| n IH]; intros d; cbn [iddfs_step_from iddfs_from];
    [done |].
  pose proof (dls_step_agrees gs start goal d) as Htr.
  destruct (dls start goal gs d) as [p | |]; cbn [dls_trace] in Htr;
    destruct Htr as [Hu Ht]; rewrite Hu; cbn [terminal_path].
  - by rewrite app_nil_r.
  - by rewrite terminal_path_app.
  - by rewrite terminal_path_app.
Qed.

Lemma iddfs_step_agrees gs start goal max_depth :
  terminal_path (iddfs_step start goal gs max_depth)
  = Some (result_path (iddfs start goal gs max_depth)).
Proof. apply iddfs_step_from_agrees. Qed.

Lemma dfs_step_loop_agrees gs goal (fuel : nat) :
  forall (F : list Node) (E : gset Cell),
    terminal_path <$> dfs_step_loop fuel goal gs F E
    = (fun x : Result * gset Cell => Some (result_path x.1))
        <$> dfs_loop fuel goal gs F E.
Proof.
  induction fuel as [| fuel IH]; intros F E; destruct F as [| n0 F];
    cbn [dfs_step_loop dfs_loop]; try done.
  case_decide; [done |]. case_decide; [| apply IH].
  specialize (IH (dfs_push n0 (E ∪ {[ state n0 ]})
                    (rev (get_successors (state n0) gs)) F)
                 (E ∪ {[ state n0 ]})).
  destruct (dfs_step_loop fuel _ _ _ _); destruct (dfs_loop fuel _ _ _ _);
    by cbn in *.
Qed.

Lemma dfs_step_agrees gs start goal (fuel : nat) :
  terminal_path <$> dfs_step fuel start goal gs
  = (fun r => Some (result_path r)) <$> dfs fuel start goal gs.
Proof.
  unfold dfs_step, dfs, dfs_run.
  pose proof (dfs_step_loop_agrees gs goal fuel [root_node start] ∅) as Hagree.
  destruct (dfs_step_loop fuel _ _ _ _); destruct (dfs_loop fuel _ _ _ _);
    by cbn in *.
Qed.

Lemma ucs_step_loop_agrees gs goal (fuel : nat) :
  forall (F : list Node) (E : gset Cell),
    terminal_path <$> ucs_step_loop fuel goal gs F E
    = (fun x : Result * gset Cell => Some (result_path x.1))
        <$> ucs_loop fuel goal gs F E.
Proof.
  induction fuel as [| fuel IH]; intros F E; destruct F as [| n0 F];
    cbn [ucs_step_loop ucs_loop]; try done.
  destruct (heappop (n0 :: F)) as [[x H'] |]; [| done].
  cbn [mbind option_bind].
  case_decide; [done |]. case_decide; [| apply IH].
  destruct (ucs_push _ _ _ _) as [H'' |]; [| done].
  cbn [mbind option_bind].
  specialize (IH H'' (E ∪ {[ state x ]})).
  destruct (ucs_step_loop fuel _ _ _ _); destruct (ucs_loop fuel _ _ _ _);
    by cbn in *.
Qed.

Lemma ucs_step_agrees gs start goal (fuel : nat) :
  terminal_path <$> ucs_step fuel start goal gs
  = (fun r => Some (result_path r)) <$> ucs fuel start goal gs.
Proof.
  unfold ucs_step, ucs, ucs_run.
  destruct (heappush [] (root_node start)) as [h0 |]; [| done].
  cbn [mbind option_bind].
  pose proof (ucs_step_loop_agrees gs goal fuel h0 ∅) as Hagree.
  destruct (ucs_step_loop fuel _ _ _ _); destruct (ucs_loop fuel _ _ _ _);
    by cbn in *.
Qed.

Lemma bidi_step_loop_agrees gs (fuel : nat) :
  forall (ff : list Node) (fe : gmap Cell Node)
         (bf : list Node) (be : gmap Cell Node),
    terminal_path <$> bidi_step_loop fuel gs ff fe bf be
    = (fun meet : option (Node * Node) =>
         Some ((fun fb : Node * Node => merge_paths fb.1 fb.2) <$> meet))
        <$> bidi_loop fuel gs ff fe bf be.
Proof.
  induction fuel as [| fuel IH]; intros ff fe bf be;
    destruct ff as [| fn ff]; destruct bf as [| bn bf];
    cbn [bidi_step_loop bidi_loop]; try done.
  destruct (bidi_expand be fn _ ff fe) as [[child met] | [ff2 fe2]]; [done |].
  destruct (bidi_expand fe2 bn _ bf be) as [[child met] | [bf2 be2]]; [done |].
  specialize (IH ff2 fe2 bf2 be2).
  destruct (bidi_step_loop fuel _ _ _ _ _); destruct (bidi_loop fuel _ _ _ _ _);
    by cbn in *.
Qed.

Lemma bidirectional_search_step_agrees gs start goal (fuel : nat) :
  terminal_path <$> bidirectional_search_step fuel start goal gs
  = (fun r => Some (result_path r))
      <$> bidirectional_search fuel start goal gs.
Proof.
  unfold bidirectional_search_step, bidirectional_search, bidirectional_meet.
  case_decide; [done |].
  pose proof (bidi_step_loop_agrees gs fuel
                [root_node start] {[ start := root_node start ]}
                [root_node goal] {[ goal := root_node goal ]}) as Hagree.
  destruct (bidi_step_loop fuel _ _ _ _ _) as [events |];
    destruct (bidi_loop fuel _ _ _ _ _) as [[[f b] |] |]; by cbn in *.
Qed.

Section BfsStep.
Variables (gs : Grid) (goal : Cell).

(** The first loop of [bfs_step] keeps in its explored set what [bfs] keeps
    in its explored set and its frontier together, and so takes the same
    decisions. *)
Lemma bfs_step_expand_sim (n0 : Node) (E' : gset Cell)
    (succs : list (Cell * Action * Q)) :
  forall (Fc : list Node) (E1 : gset Cell),
    E1 = E' ∪ list_to_set (state <$> Fc) ->
    match bfs_expand goal n0 E' succs Fc,
          bfs_step_expand goal n0 succs Fc E1 with
    | inl p, inl p' => p' = p
    | inr F', inr (F'', E1') =>
        F'' = F' /\ E1' = E' ∪ list_to_set (state <$> F')
    | _, _ => False
    end.
Proof.
  induction succs as [| [[s a] c] rest IH]; intros Fc E1 HE1;
    cbn [bfs_expand bfs_step_expand]; [done |].
  destruct (decide ((s ∉ E') ∧ (s ∉ state <$> Fc))) as [[HnE HnF] | Hold];
    destruct (decide ((s ∉ E1) ∧ (s ∉ state <$> Fc))) as [[HnE1 HnF1] | Hold1].
  - case_decide; [done |]. apply IH.
    rewrite HE1, fmap_app, list_to_set_app_L. cbn. set_solver.
  - exfalso. apply Hold1. split; [| done]. rewrite HE1.
    apply not_elem_of_union. split; [done |].
    by rewrite elem_of_list_to_set.
  - exfalso. apply Hold. split; [| done]. rewrite HE1 in HnE1. set_solver.
  - by apply IH.
Qed.

Lemma bfs_step_loop1_agrees (fuel : nat) :
  forall (F : list Node) (E E1 : gset Cell),
    E1 = E ∪ list_to_set (state <$> F) ->
    match bfs_loop fuel goal gs F E, bfs_step_loop1 fuel goal gs F E1 with
    | Some (r, _), Some (events, returned) =>
        returned = is_found r
        /\ terminal_path events
           = (if is_found r then Some (result_path r) else None)
    | None, None => True
    | _, _ => False
    end.
Proof.
  induction fuel as [| fuel IH]; intros F E E1 HE1; destruct F as [| n0 F];
    cbn [bfs_loop bfs_step_loop1]; try done.
  pose proof (bfs_step_expand_sim n0 (E ∪ {[ state n0 ]})
                (get_successors (state n0) gs) F E1) as Hsim.
  destruct (bfs_expand goal n0 _ _ F) as [p | F'];
    destruct (bfs_step_expand goal n0 _ F E1) as [p' | [F'' E1']];
    try (destruct Hsim; [rewrite HE1; cbn; set_solver]).
  - rewrite Hsim by (rewrite HE1; cbn; set_solver). done.
  - destruct Hsim as [-> ->]; [rewrite HE1; cbn; set_solver |].
    specialize (IH F' (E ∪ {[ state n0 ]}) _ eq_refl).
    destruct (bfs_loop fuel goal gs F' _) as [[r E''] |];
      destruct (bfs_step_loop1 fuel goal gs F' _) as [[events returned] |];
      done.
Qed.

Lemma bfs_step_loop2_agrees (fuel : nat) :
  forall (F : list Node) (E : gset Cell),
    match bfs_loop fuel goal gs F E, bfs_step_loop2 fuel goal gs F E with
    | Some (r, _), Some (events, returned) =>
        returned = is_found r
        /\ terminal_path events
           = (if is_found r then Some (result_path r) else None)
    | None, None => True
    | _, _ => False
    end.
Proof.
  induction fuel as [| fuel IH]; intros F E; destruct F as [| n0 F];
    cbn [bfs_loop bfs_step_loop2]; try done.
  destruct (bfs_expand goal n0 _ _ F) as [p | F']; [done |].
  specialize (IH F' (E ∪ {[ state n0 ]})).
  destruct (bfs_loop fuel goal gs F' _) as [[r E''] |];
    destruct (bfs_step_loop2 fuel goal gs F' _) as [[events returned] |];
    done.
Qed.
End BfsStep.

Lemma bfs_step_agrees gs start goal (fuel : nat) :
  terminal_path <$> bfs_step fuel start goal gs
  = (fun r => Some (result_path r)) <$> bfs fuel start goal gs.
Proof.
  unfold bfs_step, bfs, bfs_run. case_decide; [done |].
  pose proof (bfs_step_loop1_agrees gs goal fuel [root_node start] ∅
                {[ start ]} ltac:(cbn; set_solver)) as H1.
  pose proof (bfs_step_loop2_agrees gs goal fuel [root_node start] ∅) as H2.
  destruct (bfs_loop fuel goal gs _ _) as [[r E'] |];
    destruct (bfs_step_loop1 fuel goal gs _ _) as [[events1 returned1] |];
    try done.
  destruct (bfs_step_loop2 fuel goal gs _ _) as [[events2 returned2] |];
    [| done].
  destruct H1 as [-> Ht1]. destruct H2 as [-> Ht2].
  destruct r as [p | |]; cbn in *.
  - by rewrite Ht1.
  - by rewrite !terminal_path_app.
  - by rewrite !terminal_path_app.
Qed.

(** ** The scenario of [main.py]: the 5x5 grid, from (0,0) to (4,4) *)

Example scenario_bfs :
  bfs 30 (0, 0) (4, 4) (5, 5)
  = Some (Found [Some BottomRight; Some BottomRight; Some BottomRight;
                 Some BottomRight]).
Proof. vm_compute. reflexivity. Qed.

Example scenario_dfs :
  dfs 30 (0, 0) (4, 4) (5, 5)
  = Some (Found [Some Right; Some Right; Some Right; Some Right;
                 Some Bottom; Some Bottom; Some Bottom; Some Bottom]).
Proof. vm_compute. reflexivity. Qed.

Example scenario_ucs :
  ucs 60 (0, 0) (4, 4) (5, 5)
  = Some (Found [Some BottomRight; Some BottomRight; Some BottomRight;
                 Some BottomRight]).
Proof. vm_compute. reflexivity. Qed.

Example scenario_dls_limit_10 :
  dls (0, 0) (4, 4) (5, 5) 10
  = Found [Some Right; Some Right; Some Right; Some Right;
           Some Bottom; Some Bottom; Some Bottom; Some Bottom].
Proof. vm_compute. reflexivity. Qed.

Example scenario_dls_limit_2 : dls (0, 0) (4, 4) (5, 5) 2 = Cutoff.
Proof. vm_compute. reflexivity. Qed.

Example scenario_iddfs :
  iddfs (0, 0) (4, 4) (5, 5) default_max_depth
  = Found [Some BottomRight; Some BottomRight; Some BottomRight;
           Some BottomRight].
Proof. vm_compute. reflexivity. Qed.

Example scenario_bidirectional :
  bidirectional_search 30 (0, 0) (4, 4) (5, 5)
  = Some (Found [Some BottomRight; Some BottomRight; Some BottomRight;
                 Some BottomRight]).
Proof. vm_compute. reflexivity. Qed.

(** An out-of-bounds goal: the frontier empties and [None] is returned. *)
Example scenario_goal_outside :
  bfs 30 (0, 0) (4, 9) (3, 3) = Some NoPath
  /\ dfs 80 (0, 0) (4, 9) (3, 3) = Some NoPath
  /\ ucs 80 (0, 0) (4, 9) (3, 3) = Some NoPath
  /\ bidirectional_search 30 (0, 0) (4, 9) (3, 3) = Some NoPath.
Proof. vm_compute. done. Qed.

(** [heapq] on costs 3, 1, 2 (as nodes): the pops come out in order. *)
Example scenario_heap :
  let n (c : Q) := mkNode (0, 0) None None c 0 in
  (h1 ← heappush [] (n 3%Q); h2 ← heappush h1 (n 1%Q);
   h3 ← heappush h2 (n 2%Q);
   '(a, h4) ← heappop h3; '(b, h5) ← heappop h4; '(c, _) ← heappop h5;
   Some [cost a; cost b; cost c])
  = Some [1%Q; 2%Q; 3%Q].
Proof. vm_compute. reflexivity. Qed.

(** * The properties of the specification *)

(** C5.  For in-bounds [start <> goal] a shortest path exists; [dls] with a
    limit strictly below its number of moves returns the cutoff value (not
    the not-found value), and with a limit at least that number it returns
    a path, which replays from [start] to [goal]. *)
Theorem dls_cutoff_below_found_above gs start goal limit :
  in_bounds gs start = true -> in_bounds gs goal = true -> start <> goal ->
  exists pmin,
    shortest gs start goal pmin /\
    (limit < Z.of_nat (length pmin) -> dls start goal gs limit = Cutoff) /\
    (Z.of_nat (length pmin) <= limit ->
     exists p, dls start goal gs limit = Found p
               /\ replay gs start p = Some goal).
Proof.
  intros Hs Hg Hne.
  destruct (grid_path_exists gs start goal Hs Hg) as [q0 Hq0].
  destruct (shortest_exists gs start goal q0 Hq0) as [pmin [Hpmin Hmin]].
  exists pmin. split; [done |]. split.
  - intros Hlt.
    assert (not_found (dls start goal gs limit)) as Hnf.
    { destruct (dls start goal gs limit) as [p | |] eqn:Hd; [| done | done].
      apply dls_sound in Hd as [Hp Hlen]. specialize (Hmin p Hp).
      assert (length pmin = 0)%nat as Hz by lia.
      destruct pmin; [| done]. cbn in Hpmin. congruence. }
    destruct (replay_simple gs start pmin goal Hpmin) as (q' & Hlen & Hq').
    specialize (Hmin q' (simple_path_replay _ _ _ _ _ Hq')).
    destruct (simple_path_take gs (Z.to_nat limit) ∅ start q' goal Hq')
      as [u Hu].
    eapply dls_cutoff; [exact Hu | | done].
    rewrite length_take. lia.
  - intros Hle.
    destruct (dls_complete gs start goal limit pmin) as [p Hp]; [done | lia |].
    exists p. split; [done |]. by apply dls_sound in Hp as [? _].
Qed.

Lemma dls_cutoff_below_found_above_witness :
  exists pmin,
    shortest (5, 5) (0, 0) (4, 4) pmin /\
    (2 < Z.of_nat (length pmin) -> dls (0, 0) (4, 4) (5, 5) 2 = Cutoff) /\
    (Z.of_nat (length pmin) <= 2 ->
     exists p, dls (0, 0) (4, 4) (5, 5) 2 = Found p
               /\ replay (5, 5) (0, 0) p = Some (4, 4)).
Proof.
  apply (dls_cutoff_below_found_above (5, 5) (0, 0) (4, 4) 2);
    [reflexivity | reflexivity | discriminate].
Defined.

(** C1.  Every path returned by any of the six batch searches, for in-bounds
    [start] and [goal], replays from [start] move by move without leaving
    the grid and ends on [goal]; this includes the merged path of
    [bidirectional_search].  (It holds for the empty path as well.) *)
Theorem returned_path_replays_to_goal gs start goal p :
  in_bounds gs start = true -> in_bounds gs goal = true ->
  returned_by_some_search gs start goal p ->
  valid_replay gs start goal p.
Proof.
  intros Hs Hg Hret. apply replay_valid; [done |].
  destruct Hret as [[fuel H] | [[fuel H] | [[fuel H] | [[limit H] |
                   [[max_depth H] | [fuel H]]]]]].
  - by apply bfs_spec in H as [? _].
  - by eapply dfs_sound.
  - by apply ucs_spec in H as [? _].
  - by apply dls_sound in H as [? _].
  - pose proof (iddfs_spec gs start goal max_depth) as Hspec.
    rewrite H in Hspec. apply Hspec.
  - by eapply bidirectional_search_sound.
Qed.

Lemma returned_path_replays_to_goal_witness :
  valid_replay (5, 5) (0, 0) (4, 4)
    [Some BottomRight; Some BottomRight; Some BottomRight; Some BottomRight].
Proof.
  apply (returned_path_replays_to_goal (5, 5) (0, 0) (4, 4));
    [reflexivity | reflexivity |].
  do 5 right. exists 10%nat. vm_compute. reflexivity.
Defined.

(** C4.  For in-bounds [start] and [goal], [bfs] returns a path, and the
    path it returns has the fewest moves of all paths from [start] to
    [goal]. *)
Theorem bfs_returns_shortest_path gs start goal :
  in_bounds gs start = true -> in_bounds gs goal = true ->
  exists p, returns (fun fuel => bfs fuel start goal gs) (Found p)
            /\ shortest gs start goal p.
Proof. apply bfs_returns_shortest. Qed.

Lemma bfs_returns_shortest_path_witness :
  exists p, returns (fun fuel => bfs fuel (0, 0) (4, 4) (5, 5)) (Found p)
            /\ shortest (5, 5) (0, 0) (4, 4) p.
Proof.
  apply (bfs_returns_shortest_path (5, 5) (0, 0) (4, 4)); reflexivity.
Defined.

(** C6.  For in-bounds [start] and [goal] a shortest path exists.  When its
    number of moves is below the depth ceiling, [iddfs] returns a path with
    the fewest moves, as many as the path [bfs] returns; when the ceiling is
    exhausted with no path below it, [iddfs] returns the not-found value
    and no path. *)
Theorem iddfs_shortest_or_not_found gs start goal max_depth :
  in_bounds gs start = true -> in_bounds gs goal = true ->
  exists pmin,
    shortest gs start goal pmin /\
    (Z.of_nat (length pmin) < max_depth ->
     exists p, iddfs start goal gs max_depth = Found p
               /\ shortest gs start goal p
               /\ exists pb,
                    returns (fun fuel => bfs fuel start goal gs) (Found pb)
                    /\ length pb = length p) /\
    (max_depth <= Z.of_nat (length pmin) ->
     iddfs start goal gs max_depth = NoPath).
Proof.
  intros Hs Hg.
  destruct (bfs_returns_shortest gs start goal Hs Hg) as (pb & Hret & Hpb).
  exists pb. split; [done |].
  pose proof (iddfs_spec gs start goal max_depth) as Hspec.
  destruct (iddfs start goal gs max_depth) as [p | |]; [| | done].
  - destruct Hspec as [Hp Hlt]. split.
    + intros _. exists p. split; [done |]. split; [done |].
      exists pb. split; [done |].
      pose proof (proj2 Hp pb (proj1 Hpb)). pose proof (proj2 Hpb p (proj1 Hp)).
      lia.
    + intros Hle. pose proof (proj2 Hpb p (proj1 Hp)). lia.
  - split; [| done]. intros Hlt. specialize (Hspec pb (proj1 Hpb)). lia.
Qed.

Lemma iddfs_shortest_or_not_found_witness :
  exists pmin,
    shortest (5, 5) (0, 0) (4, 4) pmin /\
    (Z.of_nat (length pmin) < 1000 ->
     exists p, iddfs (0, 0) (4, 4) (5, 5) 1000 = Found p
               /\ shortest (5, 5) (0, 0) (4, 4) p
               /\ exists pb,
                    returns (fun fuel => bfs fuel (0, 0) (4, 4) (5, 5))
                            (Found pb)
                    /\ length pb = length p) /\
    (1000 <= Z.of_nat (length pmin) ->
     iddfs (0, 0) (4, 4) (5, 5) 1000 = NoPath).
Proof.
  apply (iddfs_shortest_or_not_found (5, 5) (0, 0) (4, 4) 1000); reflexivity.
Defined.

(** C9.  Called with [start = goal = c], each of the six batch searches
    returns the empty path at once and explores nothing: [bfs] and
    [bidirectional_search] before their loop (no fuel is used), [dfs] and
    [ucs] at the first node they take from the frontier, with an empty
    explored set; [dls] for every limit, with an empty set of path states;
    [iddfs] for every positive depth ceiling, the default one included. *)
Theorem start_is_goal_returns_empty_path gs c :
  (forall fuel, bfs_run fuel c c gs = Some (Found [], ∅))
  /\ (forall fuel, dfs_run (S fuel) c c gs = Some (Found [], ∅))
  /\ (forall fuel, ucs_run (S fuel) c c gs = Some (Found [], ∅))
  /\ (forall limit : nat,
        recursive_dls limit c gs (root_node c) ∅ = (Found [], ∅))
  /\ (forall limit : Z, dls c c gs limit = Found [])
  /\ (forall max_depth, 0 < max_depth -> iddfs c c gs max_depth = Found [])
  /\ iddfs c c gs default_max_depth = Found []
  /\ (forall fuel, bidirectional_search fuel c c gs = Some (Found [])).
Proof.
  assert (forall limit : nat,
            recursive_dls limit c gs (root_node c) ∅ = (Found [], ∅)) as Hdls.
  { intros [| limit]; cbn; by rewrite decide_True. }
  assert (forall limit : Z, dls c c gs limit = Found []) as Hdls'.
  { intros limit. unfold dls. by rewrite Hdls. }
  assert (forall max_depth, 0 < max_depth -> iddfs c c gs max_depth = Found [])
    as Hid.
  { intros max_depth Hpos. unfold iddfs.
    destruct (Z.to_nat max_depth) as [| n] eqn:Hn; [lia |].
    cbn [iddfs_from]. by rewrite Hdls'. }
  repeat split; try done.
  - intros fuel. unfold bfs_run. by rewrite decide_True.
  - intros fuel. unfold dfs_run. cbn. by rewrite decide_True.
  - intros fuel. unfold ucs_run. rewrite heappush_nil. cbn.
    by rewrite decide_True.
  - by apply Hid.
  - intros fuel. unfold bidirectional_search. by rewrite decide_True.
Qed.

Lemma start_is_goal_returns_empty_path_witness :
  iddfs (2, 3) (2, 3) (5, 5) 1 = Found [].
Proof.
  destruct (start_is_goal_returns_empty_path (5, 5) (2, 3))
    as (_ & _ & _ & _ & _ & Hiddfs & _).
  apply Hiddfs. lia.
Defined.

(** C10.  Whatever the grid, the start and the goal (in bounds or not),
    each of the six batch searches terminates: the four frontier loops
    return a result once given enough fuel, and keep it with more; [dls]
    and [iddfs] terminate by construction, recursing on the limit and on the
    range of depths, so they are total functions. *)
Theorem batch_searches_terminate gs start goal :
  (exists r, returns (fun fuel => bfs fuel start goal gs) r)
  /\ (exists r, returns (fun fuel => dfs fuel start goal gs) r)
  /\ (exists r, returns (fun fuel => ucs fuel start goal gs) r)
  /\ (exists r,
        returns (fun fuel => bidirectional_search fuel start goal gs) r)
  /\ (forall limit, exists r, dls start goal gs limit = r)
  /\ (forall max_depth, exists r, iddfs start goal gs max_depth = r).
Proof.
  repeat split; try (intros; by eexists).
  - destruct (bfs_terminates gs start goal) as (fuel & r & Hrun).
    exists r. eapply returns_intro; [| exact Hrun].
    intros f f' r'. apply bfs_mono.
  - destruct (dfs_terminates gs start goal) as (fuel & r & Hrun).
    exists r. eapply returns_intro; [| exact Hrun].
    intros f f' r'. apply dfs_mono.
  - destruct (ucs_terminates gs start goal) as (fuel & r & Hrun).
    exists r. eapply returns_intro; [| exact Hrun].
    intros f f' r'. apply ucs_mono.
  - destruct (bidirectional_search_terminates gs start goal)
      as (fuel & r & Hrun).
    exists r. eapply returns_intro; [| exact Hrun].
    intros f f' r'. apply bidirectional_search_mono.
Qed.

(** C3.  For in-bounds [start] and [goal] (so the grid has positive
    dimensions), [ucs] returns a path whose total cost, the sum of the
    listed costs of its moves, is least among all paths from [start] to
    [goal]; and when the returned path has a diagonal move, every path of
    orthogonal moves only is strictly dearer: no path with diagonals is
    returned where an orthogonal path is as cheap or cheaper. *)
Theorem ucs_returns_cheapest_path gs start goal :
  in_bounds gs start = true -> in_bounds gs goal = true ->
  exists p,
    returns (fun fuel => ucs fuel start goal gs) (Found p)
    /\ cheapest gs start goal p
    /\ (has_diagonal p ->
        forall q, replay gs start q = Some goal -> orthogonal q ->
                  (path_cost p < path_cost q)%Q).
Proof.
  intros Hs Hg.
  destruct (ucs_returns_cheapest gs start goal Hs Hg) as (p & Hret & Hp).
  exists p. split; [done |]. split; [done |].
  intros Hdiag q Hq Horth.
  by apply (cheapest_diagonal_beats_orthogonal gs start goal p q).
Qed.

Lemma ucs_returns_cheapest_path_witness :
  exists p,
    returns (fun fuel => ucs fuel (0, 0) (4, 4) (5, 5)) (Found p)
    /\ cheapest (5, 5) (0, 0) (4, 4) p
    /\ (has_diagonal p ->
        forall q, replay (5, 5) (0, 0) q = Some (4, 4) -> orthogonal q ->
                  (path_cost p < path_cost q)%Q).
Proof.
  apply (ucs_returns_cheapest_path (5, 5) (0, 0) (4, 4)); reflexivity.
Defined.

(** C2.  The specification asks the terminal [path] event of every
    step-wise variant to carry what the batch form returns.  Depth-limited
    search does not: on the 1x3 grid, from (0,0) to (0,2) with limit 1, the
    batch [dls] returns the cutoff value while [dls_step] yields two [step]
    events and no [path] event at all.  (The other five step-wise variants
    agree with their batch forms: [bfs_step_agrees], [dfs_step_agrees],
    [ucs_step_agrees], [iddfs_step_agrees],
    [bidirectional_search_step_agrees]; and [dls_step] agrees with [dls]
    when a path is found: [dls_step_agrees].) *)
Theorem dls_step_diverges_from_dls :
  dls (0, 0) (0, 2) (1, 3) 1 = Cutoff
  /\ terminal_path (dls_step (0, 0) (0, 2) (1, 3) 1) = None
  /\ length (dls_step (0, 0) (0, 2) (1, 3) 1) = 2%nat.
Proof. vm_compute. done. Qed.

(** C7.  The specification asks every step-wise variant to end with a
    [path] event.  [dls_step] does not: whenever the batch [dls] does not
    find a path (cutoff or not-found), the event sequence of [dls_step] is
    exhausted without any [path] event. *)
Theorem dls_step_without_path_event gs start goal limit :
  not_found (dls start goal gs limit) ->
  terminal_path (dls_step start goal gs limit) = None.
Proof.
  intros Hnf. pose proof (dls_step_agrees gs start goal limit) as Htr.
  destruct (dls start goal gs limit); [done | apply Htr | apply Htr].
Qed.

Lemma dls_step_without_path_event_witness :
  terminal_path (dls_step (0, 0) (4, 4) (5, 5) 2) = None.
Proof.
  apply (dls_step_without_path_event (5, 5) (0, 0) (4, 4) 2).
  vm_compute. exact I.
Defined.

(** C8.  The specification asks every node created with a parent to have
    its parent's cost plus the move cost, and its parent's depth plus one.
    The nodes of the bidirectional search are created without a depth: on
    the 1x3 grid, from (0,0) to (0,2), the forward node handed to
    [merge_paths] has a parent, lies one move from the start, and has depth
    0, not its parent's depth plus one.  (Its cost is its parent's cost
    plus the move cost.) *)
Theorem bidirectional_child_depth_stays_zero :
  exists f b p,
    bidirectional_meet 10 (0, 0) (0, 2) (1, 3) = Some (Some (f, b))
    /\ parent f = Some p /\ action f = Some Right
    /\ (cost f == cost p + move_cost Right)%Q
    /\ length (reconstruct_path f) = 1%nat
    /\ depth f = 0 /\ depth f <> depth p + 1.
Proof.
  eexists _, _, _. split; [vm_compute; reflexivity |].
  cbn. repeat split; done.
Qed.

(** * Further properties of the code *)

(** ** The successor generator and the inverse of a move *)

(** X1.  [get_successors] lists exactly the cells one move away that lie
    inside the grid, each with the name of the move and its listed cost. *)
Theorem successors_are_the_moves_inside_the_grid s gs s' a c :
  (s', a, c) ∈ get_successors s gs <->
  s' = move_to s a /\ in_bounds gs s' = true /\ c = move_cost a.
Proof.
  rewrite get_successors_spec. unfold step_cell. split.
  - intros [H ->]. destruct (in_bounds gs (move_to s a)) eqn:Hb; [| done].
    injection H as <-. done.
  - intros (-> & Hb & ->). by rewrite Hb.
Qed.

(** X2.  The successors come in the fixed order Up, Right, Bottom,
    Bottom-Right, Left, Top-Left (some may be missing), and no cell is
    listed twice. *)
Theorem successors_keep_the_fixed_order s gs :
  sublist ((fun x : Cell * Action * Q => x.1.2) <$> get_successors s gs)
          [Up; Right; Bottom; BottomRight; Left; TopLeft]
  /\ NoDup ((fun x : Cell * Action * Q => x.1.1) <$> get_successors s gs).
Proof.
  destruct s as [row col]. unfold get_successors. cbn [flat_map actions].
  split.
  - repeat match goal with
           | |- context [in_bounds gs ?x] => destruct (in_bounds gs x)
           end;
      cbn; repeat (first [apply sublist_skip | apply sublist_cons]);
      apply sublist_nil.
  - repeat match goal with
           | |- context [in_bounds gs ?x] => destruct (in_bounds gs x)
           end;
      cbn; repeat (apply NoDup_cons; split;
                   [rewrite ?elem_of_cons, elem_of_nil;
                    intros H; repeat destruct H as [H | H]; try done;
                    injection H; lia |]);
      apply NoDup_nil_2.
Qed.

(** X3.  A cell with a free cell on every side has all six successors, in
    the fixed order and with the listed costs; on a grid without rows or
    without columns no cell has any. *)
Theorem successors_of_inner_cell_and_of_empty_grid row col rows cols :
  (0 < row < rows - 1 -> 0 < col < cols - 1 ->
   get_successors (row, col) (rows, cols)
   = [ ((row - 1, col), Up, 1%Q);
       ((row, col + 1), Right, 1%Q);
       ((row + 1, col), Bottom, 1%Q);
       ((row + 1, col + 1), BottomRight, (3 # 2)%Q);
       ((row, col - 1), Left, 1%Q);
       ((row - 1, col - 1), TopLeft, (3 # 2)%Q) ])
  /\ (rows <= 0 \/ cols <= 0 -> get_successors (row, col) (rows, cols) = []).
Proof.
  split.
  - intros Hr Hc. unfold get_successors. cbn [flat_map actions].
    rewrite !(proj2 (in_bounds_spec _ _)) by (cbn; lia). cbn.
    replace (row + -1) with (row - 1) by lia.
    replace (col + -1) with (col - 1) by lia.
    by rewrite !Z.add_0_r.
  - intros Hempty.
    assert (forall x, in_bounds (rows, cols) x = false) as Hout.
    { intros x. destruct (in_bounds (rows, cols) x) eqn:Hb; [| done].
      apply in_bounds_spec in Hb. cbn in Hb. lia. }
    unfold get_successors. cbn [flat_map actions]. by rewrite !Hout.
Qed.

Lemma successors_of_inner_cell_and_of_empty_grid_witness :
  get_successors (1, 1) (3, 3)
  = [ ((1 - 1, 1), Up, 1%Q);
      ((1, 1 + 1), Right, 1%Q);
      ((1 + 1, 1), Bottom, 1%Q);
      ((1 + 1, 1 + 1), BottomRight, (3 # 2)%Q);
      ((1, 1 - 1), Left, 1%Q);
      ((1 - 1, 1 - 1), TopLeft, (3 # 2)%Q) ].
Proof.
  apply (successors_of_inner_cell_and_of_empty_grid 1 1 3 3); lia.
Defined.

(** X4.  Every move out of a cell of the grid can be undone: if [s'] is a
    successor of the in-grid cell [s] by a move, then [s] is a successor of
    [s'] by the inverse move, at the same cost. *)
Theorem successor_moves_can_be_undone gs s s' a c :
  in_bounds gs s = true ->
  (s', a, c) ∈ get_successors s gs ->
  exists b, get_inverse_action (Some a) = Some b
            /\ (s, b, c) ∈ get_successors s' gs.
Proof.
  intros Hs [Hstep ->]%get_successors_spec.
  destruct (inverse_move_back gs s a s' Hs Hstep) as (b & Hinv & Hback).
  exists b. split; [done |]. apply get_successors_spec. split; [done |].
  destruct a; cbn in Hinv; by injection Hinv as <-.
Qed.

Lemma successor_moves_can_be_undone_witness :
  exists b, get_inverse_action (Some BottomRight) = Some b
            /\ ((0, 0), b, (3 # 2)%Q) ∈ get_successors (1, 1) (2, 2).
Proof.
  apply (successor_moves_can_be_undone (2, 2) (0, 0) (1, 1) BottomRight);
    [reflexivity |].
  apply get_successors_spec. split; reflexivity.
Defined.

(** X5.  [get_inverse_action] is its own inverse; it sends a move to the
    move with the opposite displacement and the same cost, and leaves a
    missing action as it is. *)
Theorem inverse_action_is_an_involution :
  (forall x, get_inverse_action (get_inverse_action x) = x)
  /\ (forall a, exists b,
         get_inverse_action (Some a) = Some b
         /\ (moves b).1 = - (moves a).1 /\ (moves b).2 = - (moves a).2
         /\ move_cost b = move_cost a)
  /\ get_inverse_action None = None.
Proof.
  split; [by intros [[] |] |]. split; [| done].
  intros []; eexists; (split; [done |]); done.
Qed.

(** ** Depth-limited and iterative-deepening search *)

(** X6.  A path returned by [dls] never has more moves than the limit, and
    it replays from [start] to [goal]. *)
Theorem dls_path_is_within_the_limit gs start goal limit p :
  dls start goal gs limit = Found p ->
  Z.of_nat (length p) <= Z.max limit 0
  /\ replay gs start p = Some goal.
Proof.
  intros [Hp Hlen]%dls_sound. split; [lia | done].
Qed.

Lemma dls_path_is_within_the_limit_witness :
  Z.of_nat (length [Some Right; Some Right; Some Bottom; Some Bottom])
  <= Z.max 6 0
  /\ replay (3, 3) (0, 0) [Some Right; Some Right; Some Bottom; Some Bottom]
     = Some (2, 2).
Proof.
  apply (dls_path_is_within_the_limit (3, 3) (0, 0) (2, 2) 6).
  vm_compute. reflexivity.
Defined.



(** X8.  A limit of zero or less is not refused: [dls] then returns the
    empty path when [start] is [goal], and the cutoff value otherwise. *)
Theorem dls_with_no_depth_left gs start goal limit :
  limit <= 0 ->
  dls start goal gs limit = if decide (start = goal) then Found [] else Cutoff.
Proof.
  intros Hle. unfold dls. replace (Z.to_nat limit) with 0%nat by lia.
  cbn. by case_decide.
Qed.

Lemma dls_with_no_depth_left_witness :
  dls (0, 0) (0, 1) (2, 2) (-3)
  = if decide ((0, 0) = ((0, 1) : Cell)) then Found [] else Cutoff.
Proof. apply (dls_with_no_depth_left (2, 2) (0, 0) (0, 1) (-3)). lia. Defined.

Lemma iddfs_from_first_found gs start goal (dmin : Z) (n : nat) :
  forall d,
    0 <= d <= dmin -> dmin < d + Z.of_nat n ->
    (forall d', d <= d' < dmin -> not_found (dls start goal gs d')) ->
    is_found (dls start goal gs dmin) = true ->
    iddfs_from start goal gs d n = dls start goal gs dmin.
Proof.
  induction n as [| n IH]; intros d Hd Hn Hbelow Hat; [lia |].
  cbn [iddfs_from].
  destruct (decide (d = dmin)) as [-> | Hne].
  - by destruct (dls start goal gs dmin).
  - pose proof (Hbelow d ltac:(lia)) as Hnf.
    destruct (dls start goal gs d); [done | |];
      (apply IH; [lia | lia | | done]; intros d' Hd'; apply Hbelow; lia).
Qed.

(** X9.  When a shortest path has fewer moves than the depth ceiling,
    [iddfs] returns exactly what [dls] returns with the number of moves of a
    shortest path as its limit. *)
Theorem iddfs_is_dls_at_the_shortest_depth gs start goal max_depth pmin :
  shortest gs start goal pmin ->
  Z.of_nat (length pmin) < max_depth ->
  iddfs start goal gs max_depth
  = dls start goal gs (Z.of_nat (length pmin)).
Proof.
  intros [Hp Hmin] Hlt. unfold iddfs.
  apply iddfs_from_first_found; [lia | lia | |].
  - intros d' Hd'. destruct (dls start goal gs d') as [p | |] eqn:Hd;
      [| done | done].
    apply dls_sound in Hd as [Hrp Hlen]. specialize (Hmin p Hrp). lia.
  - destruct (dls_complete gs start goal (Z.of_nat (length pmin)) pmin)
      as [p ->]; [done | lia | done].
Qed.

Lemma iddfs_is_dls_at_the_shortest_depth_witness :
  iddfs (0, 0) (0, 1) (1, 2) 5
  = dls (0, 0) (0, 1) (1, 2) (Z.of_nat (length [Some Right])).
Proof.
  apply (iddfs_is_dls_at_the_shortest_depth (1, 2) (0, 0) (0, 1) 5
           [Some Right]); [| cbn; lia].
  split; [reflexivity |].
  intros [| x q]; [discriminate | cbn; lia].
Defined.

(** ** The step-wise variants *)

Lemma ends_with_path_terminal events po :
  ends_with_path events po -> terminal_path events = Some po.
Proof.
  intros (pre & -> & Hpre).
  induction Hpre as [| e pre He _ IH]; cbn; [done |].
  by destruct e.
Qed.

Lemma ends_with_path_singleton po : ends_with_path [EvPath po] po.
Proof. exists []. by split. Qed.

Lemma ends_with_path_cons e events po :
  is_path_event e = false -> ends_with_path events po ->
  ends_with_path (e :: events) po.
Proof.
  intros He (pre & -> & Hpre). exists (e :: pre). split; [done |].
  by constructor.
Qed.

Lemma ends_with_path_app pre events po :
  Forall (fun e => is_path_event e = false) pre ->
  ends_with_path events po -> ends_with_path (pre ++ events) po.
Proof.
  induction 1 as [| e pre He _ IH]; intros Hev; [done |].
  cbn. apply ends_with_path_cons; auto.
Qed.

Lemma until_path_ends events po :
  until_path events = (events, true) -> terminal_path events = Some po ->
  ends_with_path events po.
Proof.
  induction events as [| e events IH]; cbn [until_path terminal_path];
    [done |].
  destruct e as [f x c | p | d]; cbn [is_path_event].
  - destruct (until_path events) as [rest found] eqn:Hu.
    intros [= -> ->] Ht. apply ends_with_path_cons; auto.
  - intros [= <-] [= ->]. apply ends_with_path_singleton.
  - destruct (until_path events) as [rest found] eqn:Hu.
    intros [= -> ->] Ht. apply ends_with_path_cons; auto.
Qed.

Lemma until_path_no_path events :
  until_path events = (events, false) ->
  Forall (fun e => is_path_event e = false) events.
Proof.
  induction events as [| e events IH]; cbn [until_path]; [done |].
  destruct (is_path_event e) eqn:He; [done |].
  destruct (until_path events) as [rest found] eqn:Hu.
  intros [= -> ->]. constructor; auto.
Qed.

Lemma dfs_step_loop_ends gs goal (fuel : nat) :
  forall (F : list Node) (E : gset Cell) events,
    dfs_step_loop fuel goal gs F E = Some events ->
    exists po, ends_with_path events po.
Proof.
  induction fuel as [| fuel IH]; intros F E events; destruct F as [| n0 F];
    cbn [dfs_step_loop]; try done;
    try (intros [= <-]; eexists; apply ends_with_path_singleton).
  case_decide; [intros [= <-]; eexists; apply ends_with_path_singleton |].
  case_decide; [| apply IH].
  destruct (dfs_step_loop fuel _ _ _ _) as [rest |] eqn:Hrest; [| done].
  cbn. intros [= <-]. destruct (IH _ _ _ Hrest) as [po Hpo].
  exists po. by apply ends_with_path_cons.
Qed.

Lemma ucs_step_loop_ends gs goal (fuel : nat) :
  forall (F : list Node) (E : gset Cell) events,
    ucs_step_loop fuel goal gs F E = Some events ->
    exists po, ends_with_path events po.
Proof.
  induction fuel as [| fuel IH]; intros F E events; destruct F as [| n0 F];
    cbn [ucs_step_loop]; try done;
    try (intros [= <-]; eexists; apply ends_with_path_singleton).
  destruct (heappop (n0 :: F)) as [[x H'] |]; [| done].
  cbn [mbind option_bind].
  case_decide; [intros [= <-]; eexists; apply ends_with_path_singleton |].
  case_decide; [| apply IH].
  destruct (ucs_push _ _ _ _) as [H'' |]; [| done].
  cbn [mbind option_bind].
  destruct (ucs_step_loop fuel _ _ _ _) as [rest |] eqn:Hrest; [| done].
  cbn. intros [= <-]. destruct (IH _ _ _ Hrest) as [po Hpo].
  exists po. by apply ends_with_path_cons.
Qed.

Lemma bidi_step_loop_ends gs (fuel : nat) :
  forall (ff : list Node) (fe : gmap Cell Node)
         (bf : list Node) (be : gmap Cell Node) events,
    bidi_step_loop fuel gs ff fe bf be = Some events ->
    exists po, ends_with_path events po.
Proof.
  induction fuel as [| fuel IH]; intros ff fe bf be events;
    destruct ff as [| fn ff]; destruct bf as [| bn bf];
    cbn [bidi_step_loop]; try done;
    try (intros [= <-]; eexists; apply ends_with_path_singleton).
  destruct (bidi_expand be fn _ ff fe) as [[child met] | [ff2 fe2]].
  { intros [= <-]. eexists.
    apply ends_with_path_cons; [done | apply ends_with_path_singleton]. }
  destruct (bidi_expand fe2 bn _ bf be) as [[child met] | [bf2 be2]].
  { intros [= <-]. eexists.
    do 2 (apply ends_with_path_cons; [done |]).
    apply ends_with_path_singleton. }
  destruct (bidi_step_loop fuel _ _ _ _ _) as [rest |] eqn:Hrest; [| done].
  cbn. intros [= <-]. destruct (IH _ _ _ _ _ Hrest) as [po Hpo].
  exists po. by do 2 (apply ends_with_path_cons; [done |]).
Qed.

Lemma bfs_step_loop1_shape gs goal (fuel : nat) :
  forall (F : list Node) (E : gset Cell) events (returned : bool),
    bfs_step_loop1 fuel goal gs F E = Some (events, returned) ->
    if returned then exists po, ends_with_path events po
    else Forall (fun e => is_path_event e = false) events.
Proof.
  induction fuel as [| fuel IH]; intros F E events returned;
    destruct F as [| n0 F]; cbn [bfs_step_loop1]; try done;
    try (by intros [= <- <-]).
  destruct (bfs_step_expand goal n0 _ F E) as [p | [F' E']].
  { intros [= <- <-]. eexists.
    apply ends_with_path_cons; [done | apply ends_with_path_singleton]. }
  destruct (bfs_step_loop1 fuel goal gs F' E') as [[rest ret] |] eqn:Hrest;
    [| done].
  cbn. intros [= <- <-]. specialize (IH _ _ _ _ Hrest).
  destruct ret.
  - destruct IH as [po Hpo]. exists po. by apply ends_with_path_cons.
  - by constructor.
Qed.

Lemma bfs_step_loop2_shape gs goal (fuel : nat) :
  forall (F : list Node) (E : gset Cell) events (returned : bool),
    bfs_step_loop2 fuel goal gs F E = Some (events, returned) ->
    if returned then exists po, ends_with_path events po
    else Forall (fun e => is_path_event e = false) events.
Proof.
  induction fuel as [| fuel IH]; intros F E events returned;
    destruct F as [| n0 F]; cbn [bfs_step_loop2]; try done;
    try (by intros [= <- <-]).
  destruct (bfs_expand goal n0 _ _ F) as [p | F'].
  { intros [= <- <-]. eexists.
    apply ends_with_path_cons; [done | apply ends_with_path_singleton]. }
  destruct (bfs_step_loop2 fuel goal gs F' _) as [[rest ret] |] eqn:Hrest;
    [| done].
  cbn. intros [= <- <-]. specialize (IH _ _ _ _ Hrest).
  destruct ret.
  - destruct IH as [po Hpo]. exists po. by apply ends_with_path_cons.
  - by constructor.
Qed.

Lemma bfs_step_ends gs start goal (fuel : nat) events :
  bfs_step fuel start goal gs = Some events ->
  exists po, ends_with_path events po.
Proof.
  unfold bfs_step. case_decide.
  { intros [= <-]. eexists. apply ends_with_path_singleton. }
  destruct (bfs_step_loop1 fuel goal gs _ _) as [[events1 ret1] |] eqn:H1;
    [| done].
  apply bfs_step_loop1_shape in H1. destruct ret1.
  { intros [= <-]. destruct H1 as [po Hpo]. exists po.
    by apply ends_with_path_cons. }
  destruct (bfs_step_loop2 fuel goal gs _ _) as [[events2 ret2] |] eqn:H2;
    [| done].
  apply bfs_step_loop2_shape in H2. intros [= <-].
  destruct ret2.
  - destruct H2 as [po Hpo]. exists po. rewrite app_nil_r.
    apply ends_with_path_cons; [done |]. by apply ends_with_path_app.
  - exists None. apply ends_with_path_cons; [done |].
    apply ends_with_path_app; [done |].
    apply ends_with_path_app; [done |]. apply ends_with_path_singleton.
Qed.

(** X10.  [bfs_step] and [bfs] run out of fuel together; otherwise the
    events of [bfs_step] end with their only [path] event, and it carries
    what [bfs] returns: the path found, or [None]. *)
Theorem bfs_step_ends_with_what_bfs_returns gs start goal (fuel : nat) :
  match bfs fuel start goal gs with
  | Some r => exists events,
      bfs_step fuel start goal gs = Some events
      /\ ends_with_path events (result_path r)
  | None => bfs_step fuel start goal gs = None
  end.
Proof.
  pose proof (bfs_step_agrees gs start goal fuel) as Hag.
  destruct (bfs fuel start goal gs) as [r |];
    destruct (bfs_step fuel start goal gs) as [events |] eqn:Hs;
    cbn in Hag; try done.
  exists events. split; [done |].
  destruct (bfs_step_ends _ _ _ _ _ Hs) as [po Hpo].
  pose proof (ends_with_path_terminal _ _ Hpo). congruence.
Qed.

(** X11.  [dfs_step] and [dfs] run out of fuel together; otherwise the
    events of [dfs_step] end with their only [path] event, and it carries
    what [dfs] returns. *)
Theorem dfs_step_ends_with_what_dfs_returns gs start goal (fuel : nat) :
  match dfs fuel start goal gs with
  | Some r => exists events,
      dfs_step fuel start goal gs = Some events
      /\ ends_with_path events (result_path r)
  | None => dfs_step fuel start goal gs = None
  end.
Proof.
  pose proof (dfs_step_agrees gs start goal fuel) as Hag.
  destruct (dfs fuel start goal gs) as [r |];
    destruct (dfs_step fuel start goal gs) as [events |] eqn:Hs;
    cbn in Hag; try done.
  exists events. split; [done |].
  unfold dfs_step in Hs.
  destruct (dfs_step_loop fuel goal gs _ _) as [rest |] eqn:Hrest; [| done].
  cbn in Hs. injection Hs as <-.
  destruct (dfs_step_loop_ends _ _ _ _ _ _ Hrest) as [po Hpo].
  assert (ends_with_path (EvStep [start] ∅ None :: rest) po) as Hall
    by by apply ends_with_path_cons.
  pose proof (ends_with_path_terminal _ _ Hall). congruence.
Qed.

(** X12.  [ucs_step] and [ucs] run out of fuel together; otherwise the
    events of [ucs_step] end with their only [path] event, and it carries
    what [ucs] returns. *)
Theorem ucs_step_ends_with_what_ucs_returns gs start goal (fuel : nat) :
  match ucs fuel start goal gs with
  | Some r => exists events,
      ucs_step fuel start goal gs = Some events
      /\ ends_with_path events (result_path r)
  | None => ucs_step fuel start goal gs = None
  end.
Proof.
  pose proof (ucs_step_agrees gs start goal fuel) as Hag.
  destruct (ucs fuel start goal gs) as [r |];
    destruct (ucs_step fuel start goal gs) as [events |] eqn:Hs;
    cbn in Hag; try done.
  exists events. split; [done |].
  unfold ucs_step in Hs.
  destruct (heappush [] (root_node start)) as [h0 |]; [| done].
  cbn [mbind option_bind] in Hs.
  destruct (ucs_step_loop fuel goal gs _ _) as [rest |] eqn:Hrest; [| done].
  cbn in Hs. injection Hs as <-.
  destruct (ucs_step_loop_ends _ _ _ _ _ _ Hrest) as [po Hpo].
  assert (ends_with_path (EvStep (state <$> h0) ∅ None :: rest) po) as Hall
    by by apply ends_with_path_cons.
  pose proof (ends_with_path_terminal _ _ Hall). congruence.
Qed.

(** X13.  [bidirectional_search_step] and [bidirectional_search] run out of
    fuel together; otherwise the events end with their only [path] event,
    and it carries what [bidirectional_search] returns: the merged path, or
    [None]. *)
Theorem bidirectional_step_ends_with_what_batch_returns gs start goal
    (fuel : nat) :
  match bidirectional_search fuel start goal gs with
  | Some r => exists events,
      bidirectional_search_step fuel start goal gs = Some events
      /\ ends_with_path events (result_path r)
  | None => bidirectional_search_step fuel start goal gs = None
  end.
Proof.
  pose proof (bidirectional_search_step_agrees gs start goal fuel) as Hag.
  destruct (bidirectional_search fuel start goal gs) as [r |];
    destruct (bidirectional_search_step fuel start goal gs) as [events |]
      eqn:Hs; cbn in Hag; try done.
  exists events. split; [done |].
  assert (exists po, ends_with_path events po) as [po Hpo].
  { unfold bidirectional_search_step in Hs. case_decide.
    - injection Hs as <-. eexists. apply ends_with_path_singleton.
    - by eapply bidi_step_loop_ends. }
  pose proof (ends_with_path_terminal _ _ Hpo). congruence.
Qed.

Lemma iddfs_step_from_ends gs start goal (n : nat) :
  forall d,
    ends_with_path (iddfs_step_from start goal gs d n)
                   (result_path (iddfs_from start goal gs d n)).
Proof.
  induction n as [| n IH]; intros d; cbn [iddfs_step_from iddfs_from];
    [apply ends_with_path_singleton |].
  pose proof (dls_step_agrees gs start goal d) as Htr.
  destruct (dls start goal gs d) as [p | |]; cbn [dls_trace] in Htr;
    destruct Htr as [Hu Ht]; rewrite Hu.
  - rewrite app_nil_r. apply ends_with_path_cons; [done |].
    by apply until_path_ends.
  - apply ends_with_path_cons; [done |].
    apply ends_with_path_app; [by apply until_path_no_path | apply IH].
  - apply ends_with_path_cons; [done |].
    apply ends_with_path_app; [by apply until_path_no_path | apply IH].
Qed.

(** X14.  The events of [iddfs_step] end with their only [path] event, and
    it carries what [iddfs] returns: the path found, or [None] when the
    depth ceiling is exhausted. *)
Theorem iddfs_step_ends_with_what_iddfs_returns gs start goal max_depth :
  ends_with_path (iddfs_step start goal gs max_depth)
                 (result_path (iddfs start goal gs max_depth)).
Proof. apply iddfs_step_from_ends. Qed.

(** X15.  When [dls] finds a path, the events of [dls_step] end with their
    only [path] event, and it carries that path. *)
Theorem dls_step_ends_with_the_path_dls_finds gs start goal limit p :
  dls start goal gs limit = Found p ->
  ends_with_path (dls_step start goal gs limit) (Some p).
Proof.
  intros Hd. pose proof (dls_step_agrees gs start goal limit) as Htr.
  rewrite Hd in Htr. destruct Htr as [Hu Ht]. by apply until_path_ends.
Qed.

Lemma dls_step_ends_with_the_path_dls_finds_witness :
  ends_with_path (dls_step (0, 0) (0, 2) (1, 3) 2)
                 (Some [Some Right; Some Right]).
Proof.
  apply (dls_step_ends_with_the_path_dls_finds (1, 3) (0, 0) (0, 2) 2).
  vm_compute. reflexivity.
Defined.

Lemma log_depths_app events more :
  log_depths (events ++ more) = log_depths events ++ log_depths more.
Proof.
  induction events as [| e events IH]; [done |].
  destruct e; cbn; by rewrite ?IH.
Qed.

Lemma log_depths_until_path events :
  log_depths events = [] -> log_depths (until_path events).1 = [].
Proof.
  induction events as [| e events IH]; [done |].
  destruct e; cbn [until_path is_path_event log_depths]; try done;
    destruct (until_path events); cbn in *; auto.
Qed.

Lemma dls_step_loop_no_log
    (rec : Node -> gset Cell -> list Event * gset Cell)
    (node : Node) (succs : list (Cell * Action * Q)) :
  (forall child (ps : gset Cell), log_depths (rec child ps).1 = []) ->
  forall ps : gset Cell,
    log_depths (dls_step_loop rec node succs ps).1.1 = [].
Proof.
  intros Hrec. induction succs as [| [[s a] c] rest IH]; intros ps;
    cbn [dls_step_loop]; [done |].
  case_decide; [apply IH |].
  set (child := mkNode s (Some node) (Some a) (cost node + c)%Q
                       (depth node + 1)).
  pose proof (log_depths_until_path _ (Hrec child ps)) as Hlog.
  destruct (rec child ps) as [events ps1]. cbn [fst] in Hlog.
  destruct (until_path events) as [events' found]. cbn [fst] in Hlog.
  destruct found; [done |].
  specialize (IH ps1).
  destruct (dls_step_loop rec node rest ps1) as [[more found] ps2].
  cbn [fst] in *. by rewrite log_depths_app, Hlog, IH.
Qed.

Lemma recursive_dls_step_no_log gs goal (limit : nat) :
  forall (node : Node) (ps : gset Cell),
    log_depths (recursive_dls_step limit goal gs node ps).1 = [].
Proof.
  induction limit as [| limit IH]; intros node ps;
    cbn [recursive_dls_step]; case_decide; try done.
  pose proof (dls_step_loop_no_log _ node (get_successors (state node) gs)
                IH (ps ∪ {[ state node ]})) as Hloop.
  by destruct (dls_step_loop _ node _ _) as [[events found] ps1].
Qed.

Lemma iddfs_step_from_logs gs start goal (n : nat) :
  forall d,
    (forall d', d <= d' < d + Z.of_nat n ->
                not_found (dls start goal gs d')) ->
    log_depths (iddfs_step_from start goal gs d n) = seqZ d (Z.of_nat n).
Proof.
  induction n as [| n IH]; intros d Hnf; [done |].
  cbn [iddfs_step_from].
  pose proof (dls_step_agrees gs start goal d) as Htr.
  pose proof (Hnf d ltac:(lia)) as Hd.
  pose proof (recursive_dls_step_no_log gs goal (Z.to_nat d)
                (root_node start) ∅) as Hlog.
  fold (dls_step start goal gs d) in Hlog.
  rewrite seqZ_cons by lia.
  replace (Z.pred (Z.of_nat (S n))) with (Z.of_nat n) by lia.
  destruct (dls start goal gs d); [done | |]; cbn [dls_trace] in Htr;
    destruct Htr as [Hu _]; rewrite Hu; cbn [log_depths];
    rewrite log_depths_app, Hlog, IH; try done;
    intros d' Hd'; apply Hnf; lia.
Qed.

Lemma iddfs_step_from_logs_found gs start goal (dmin : Z) (n : nat) :
  forall d,
    0 <= d <= dmin -> dmin < d + Z.of_nat n ->
    (forall d', d <= d' < dmin -> not_found (dls start goal gs d')) ->
    is_found (dls start goal gs dmin) = true ->
    log_depths (iddfs_step_from start goal gs d n) = seqZ d (dmin - d + 1).
Proof.
  induction n as [| n IH]; intros d Hd Hn Hbelow Hat; [lia |].
  cbn [iddfs_step_from].
  pose proof (dls_step_agrees gs start goal d) as Htr.
  pose proof (recursive_dls_step_no_log gs goal (Z.to_nat d)
                (root_node start) ∅) as Hlog.
  fold (dls_step start goal gs d) in Hlog.
  rewrite seqZ_cons by lia.
  destruct (decide (d = dmin)) as [-> | Hne].
  - destruct (dls start goal gs dmin); [| done | done].
    cbn [dls_trace] in Htr. destruct Htr as [Hu _]. rewrite Hu.
    cbn [log_depths]. rewrite app_nil_r, Hlog.
    by replace (Z.pred (dmin - dmin + 1)) with 0 by lia.
  - pose proof (Hbelow d ltac:(lia)) as Hnf.
    replace (Z.pred (dmin - d + 1)) with (dmin - Z.succ d + 1) by lia.
    destruct (dls start goal gs d); [done | |]; cbn [dls_trace] in Htr;
      destruct Htr as [Hu _]; rewrite Hu; cbn [log_depths];
      rewrite log_depths_app, Hlog; cbn [app]; f_equal;
      (rewrite (IH (d + 1)); [f_equal; lia | lia | lia | | done]);
      intros d' Hd'; apply Hbelow; lia.
Qed.

(** X16.  [iddfs_step] announces each depth it tries with one [log] event,
    from depth 0 upwards: when a shortest path has fewer moves than the
    ceiling, the depths announced are 0 up to that number of moves; when no
    path is shorter than the ceiling, they are all the depths below it. *)
Theorem iddfs_step_logs_each_depth_tried gs start goal max_depth :
  (forall pmin,
      shortest gs start goal pmin -> Z.of_nat (length pmin) < max_depth ->
      log_depths (iddfs_step start goal gs max_depth)
      = seqZ 0 (Z.of_nat (length pmin) + 1))
  /\ ((forall q, replay gs start q = Some goal ->
                 max_depth <= Z.of_nat (length q)) ->
      log_depths (iddfs_step start goal gs max_depth) = seqZ 0 max_depth).
Proof.
  split.
  - intros pmin [Hp Hmin] Hlt. unfold iddfs_step.
    rewrite (iddfs_step_from_logs_found gs start goal
               (Z.of_nat (length pmin))); [f_equal; lia | lia | lia | |].
    + intros d' Hd'. destruct (dls start goal gs d') as [p | |] eqn:Hd;
        [| done | done].
      apply dls_sound in Hd as [Hrp Hlen]. specialize (Hmin p Hrp). lia.
    + destruct (dls_complete gs start goal (Z.of_nat (length pmin)) pmin)
        as [p ->]; [done | lia | done].
  - intros Hnone. unfold iddfs_step.
    rewrite iddfs_step_from_logs.
    + destruct (decide (0 <= max_depth)); [f_equal; lia |].
      rewrite !seqZ_nil; [done | lia | lia].
    + intros d' Hd'. destruct (dls start goal gs d') as [p | |] eqn:Hd;
        [| done | done].
      apply dls_sound in Hd as [Hrp Hlen]. specialize (Hnone p Hrp). lia.
Qed.

Lemma iddfs_step_logs_each_depth_tried_witness :
  log_depths (iddfs_step (0, 0) (0, 1) (1, 2) 5)
  = seqZ 0 (Z.of_nat (length [Some Right]) + 1).
Proof.
  apply (iddfs_step_logs_each_depth_tried (1, 2) (0, 0) (0, 1) 5);
    [| cbn; lia].
  split; [reflexivity |].
  intros [| x q]; [discriminate | cbn; lia].
Defined.

(** ** Depth-first search always finds a path *)

Lemma frontier_covers_reach (gs : Grid) (start goal : Cell)
    (F : list Node) (E : gset Cell) (q : Path) :
  frontier_covers gs start goal F E ->
  forall t, replay gs start q = Some t -> t ∈ E \/ exists m, m ∈ F.
Proof.
  intros Hinv. induction q as [| x q IH] using rev_ind; intros t.
  - cbn. intros [= <-].
    destruct (fc_start _ _ _ _ _ Hinv) as [? | (m & ? & ?)]; eauto.
  - rewrite replay_app.
    destruct (replay gs start q) as [t' |] eqn:Hq; [| done]. cbn.
    destruct x as [a |]; [| done].
    destruct (step_cell gs t' a) as [t'' |] eqn:Hstep; [| done].
    intros [= ->].
    destruct (IH t' eq_refl) as [HE | ?]; [| by right].
    destruct (fc_closed _ _ _ _ _ Hinv _ _ _ HE Hstep) as [? | (m & ? & ?)];
      eauto.
Qed.

Lemma dfs_push_keeps (node : Node) (E : gset Cell)
    (succs : list (Cell * Action * Q)) :
  forall (F : list Node) m, m ∈ F -> m ∈ dfs_push node E succs F.
Proof.
  induction succs as [| [[s a] c] rest IH]; intros F m Hm; cbn; [done |].
  case_decide; apply IH; [by right | done].
Qed.

Lemma dfs_push_covers (node : Node) (E : gset Cell)
    (succs : list (Cell * Action * Q)) :
  forall (F : list Node) x,
    x ∈ succs ->
    x.1.1 ∈ E \/ exists m, m ∈ dfs_push node E succs F /\ state m = x.1.1.
Proof.
  induction succs as [| [[s a] c] rest IH]; intros F x Hx;
    [by apply elem_of_nil in Hx |].
  cbn [dfs_push]. apply elem_of_cons in Hx as [-> | Hx].
  - cbn [fst snd]. case_decide as Hnew.
    + right. eexists. split; [apply dfs_push_keeps; by left | done].
    + left. by destruct (decide (s ∈ E)).
  - case_decide; by apply IH.
Qed.

Lemma dfs_loop_complete (gs : Grid) (start goal : Cell) (fuel : nat) :
  forall (F : list Node) (E : gset Cell) (E' : gset Cell),
    frontier_covers gs start goal F E ->
    dfs_loop fuel goal gs F E = Some (NoPath, E') ->
    forall q, replay gs start q <> Some goal.
Proof.
  induction fuel as [| fuel IH]; intros F E E' Hinv;
    destruct F as [| n0 F]; cbn [dfs_loop]; try done.
  - intros _ q Hq.
    destruct (frontier_covers_reach _ _ _ _ _ q Hinv goal Hq)
      as [? | [m Hm]]; [by apply (fc_goal _ _ _ _ _ Hinv) |].
    by apply elem_of_nil in Hm.
  - intros _ q Hq.
    destruct (frontier_covers_reach _ _ _ _ _ q Hinv goal Hq)
      as [? | [m Hm]]; [by apply (fc_goal _ _ _ _ _ Hinv) |].
    by apply elem_of_nil in Hm.
  - destruct Hinv as [Hclosed Hstart Hgoal].
    case_decide as Hg; [done |]. case_decide as Hnew; apply IH.
    + split.
      * intros s a s' [HsE | ->%elem_of_singleton]%elem_of_union Hstep.
        -- destruct (Hclosed _ _ _ HsE Hstep) as [? | (m & Hm & Hst)];
             [left; set_solver |].
           apply elem_of_cons in Hm as [-> | Hm]; [left; set_solver |].
           right. exists m. split; [by apply dfs_push_keeps | done].
        -- assert ((s', a, move_cost a)
                     ∈ rev (get_successors (state n0) gs)) as Hin
             by (rewrite elem_of_rev; by apply get_successors_spec).
           apply (dfs_push_covers n0 (E ∪ {[ state n0 ]}) _ F) in Hin.
           exact Hin.
      * destruct Hstart as [? | (m & Hm & Hst)]; [left; set_solver |].
        apply elem_of_cons in Hm as [-> | Hm]; [left; set_solver |].
        right. exists m. split; [by apply dfs_push_keeps | done].
      * set_solver.
    + assert (state n0 ∈ E) as HE by by destruct (decide (state n0 ∈ E)).
      split; [| | done].
      * intros s a s' HsE Hstep.
        destruct (Hclosed _ _ _ HsE Hstep) as [? | (m & Hm & Hst)];
          [by left |].
        apply elem_of_cons in Hm as [-> | Hm]; [left; by rewrite <- Hst |].
        right. eauto.
      * destruct Hstart as [? | (m & Hm & Hst)]; [by left |].
        apply elem_of_cons in Hm as [-> | Hm]; [left; by rewrite <- Hst |].
        right. eauto.
Qed.

Lemma dfs_none_without_path (gs : Grid) (start goal : Cell) (fuel : nat) :
  dfs fuel start goal gs = Some NoPath ->
  forall q, replay gs start q <> Some goal.
Proof.
  unfold dfs, dfs_run.
  destruct (dfs_loop fuel goal gs _ _) as [[r E'] |] eqn:Hloop; [| done].
  cbn. intros [= ->]. eapply dfs_loop_complete; [| exact Hloop].
  split; [set_solver | | set_solver].
  right. exists (root_node start). split; [by left | done].
Qed.

Lemma dfs_never_cutoff (gs : Grid) (start goal : Cell) (fuel : nat) :
  dfs fuel start goal gs <> Some Cutoff.
Proof.
  unfold dfs, dfs_run.
  destruct (dfs_loop fuel goal gs _ _) as [[r E'] |] eqn:Hloop; [| done].
  cbn. intros [= ->]. revert Hloop. generalize [root_node start].
  generalize (∅ : gset Cell).
  induction fuel as [| fuel IH]; intros E F; destruct F as [| n0 F];
    cbn [dfs_loop]; try done.
  repeat case_decide; try done; apply IH.
Qed.

Lemma dfs_found_in_grid (gs : Grid) (start goal : Cell) :
  in_bounds gs start = true -> in_bounds gs goal = true ->
  exists fuel p, dfs fuel start goal gs = Some (Found p).
Proof.
  intros Hs Hg.
  destruct (dfs_terminates gs start goal) as (fuel & r & Hrun).
  destruct r as [p | |].
  - by exists fuel, p.
  - destruct (grid_path_exists gs start goal Hs Hg) as [q Hq].
    by destruct (dfs_none_without_path gs start goal fuel Hrun q).
  - by destruct (dfs_never_cutoff gs start goal fuel).
Qed.

(** X17.  [dfs] returns [None] only when no path leads from [start] to
    [goal]; for two cells of the grid it returns a path, which replays from
    [start] to [goal]. *)
Theorem dfs_finds_a_path_when_one_exists (gs : Grid) (start goal : Cell) :
  (forall fuel, dfs fuel start goal gs = Some NoPath ->
                forall q, replay gs start q <> Some goal)
  /\ (in_bounds gs start = true -> in_bounds gs goal = true ->
      exists p, returns (fun fuel => dfs fuel start goal gs) (Found p)
                /\ replay gs start p = Some goal).
Proof.
  split; [intros fuel; apply dfs_none_without_path |].
  intros Hs Hg.
  destruct (dfs_found_in_grid gs start goal Hs Hg) as (fuel & p & Hrun).
  exists p. split; [| by eapply dfs_sound].
  eapply returns_intro; [| exact Hrun]. intros f f' r'. apply dfs_mono.
Qed.

Lemma dfs_finds_a_path_when_one_exists_witness :
  exists p, returns (fun fuel => dfs fuel (0, 0) (2, 2) (3, 3)) (Found p)
            /\ replay (3, 3) (0, 0) p = Some (2, 2).
Proof.
  apply (dfs_finds_a_path_when_one_exists (3, 3) (0, 0) (2, 2)); reflexivity.
Defined.

(** ** Bidirectional search always finds a path *)

Lemma closed_set_reach (gs : Grid) (D : gset Cell) (s0 : Cell) (q : Path) :
  (forall s a s', s ∈ D -> step_cell gs s a = Some s' -> s' ∈ D) ->
  s0 ∈ D -> forall t, replay gs s0 q = Some t -> t ∈ D.
Proof.
  intros Hclosed Hs0. induction q as [| x q IH] using rev_ind; intros t.
  - cbn. by intros [= <-].
  - rewrite replay_app.
    destruct (replay gs s0 q) as [t' |] eqn:Hq; [| done]. cbn.
    destruct x as [a |]; [| done].
    destruct (step_cell gs t' a) as [t'' |] eqn:Hstep; [| done].
    intros [= ->]. eapply Hclosed; [by apply IH | done].
Qed.

Lemma bidi_expand_covers (other : gmap Cell Node) (node : Node)
    (succs : list (Cell * Action * Q)) :
  forall (F : list Node) (E : gmap Cell Node),
    match bidi_expand other node succs F E with
    | inl _ => True
    | inr (F', E') =>
        dom E ⊆ dom E'
        /\ (forall m, m ∈ F -> m ∈ F')
        /\ (forall x, x ∈ succs -> x.1.1 ∈ dom E')
        /\ (forall s, s ∈ dom E' ->
              s ∈ dom E
              \/ (other !! s = None /\ exists m, m ∈ F' /\ state m = s))
    end.
Proof.
  induction succs as [| [[s a] c] rest IH]; intros F E; cbn [bidi_expand].
  - split_and!; [done | done | | by left].
    intros x Hx. by apply elem_of_nil in Hx.
  - destruct (E !! s) as [old |] eqn:HEs.
    + specialize (IH F E).
      destruct (bidi_expand other node rest F E) as [| [F' E']]; [done |].
      destruct IH as (Hdom & HF & Hsucc & Hnew).
      split_and!; [done | done | | done].
      intros x [-> | Hx]%elem_of_cons; [| by apply Hsucc].
      cbn. apply Hdom, elem_of_dom. by eexists.
    + destruct (other !! s) as [met |] eqn:Hos; [done |].
      match goal with
      | |- context [bidi_expand other node rest ?F1 ?E1] =>
          specialize (IH F1 E1);
          destruct (bidi_expand other node rest F1 E1) as [| [F' E']];
          [done |]
      end.
      destruct IH as (Hdom & HF & Hsucc & Hnew).
      rewrite dom_insert_L in Hdom, Hnew.
      split_and!.
      * set_solver.
      * intros m Hm. apply HF, elem_of_app. by left.
      * intros x [-> | Hx]%elem_of_cons; [| by apply Hsucc].
        cbn. set_solver.
      * intros s0 Hs0. destruct (Hnew s0 Hs0) as [Hin | ?]; [| by right].
        apply elem_of_union in Hin as [Heq | ?]; [| by left].
        apply elem_of_singleton in Heq as ->.
        right. split; [done |].
        exists (mkNode s (Some node) (Some a) (cost node + c)%Q 0).
        split; [| done].
        apply HF, elem_of_app. right. by apply list_elem_of_singleton.
Qed.

Lemma side_closed_expand (gs : Grid) (other : gmap Cell Node) (node : Node)
    (F : list Node) (E : gmap Cell Node)
    (F' : list Node) (E' : gmap Cell Node) :
  side_closed gs (node :: F) E ->
  bidi_expand other node (get_successors (state node) gs) F E
  = inr (F', E') ->
  side_closed gs F' E'
  /\ dom E ⊆ dom E'
  /\ (forall s, s ∈ dom E' -> s ∈ dom E \/ other !! s = None).
Proof.
  intros Hclosed Hrun.
  pose proof (bidi_expand_covers other node
                (get_successors (state node) gs) F E) as Hcov.
  rewrite Hrun in Hcov. destruct Hcov as (Hdom & HF & Hsucc & Hnew).
  split; [| split; [done |]].
  - intros s Hs. destruct (Hnew s Hs) as [HsE | [_ ?]]; [| by left].
    destruct (Hclosed s HsE) as [(m & Hm & Hst) | Hall].
    + apply elem_of_cons in Hm as [-> | Hm]; [| left; eauto].
      right. intros a s' Hstep. subst s.
      apply (Hsucc (s', a, move_cost a)). by apply get_successors_spec.
    + right. intros a s' Hstep. apply Hdom. by eapply Hall.
  - intros s Hs. destruct (Hnew s Hs) as [? | [? _]]; [by left | by right].
Qed.

Lemma bidi_loop_complete (gs : Grid) (start goal : Cell) (fuel : nat) :
  forall (ff : list Node) (fe : gmap Cell Node)
         (bf : list Node) (be : gmap Cell Node),
    bidi_inv gs start goal ff fe bf be ->
    bidi_loop fuel gs ff fe bf be = Some None ->
    (forall q, replay gs start q <> Some goal)
    \/ (forall q, replay gs goal q <> Some start).
Proof.
  assert (forall (ff : list Node) (fe : gmap Cell Node)
                 (bf : list Node) (be : gmap Cell Node),
            bidi_inv gs start goal ff fe bf be -> ff = [] \/ bf = [] ->
            (forall q, replay gs start q <> Some goal)
            \/ (forall q, replay gs goal q <> Some start)) as Hend.
  { intros ff fe bf be [Hf Hb Hs Hg Hapart] [-> | ->].
    - left. intros q Hq. apply (Hapart goal); [| done].
      eapply closed_set_reach; [| exact Hs | exact Hq].
      intros s a s' HsD Hstep.
      destruct (Hf s HsD) as [(m & Hm & _) | Hall];
        [by apply elem_of_nil in Hm | by eapply Hall].
    - right. intros q Hq. apply (Hapart start); [done |].
      eapply closed_set_reach; [| exact Hg | exact Hq].
      intros s a s' HsD Hstep.
      destruct (Hb s HsD) as [(m & Hm & _) | Hall];
        [by apply elem_of_nil in Hm | by eapply Hall]. }
  induction fuel as [| fuel IH]; intros ff fe bf be Hinv;
    destruct ff as [| f_node ff]; destruct bf as [| b_node bf];
    cbn [bidi_loop]; try done;
    try (intros _; eapply Hend; [exact Hinv | by auto]).
  destruct (bidi_expand be f_node _ ff fe) as [[? ?] | [ff' fe']] eqn:Hfwd;
    [done |].
  destruct (bidi_expand fe' b_node _ bf be) as [[? ?] | [bf' be']] eqn:Hbwd;
    [done |].
  apply IH. destruct Hinv as [Hf Hb Hs Hg Hapart].
  destruct (side_closed_expand _ _ _ _ _ _ _ Hf Hfwd)
    as (Hf' & Hfdom & Hfnew).
  destruct (side_closed_expand _ _ _ _ _ _ _ Hb Hbwd)
    as (Hb' & Hbdom & Hbnew).
  split; [done | done | by apply Hfdom | by apply Hbdom |].
  intros s Hsf Hsb.
  destruct (Hbnew s Hsb) as [HsE | Hnone].
  - destruct (Hfnew s Hsf) as [? | Hnone]; [by apply (Hapart s) |].
    apply elem_of_dom in HsE as [? HsE]. congruence.
  - apply elem_of_dom in Hsf as [? Hsf]. congruence.
Qed.

Lemma bidirectional_none_without_path (gs : Grid) (start goal : Cell)
    (fuel : nat) :
  bidirectional_search fuel start goal gs = Some NoPath ->
  (forall q, replay gs start q <> Some goal)
  \/ (forall q, replay gs goal q <> Some start).
Proof.
  unfold bidirectional_search, bidirectional_meet.
  case_decide as Hne; [done |].
  destruct (bidi_loop fuel gs _ _ _ _) as [[[f b] |] |] eqn:Hloop;
    [done | | done].
  intros _. eapply bidi_loop_complete; [| exact Hloop].
  split.
  - intros s Hs. left. exists (root_node start).
    split; [by left | set_solver].
  - intros s Hs. left. exists (root_node goal).
    split; [by left | set_solver].
  - set_solver.
  - set_solver.
  - set_solver.
Qed.

Lemma bidirectional_found_in_grid (gs : Grid) (start goal : Cell) :
  in_bounds gs start = true -> in_bounds gs goal = true ->
  exists fuel p, bidirectional_search fuel start goal gs = Some (Found p).
Proof.
  intros Hs Hg.
  destruct (bidirectional_search_terminates gs start goal)
    as (fuel & r & Hrun).
  destruct r as [p | |].
  - by exists fuel, p.
  - destruct (bidirectional_none_without_path gs start goal fuel Hrun)
      as [Hno | Hno].
    + destruct (grid_path_exists gs start goal Hs Hg) as [q Hq].
      by destruct (Hno q).
    + destruct (grid_path_exists gs goal start Hg Hs) as [q Hq].
      by destruct (Hno q).
  - exfalso. revert Hrun. unfold bidirectional_search.
    case_decide; [done |].
    by destruct (bidirectional_meet fuel start goal gs) as [[[? ?] |] |].
Qed.

(** X18.  [bidirectional_search] returns [None] only when no path leads
    from [start] to [goal] or none leads back; for two cells of the grid it
    returns a path, which replays from [start] to [goal]. *)
Theorem bidirectional_search_finds_a_path_when_one_exists
    (gs : Grid) (start goal : Cell) :
  (forall fuel, bidirectional_search fuel start goal gs = Some NoPath ->
                (forall q, replay gs start q <> Some goal)
                \/ (forall q, replay gs goal q <> Some start))
  /\ (in_bounds gs start = true -> in_bounds gs goal = true ->
      exists p,
        returns (fun fuel => bidirectional_search fuel start goal gs)
                (Found p)
        /\ replay gs start p = Some goal).
Proof.
  split; [intros fuel; apply bidirectional_none_without_path |].
  intros Hs Hg.
  destruct (bidirectional_found_in_grid gs start goal Hs Hg)
    as (fuel & p & Hrun).
  exists p. split; [| by eapply bidirectional_search_sound].
  eapply returns_intro; [| exact Hrun].
  intros f f' r'. apply bidirectional_search_mono.
Qed.

Lemma bidirectional_search_finds_a_path_when_one_exists_witness :
  exists p,
    returns (fun fuel => bidirectional_search fuel (0, 0) (2, 2) (3, 3))
            (Found p)
    /\ replay (3, 3) (0, 0) p = Some (2, 2).
Proof.
  apply (bidirectional_search_finds_a_path_when_one_exists
           (3, 3) (0, 0) (2, 2)); reflexivity.
Defined.

(** ** The visualizer: the grid, the clicks and the positions *)

Lemma set_canvas_id (g : SearchGUI) : set_canvas (canvas g) g = g.
Proof. by destruct g. Qed.

Lemma set_canvas_twice (cv cv' : gmap Cell Rectangle) (g : SearchGUI) :
  set_canvas cv' (set_canvas cv g) = set_canvas cv' g.
Proof. done. Qed.

Lemma foldl_draw_cell (g : SearchGUI) (rc : Cell) (cells : list Cell) :
  forall cv : gmap Cell Rectangle,
    foldl (draw_cell g) cv cells !! rc
    = if decide (rc ∈ cells)
      then Some (mkRectangle (rc.2 * CELL_SIZE) (rc.1 * CELL_SIZE)
                             (rc.2 * CELL_SIZE + CELL_SIZE)
                             (rc.1 * CELL_SIZE + CELL_SIZE)
                             (cell_color g rc))
      else cv !! rc.
Proof.
  induction cells as [| x cells IH]; intros cv; cbn [foldl].
  - by rewrite decide_False by apply not_elem_of_nil.
  - rewrite IH. destruct (decide (rc ∈ cells)) as [Hin | Hnin].
    + by rewrite decide_True by (by right).
    + unfold draw_cell. destruct (decide (x = rc)) as [-> | Hne].
      * rewrite decide_True by (by left). by rewrite lookup_insert_eq.
      * rewrite decide_False by (by intros [-> | ?]%elem_of_cons).
        by rewrite lookup_insert_ne.
Qed.

Lemma draw_grid_lookup (g : SearchGUI) (rc : Cell) :
  canvas (draw_grid g) !! rc
  = if in_bounds gui_grid_size rc
    then Some (mkRectangle (rc.2 * CELL_SIZE) (rc.1 * CELL_SIZE)
                           (rc.2 * CELL_SIZE + CELL_SIZE)
                           (rc.1 * CELL_SIZE + CELL_SIZE)
                           (cell_color g rc))
    else None.
Proof.
  cbn [draw_grid set_canvas canvas]. rewrite foldl_draw_cell.
  pose proof (elem_of_grid_cells gui_grid_size rc) as Hcells.
  unfold grid_cells in Hcells. rewrite elem_of_list_to_set in Hcells.
  destruct (in_bounds gui_grid_size rc).
  - by rewrite decide_True by by apply Hcells.
  - rewrite decide_False; [done |]. intros Hin. by apply Hcells in Hin.
Qed.

Lemma click_cell_in_grid (x y : Z) :
  (0 <=? y / CELL_SIZE) && (y / CELL_SIZE <? ROWS)
    && (0 <=? x / CELL_SIZE) && (x / CELL_SIZE <? COLS)
  = in_bounds gui_grid_size (y / CELL_SIZE, x / CELL_SIZE).
Proof. done. Qed.

Lemma update_cell_color_canvas (g : SearchGUI) (rc : Cell) (color : Color) :
  exists cv, update_cell_color g rc color = set_canvas cv g.
Proof.
  unfold update_cell_color. case_decide; [| by eexists].
  exists (canvas g). by rewrite set_canvas_id.
Qed.

Lemma paint_cells_canvas (color : Color) (cells : list Cell) :
  forall g : SearchGUI,
    exists cv, paint_cells color cells g = set_canvas cv g.
Proof.
  unfold paint_cells.
  induction cells as [| rc cells IH]; intros g; cbn [foldl].
  - exists (canvas g). by rewrite set_canvas_id.
  - destruct (update_cell_color_canvas g rc color) as [cv1 ->].
    destruct (IH (set_canvas cv1 g)) as [cv ->]. by exists cv.
Qed.

Lemma display_path_loop_canvas (actions : Path) :
  forall (g : SearchGUI) (rc : Cell),
    exists cv, display_path_loop g rc actions = set_canvas cv g.
Proof.
  induction actions as [| [a |] rest IH]; intros g rc;
    cbn [display_path_loop].
  - exists (canvas g). by rewrite set_canvas_id.
  - case_decide; [| apply IH].
    destruct (update_cell_color_canvas g (move_to rc a) COLOR_PATH)
      as [cv1 ->].
    destruct (IH (set_canvas cv1 g) (move_to rc a)) as [cv ->]. by exists cv.
  - apply IH.
Qed.

Lemma step_search_positions (g g' : SearchGUI) (s : bool) :
  step_search g = Some (g', s) ->
  start_pos g' = start_pos g /\ goal_pos g' = goal_pos g.
Proof.
  unfold step_search. destruct (running g); cbn [negb];
    [| by intros [= <- _]].
  destruct (generator g) as [[| [frontier explored current | path |] rest] |];
    [| | | | done].
  - by intros [= <- _].
  - intros [= <- _].
    destruct (paint_cells_canvas COLOR_EXPLORED (elements explored)
                (set_generator (Some rest) g)) as [cv1 ->].
    destruct (paint_cells_canvas COLOR_FRONTIER frontier
                (set_canvas cv1 (set_generator (Some rest) g))) as [cv2 ->].
    destruct current as [rc |]; [| done].
    by destruct (update_cell_color_canvas
                   (set_canvas cv2
                      (set_canvas cv1 (set_generator (Some rest) g)))
                   rc COLOR_CURRENT) as [cv3 ->].
  - destruct path as [p |]; intros [= <- _]; [| done].
    unfold display_path_result.
    by destruct (display_path_loop_canvas p (set_running false
                   (set_generator (Some rest) g))
                   (start_pos (set_running false
                      (set_generator (Some rest) g)))) as [cv ->].
  - by intros [= <- _].
Qed.

(** X19.  The start and the goal of the visualizer are always two different
    cells of the 20 by 20 grid: this holds when the window opens, and a left
    click, a right click, a reset, a press of Run Search and a step of the
    animation all keep it. *)
Theorem visualizer_keeps_start_and_goal_apart :
  positions_ok gui_init
  /\ forall g : SearchGUI,
       positions_ok g ->
       (forall x y, positions_ok (on_click g x y))
       /\ (forall x y, positions_ok (on_right_click g x y))
       /\ positions_ok (reset_visualization g)
       /\ (forall g' s, step_search g = Some (g', s) -> positions_ok g')
       /\ (forall fuel g' s,
              run_search fuel g = Some (g', s) -> positions_ok g').
Proof.
  split; [by repeat split |].
  intros g Hok. pose proof Hok as (Hs & Hg & Hne).
  assert (forall g0 g' s,
            positions_ok g0 -> step_search g0 = Some (g', s) ->
            positions_ok g') as Hstep.
  { intros g0 g' s Hok0 Hrun.
    destruct (step_search_positions _ _ _ Hrun) as [H1 H2].
    unfold positions_ok. by rewrite H1, H2. }
  split_and!.
  - intros x y. unfold on_click. rewrite click_cell_in_grid.
    destruct (in_bounds gui_grid_size (y / CELL_SIZE, x / CELL_SIZE))
      eqn:Hin; [| done].
    case_decide; [| done]. by split_and!.
  - intros x y. unfold on_right_click. rewrite click_cell_in_grid.
    destruct (in_bounds gui_grid_size (y / CELL_SIZE, x / CELL_SIZE))
      eqn:Hin; [| done].
    case_decide; [| done]. split_and!; [done | done |]. cbn. congruence.
  - done.
  - intros g' s. by apply Hstep.
  - intros fuel g' s. unfold run_search.
    destruct (running g); [by intros [= <- _] |].
    match goal with
    | |- context [mbind _ ?gen] => destruct gen as [events |]
    end; [| done].
    cbn [mbind option_bind]. by apply Hstep.
Qed.

Lemma visualizer_keeps_start_and_goal_apart_witness :
  positions_ok (on_right_click (on_click gui_init 130 60) 30 470).
Proof.
  destruct visualizer_keeps_start_and_goal_apart as [Hinit Hkeep].
  destruct (Hkeep gui_init Hinit) as (Hclick & _).
  destruct (Hkeep (on_click gui_init 130 60) (Hclick 130 60))
    as (_ & Hright & _).
  exact (Hright 30 470).
Defined.

(** X20.  A left click inside the rectangle that [draw_grid] draws for a
    cell other than the goal makes that cell the start and shows it in the
    start colour; a left click outside the grid or on the goal cell changes
    nothing.  Right clicks do the same for the goal. *)
Theorem click_selects_the_cell_under_the_pointer
    (g : SearchGUI) (x y : Z) :
  (forall rc rect,
      canvas (draw_grid g) !! rc = Some rect ->
      rect_x1 rect <= x < rect_x2 rect ->
      rect_y1 rect <= y < rect_y2 rect ->
      (rc <> goal_pos g ->
       start_pos (on_click g x y) = rc
       /\ goal_pos (on_click g x y) = goal_pos g
       /\ shown (on_click g x y) rc = Some COLOR_START)
      /\ (rc <> start_pos g ->
          goal_pos (on_right_click g x y) = rc
          /\ start_pos (on_right_click g x y) = start_pos g
          /\ shown (on_right_click g x y) rc = Some COLOR_GOAL)
      /\ (rc = goal_pos g -> on_click g x y = g)
      /\ (rc = start_pos g -> on_right_click g x y = g))
  /\ (x < 0 \/ COLS * CELL_SIZE <= x \/ y < 0 \/ ROWS * CELL_SIZE <= y ->
      on_click g x y = g /\ on_right_click g x y = g).
Proof.
  split.
  - intros rc rect Hrect Hx Hy. rewrite draw_grid_lookup in Hrect.
    destruct (in_bounds gui_grid_size rc) eqn:Hin; [| done].
    injection Hrect as <-. cbn [rect_x1 rect_x2 rect_y1 rect_y2] in Hx, Hy.
    assert (y / CELL_SIZE = rc.1) as Hr.
    { unfold CELL_SIZE in *. symmetry. apply Z.div_unique with (y - 25 * rc.1);
        lia. }
    assert (x / CELL_SIZE = rc.2) as Hc.
    { unfold CELL_SIZE in *. symmetry. apply Z.div_unique with (x - 25 * rc.2);
        lia. }
    unfold on_click, on_right_click. rewrite click_cell_in_grid, Hr, Hc.
    destruct rc as [r c]. cbn [fst snd]. rewrite Hin.
    split_and!.
    + intros Hne. rewrite decide_True by done. split_and!; [done | done |].
      unfold shown. rewrite draw_grid_lookup, Hin. cbn.
      unfold cell_color. cbn. by rewrite decide_True.
    + intros Hne. rewrite decide_True by done. split_and!; [done | done |].
      unfold shown. rewrite draw_grid_lookup, Hin. cbn.
      unfold cell_color. cbn. rewrite decide_False by done.
      by rewrite decide_True.
    + intros ->. by rewrite decide_False by (by intros ?).
    + intros ->. by rewrite decide_False by (by intros ?).
  - intros Hout. unfold on_click, on_right_click.
    assert ((0 <=? y / CELL_SIZE) && (y / CELL_SIZE <? ROWS)
              && (0 <=? x / CELL_SIZE) && (x / CELL_SIZE <? COLS) = false)
      as ->; [| done].
    unfold ROWS, COLS, CELL_SIZE in *.
    pose proof (Z.div_mod x 25 ltac:(lia)).
    pose proof (Z.mod_pos_bound x 25 ltac:(lia)).
    pose proof (Z.div_mod y 25 ltac:(lia)).
    pose proof (Z.mod_pos_bound y 25 ltac:(lia)).
    repeat (apply andb_false_iff; rewrite ?Z.leb_gt, ?Z.ltb_ge).
    lia.
Qed.

Lemma click_selects_the_cell_under_the_pointer_witness :
  start_pos (on_click gui_init 130 60) = (2, 5)
  /\ goal_pos (on_click gui_init 130 60) = goal_pos gui_init
  /\ shown (on_click gui_init 130 60) (2, 5) = Some COLOR_START.
Proof.
  destruct (proj1 (click_selects_the_cell_under_the_pointer gui_init 130 60)
              (2, 5) (mkRectangle 125 50 150 75 COLOR_EMPTY))
    as (Hstart & _).
  - vm_compute. reflexivity.
  - cbn. lia.
  - cbn. lia.
  - apply Hstart. vm_compute. congruence.
Defined.

(** ** The visualizer: what the animation paints *)

Lemma keeps_marks_refl (g : SearchGUI) : keeps_marks g g.
Proof. by repeat split. Qed.

Lemma keeps_marks_trans (g1 g2 g3 : SearchGUI) :
  keeps_marks g1 g2 -> keeps_marks g2 g3 -> keeps_marks g1 g3.
Proof.
  intros (Hs1 & Hg1 & Hcs1 & Hcg1 & Hd1) (Hs2 & Hg2 & Hcs2 & Hcg2 & Hd2).
  rewrite Hs1 in Hcs2. rewrite Hg1 in Hcg2.
  split_and!; [congruence | congruence | congruence | congruence |].
  intros rc. by rewrite Hd2.
Qed.

Lemma update_cell_color_shown (g : SearchGUI) (rc rc' : Cell)
    (color : Color) :
  shown (update_cell_color g rc color) rc'
  = if decide (rc' = rc /\ rc <> start_pos g /\ rc <> goal_pos g)
    then (fun _ => color) <$> shown g rc'
    else shown g rc'.
Proof.
  unfold update_cell_color. case_decide as Hmark.
  - rewrite decide_False; [done |]. intros (_ & ? & ?). tauto.
  - unfold shown. cbn [canvas set_canvas]. rewrite lookup_alter.
    destruct (decide (rc = rc')) as [<- | Hne].
    + rewrite decide_True by tauto. by destruct (canvas g !! rc).
    + rewrite decide_False; [done |]. by intros [-> _].
Qed.

Lemma update_cell_color_keeps (g : SearchGUI) (rc : Cell) (color : Color) :
  keeps_marks g (update_cell_color g rc color).
Proof.
  destruct (update_cell_color_canvas g rc color) as [cv Hcv].
  split_and!.
  - by rewrite Hcv.
  - by rewrite Hcv.
  - rewrite update_cell_color_shown. rewrite decide_False; [done |].
    intros (-> & ? & _). done.
  - rewrite update_cell_color_shown. rewrite decide_False; [done |].
    intros (-> & _ & ?). done.
  - intros rc'. rewrite update_cell_color_shown. case_decide; [| done].
    by rewrite fmap_is_Some.
Qed.

Lemma paint_cells_keeps (color : Color) (cells : list Cell) :
  forall g : SearchGUI, keeps_marks g (paint_cells color cells g).
Proof.
  unfold paint_cells.
  induction cells as [| rc cells IH]; intros g; cbn [foldl].
  - apply keeps_marks_refl.
  - eapply keeps_marks_trans; [apply update_cell_color_keeps | apply IH].
Qed.

Lemma display_path_loop_keeps (actions : Path) :
  forall (g : SearchGUI) (rc : Cell),
    keeps_marks g (display_path_loop g rc actions).
Proof.
  induction actions as [| [a |] rest IH]; intros g rc;
    cbn [display_path_loop].
  - apply keeps_marks_refl.
  - eapply keeps_marks_trans; [| apply IH].
    case_decide; [apply update_cell_color_keeps | apply keeps_marks_refl].
  - apply IH.
Qed.

Lemma step_search_keeps (g g' : SearchGUI) (s : bool) :
  step_search g = Some (g', s) -> keeps_marks g g'.
Proof.
  unfold step_search. destruct (running g); cbn [negb];
    [| intros [= <- _]; apply keeps_marks_refl].
  destruct (generator g) as [[| [frontier explored current | path |] rest] |];
    [| | | | done].
  - intros [= <- _]. by repeat split.
  - intros [= <- _].
    eapply keeps_marks_trans with (set_generator (Some rest) g);
      [by repeat split |].
    eapply keeps_marks_trans; [apply paint_cells_keeps |].
    eapply keeps_marks_trans; [apply paint_cells_keeps |].
    destruct current as [rc |];
      [apply update_cell_color_keeps | apply keeps_marks_refl].
  - destruct path as [p |]; intros [= <- _]; [| by repeat split].
    eapply keeps_marks_trans
      with (set_running false (set_generator (Some rest) g));
      [by repeat split |].
    eapply keeps_marks_trans with (display_path_result _ p);
      [apply display_path_loop_keeps | by repeat split].
  - intros [= <- _]. by repeat split.
Qed.

(** X21.  A step of the animation only recolours rectangles: it never moves
    the start or the goal, never repaints the start cell or the goal cell,
    whatever the event says, and never adds or removes a rectangle.  The
    same holds for [update_cell_color] and [display_path_result] alone. *)
Theorem animation_never_repaints_start_or_goal (g : SearchGUI) :
  (forall g' s, step_search g = Some (g', s) -> keeps_marks g g')
  /\ (forall rc color, keeps_marks g (update_cell_color g rc color))
  /\ (forall actions, keeps_marks g (display_path_result g actions)).
Proof.
  split_and!.
  - intros g' s. apply step_search_keeps.
  - intros rc color. apply update_cell_color_keeps.
  - intros actions. apply display_path_loop_keeps.
Qed.

Lemma animation_never_repaints_start_or_goal_witness :
  keeps_marks
    (mkGUI (0, 0) (19, 19) ∅ true
           (Some [EvStep [(0, 0); (0, 1)] {[ (0, 0) ]} (Some (0, 0))])
           BFS (Running BFS)
           {[ (0, 0) := mkRectangle 0 0 25 25 COLOR_START;
              (0, 1) := mkRectangle 25 0 50 25 COLOR_EMPTY ]})
    (mkGUI (0, 0) (19, 19) ∅ true (Some []) BFS (Running BFS)
           {[ (0, 0) := mkRectangle 0 0 25 25 COLOR_START;
              (0, 1) := mkRectangle 25 0 50 25 COLOR_FRONTIER ]}).
Proof.
  destruct (animation_never_repaints_start_or_goal
              (mkGUI (0, 0) (19, 19) ∅ true
                 (Some [EvStep [(0, 0); (0, 1)] {[ (0, 0) ]} (Some (0, 0))])
                 BFS (Running BFS)
                 {[ (0, 0) := mkRectangle 0 0 25 25 COLOR_START;
                    (0, 1) := mkRectangle 25 0 50 25 COLOR_EMPTY ]}))
    as (Hstep & _).
  apply (Hstep _ true). vm_compute. reflexivity.
Defined.

(** ** The visualizer: a run always reaches the goal *)

Lemma dfs_step_ends gs start goal (fuel : nat) events :
  dfs_step fuel start goal gs = Some events ->
  exists po, ends_with_path events po.
Proof.
  unfold dfs_step.
  destruct (dfs_step_loop fuel goal gs _ _) as [rest |] eqn:Hrest; [| done].
  cbn. intros [= <-].
  destruct (dfs_step_loop_ends _ _ _ _ _ _ Hrest) as [po Hpo].
  exists po. by apply ends_with_path_cons.
Qed.

Lemma ucs_step_ends gs start goal (fuel : nat) events :
  ucs_step fuel start goal gs = Some events ->
  exists po, ends_with_path events po.
Proof.
  unfold ucs_step.
  destruct (heappush [] (root_node start)) as [h0 |]; [| done].
  cbn [mbind option_bind].
  destruct (ucs_step_loop fuel goal gs _ _) as [rest |] eqn:Hrest; [| done].
  cbn. intros [= <-].
  destruct (ucs_step_loop_ends _ _ _ _ _ _ Hrest) as [po Hpo].
  exists po. by apply ends_with_path_cons.
Qed.

Lemma bidirectional_search_step_ends gs start goal (fuel : nat) events :
  bidirectional_search_step fuel start goal gs = Some events ->
  exists po, ends_with_path events po.
Proof.
  unfold bidirectional_search_step. case_decide.
  - intros [= <-]. eexists. apply ends_with_path_singleton.
  - apply bidi_step_loop_ends.
Qed.

Lemma step_variant_found (step : option (list Event))
    (batch : option Result) (p : Path) :
  terminal_path <$> step = (fun r => Some (result_path r)) <$> batch ->
  batch = Some (Found p) ->
  (forall events, step = Some events -> exists po, ends_with_path events po) ->
  exists events, step = Some events /\ ends_with_path events (Some p).
Proof.
  intros Hag -> Hends. destruct step as [events |]; [| done].
  exists events. split; [done |].
  destruct (Hends events eq_refl) as [po Hpo].
  pose proof (ends_with_path_terminal _ _ Hpo) as Hterm.
  cbn in Hag. by replace po with (Some p) in Hpo by congruence.
Qed.

Lemma replay_length_cost2 gs (q : Path) :
  forall s t, replay gs s q = Some t -> 2 * Z.of_nat (length q) <= cost2 q.
Proof.
  induction q as [| [a |] q IH]; intros s t; cbn [replay]; [cbn; lia | | done].
  destruct (step_cell gs s a) as [s' |]; [| done].
  intros Hq. specialize (IH _ _ Hq). cbn [cost2 length].
  destruct (is_diagonal (Some a)); lia.
Qed.

Lemma gui_short_path (s t : Cell) :
  in_bounds gui_grid_size s = true -> in_bounds gui_grid_size t = true ->
  exists q, replay gui_grid_size s q = Some t /\ (length q <= 38)%nat.
Proof.
  intros Hs Ht.
  destruct (manhattan_path gui_grid_size
              (Z.to_nat (Z.abs (t.1 - s.1) + Z.abs (t.2 - s.2))) s t Hs Ht
              ltac:(lia)) as (q & Hq & Hcost).
  exists q. split; [done |].
  pose proof (replay_length_cost2 _ _ _ _ Hq).
  apply in_bounds_spec in Hs, Ht.
  unfold gui_grid_size, ROWS, COLS in Hs, Ht. cbn [fst snd] in Hs, Ht. lia.
Qed.

Lemma gui_generator_finds (algo : Algo) (s t : Cell) :
  in_bounds gui_grid_size s = true -> in_bounds gui_grid_size t = true ->
  exists (fuel : nat) events p,
    match algo with
    | BFS => bfs_step fuel s t gui_grid_size
    | DFS => dfs_step fuel s t gui_grid_size
    | UCS => ucs_step fuel s t gui_grid_size
    | DLS => Some (dls_step s t gui_grid_size 50)
    | IDDFS => Some (iddfs_step s t gui_grid_size default_max_depth)
    | Bidirectional => bidirectional_search_step fuel s t gui_grid_size
    end = Some events
    /\ ends_with_path events (Some p).
Proof.
  intros Hs Ht. destruct algo.
  - destruct (bfs_returns_shortest gui_grid_size s t Hs Ht)
      as (p & [fuel Hrun] & _).
    exists fuel. 
    destruct (step_variant_found _ _ p (bfs_step_agrees gui_grid_size s t fuel)
                (Hrun fuel (le_n _)) (bfs_step_ends _ _ _ _))
      as (events & ? & ?).
    by exists events, p.
  - destruct (dfs_found_in_grid gui_grid_size s t Hs Ht) as (fuel & p & Hrun).
    exists fuel.
    destruct (step_variant_found _ _ p (dfs_step_agrees gui_grid_size s t fuel)
                Hrun (dfs_step_ends _ _ _ _)) as (events & ? & ?).
    by exists events, p.
  - destruct (ucs_returns_cheapest gui_grid_size s t Hs Ht)
      as (p & [fuel Hrun] & _).
    exists fuel.
    destruct (step_variant_found _ _ p (ucs_step_agrees gui_grid_size s t fuel)
                (Hrun fuel (le_n _)) (ucs_step_ends _ _ _ _))
      as (events & ? & ?).
    by exists events, p.
  - destruct (gui_short_path s t Hs Ht) as (q & Hq & Hlen).
    destruct (dls_complete gui_grid_size s t 50 q Hq ltac:(lia)) as [p Hd].
    exists O, (dls_step s t gui_grid_size 50), p. split; [done |].
    pose proof (dls_step_agrees gui_grid_size s t 50) as Htr.
    rewrite Hd in Htr. destruct Htr as [Hu Hterm]. by apply until_path_ends.
  - destruct (gui_short_path s t Hs Ht) as (q & Hq & Hlen).
    pose proof (iddfs_spec gui_grid_size s t default_max_depth) as Hspec.
    pose proof (iddfs_step_from_ends gui_grid_size s t
                  (Z.to_nat default_max_depth) 0) as Hends.
    fold (iddfs_step s t gui_grid_size default_max_depth) in Hends.
    fold (iddfs s t gui_grid_size default_max_depth) in Hends.
    destruct (iddfs s t gui_grid_size default_max_depth) as [p | |].
    + by exists O, (iddfs_step s t gui_grid_size default_max_depth), p.
    + specialize (Hspec q Hq). unfold default_max_depth in Hspec. lia.
    + done.
  - destruct (bidirectional_found_in_grid gui_grid_size s t Hs Ht)
      as (fuel & p & Hrun).
    exists fuel.
    destruct (step_variant_found _ _ p
                (bidirectional_search_step_agrees gui_grid_size s t fuel)
                Hrun (bidirectional_search_step_ends _ _ _ _))
      as (events & ? & ?).
    by exists events, p.
Qed.

Lemma step_search_on_event (g : SearchGUI) (e : Event) (rest : list Event) :
  running g = true -> generator g = Some (e :: rest) ->
  is_path_event e = false ->
  exists g1, step_search g = Some (g1, true)
             /\ running g1 = true /\ generator g1 = Some rest.
Proof.
  intros Hrun Hgen He. unfold step_search. rewrite Hrun, Hgen. cbn [negb].
  destruct e as [frontier explored current | path |]; [| done |].
  - destruct (paint_cells_canvas COLOR_EXPLORED (elements explored)
                (set_generator (Some rest) g)) as [cv1 ->].
    destruct (paint_cells_canvas COLOR_FRONTIER frontier
                (set_canvas cv1 (set_generator (Some rest) g))) as [cv2 ->].
    destruct current as [rc |].
    + destruct (update_cell_color_canvas
                  (set_canvas cv2
                     (set_canvas cv1 (set_generator (Some rest) g)))
                  rc COLOR_CURRENT) as [cv3 ->].
      eexists. split; [done |]. by cbn.
    + eexists. split; [done |]. by cbn.
  - eexists. split; [done |]. by cbn.
Qed.

Lemma step_search_on_path (g : SearchGUI) (p : Path) (rest : list Event) :
  running g = true -> generator g = Some (EvPath (Some p) :: rest) ->
  exists g1, step_search g = Some (g1, false)
             /\ running g1 = false /\ status_label g1 = GoalReached.
Proof.
  intros Hrun Hgen. unfold step_search. rewrite Hrun, Hgen. cbn [negb].
  unfold display_path_result.
  destruct (display_path_loop_canvas p
              (set_running false (set_generator (Some rest) g))
              (start_pos (set_running false (set_generator (Some rest) g))))
    as [cv ->].
  eexists. split; [done |]. by cbn.
Qed.

Lemma run_scheduled_to_path (p : Path) (pre : list Event) :
  forall g : SearchGUI,
    running g = true -> generator g = Some (pre ++ [EvPath (Some p)]) ->
    Forall (fun e => is_path_event e = false) pre ->
    exists g', run_scheduled (S (length pre)) g true = Some g'
               /\ running g' = false /\ status_label g' = GoalReached
               /\ keeps_marks g g'.
Proof.
  induction pre as [| e pre IH]; intros g Hrun Hgen Hpre.
  - destruct (step_search_on_path g p [] Hrun Hgen) as (g1 & Hstep & ? & ?).
    exists g1. cbn [run_scheduled length]. rewrite Hstep.
    split_and!; [done | done | done |]. by eapply step_search_keeps.
  - apply Forall_cons in Hpre as [He Hpre].
    destruct (step_search_on_event g e (pre ++ [EvPath (Some p)]) Hrun Hgen He)
      as (g1 & Hstep & Hrun1 & Hgen1).
    destruct (IH g1 Hrun1 Hgen1 Hpre) as (g' & Hsched & ? & ? & Hkeep).
    exists g'. cbn [length]. 
    change (run_scheduled (S (S (length pre))) g true)
      with (match step_search g with
            | Some (g', s) => run_scheduled (S (length pre)) g' s
            | None => None
            end).
    rewrite Hstep. split_and!; [done | done | done |].
    eapply keeps_marks_trans; [by eapply step_search_keeps | done].
Qed.

Lemma run_search_unfold (fuel : nat) (g : SearchGUI) :
  running g = false ->
  run_search fuel g
  = events ← match algo_var g with
             | BFS => bfs_step fuel (start_pos g) (goal_pos g) gui_grid_size
             | DFS => dfs_step fuel (start_pos g) (goal_pos g) gui_grid_size
             | UCS => ucs_step fuel (start_pos g) (goal_pos g) gui_grid_size
             | DLS =>
                 Some (dls_step (start_pos g) (goal_pos g) gui_grid_size 50)
             | IDDFS =>
                 Some (iddfs_step (start_pos g) (goal_pos g) gui_grid_size
                                  default_max_depth)
             | Bidirectional =>
                 bidirectional_search_step fuel (start_pos g) (goal_pos g)
                                           gui_grid_size
             end;
    step_search
      (set_generator (Some events)
         (set_status (Running (algo_var g))
            (set_running true (reset_visualization g)))).
Proof. intros Hrun. unfold run_search. by rewrite Hrun. Qed.

Lemma shown_after_reset (g : SearchGUI) (gen : option (list Event))
    (st : Status) (b : bool) (rc : Cell) :
  shown (set_generator gen (set_status st
           (set_running b (reset_visualization g)))) rc
  = if in_bounds gui_grid_size rc then Some (cell_color g rc) else None.
Proof.
  unfold shown.
  change (canvas (set_generator gen (set_status st
                    (set_running b (reset_visualization g)))))
    with (canvas (draw_grid (set_generator None (set_running false g)))).
  rewrite draw_grid_lookup. by destruct (in_bounds gui_grid_size rc).
Qed.

(** X22.  In the visualizer every search reaches the goal: whatever
    algorithm is selected, pressing Run Search while no search is running
    and letting the animation run ends with the status ["Goal Reached!"],
    never with ["No Path Found"] or ["Finished"], with the search stopped
    and the start and goal cells still shown in their colours.  This holds
    for DLS too, whose limit of 50 is enough on the 20 by 20 grid. *)
Theorem run_search_always_reaches_the_goal (g : SearchGUI) :
  positions_ok g -> running g = false ->
  exists (fuel n : nat) g1 s g',
    run_search fuel g = Some (g1, s)
    /\ run_scheduled n g1 s = Some g'
    /\ status_label g' = GoalReached
    /\ running g' = false
    /\ start_pos g' = start_pos g /\ goal_pos g' = goal_pos g
    /\ shown g' (start_pos g) = Some COLOR_START
    /\ shown g' (goal_pos g) = Some COLOR_GOAL.
Proof.
  intros (Hs & Hg & Hne) Hrun.
  destruct (gui_generator_finds (algo_var g) (start_pos g) (goal_pos g) Hs Hg)
    as (fuel & events & p & Hgen & pre & -> & Hpre).
  set (g0 := set_generator (Some (pre ++ [EvPath (Some p)]))
               (set_status (Running (algo_var g))
                  (set_running true (reset_visualization g)))).
  destruct (run_scheduled_to_path p pre g0 eq_refl eq_refl Hpre)
    as (g' & Hsched & Hstop & Hstatus & Hkeep).
  change (run_scheduled (S (length pre)) g0 true)
    with (match step_search g0 with
          | Some (g', s) => run_scheduled (length pre) g' s
          | None => None
          end) in Hsched.
  destruct (step_search g0) as [[g1 s] |] eqn:Hstep; [| done].
  exists fuel, (length pre), g1, s, g'.
  destruct Hkeep as (Hks & Hkg & Hcs & Hcg & _).
  split_and!.
  - rewrite (run_search_unfold fuel g Hrun), Hgen. exact Hstep.
  - exact Hsched.
  - exact Hstatus.
  - exact Hstop.
  - exact Hks.
  - exact Hkg.
  - transitivity (shown g0 (start_pos g)); [exact Hcs |].
    unfold g0. rewrite shown_after_reset, Hs.
    unfold cell_color. by rewrite decide_True.
  - transitivity (shown g0 (goal_pos g)); [exact Hcg |].
    unfold g0. rewrite shown_after_reset, Hg.
    unfold cell_color. rewrite decide_False by done. by rewrite decide_True.
Qed.

Lemma run_search_always_reaches_the_goal_witness :
  exists (fuel n : nat) g1 s g',
    run_search fuel gui_init = Some (g1, s)
    /\ run_scheduled n g1 s = Some g'
    /\ status_label g' = GoalReached
    /\ running g' = false
    /\ start_pos g' = start_pos gui_init /\ goal_pos g' = goal_pos gui_init
    /\ shown g' (start_pos gui_init) = Some COLOR_START
    /\ shown g' (goal_pos gui_init) = Some COLOR_GOAL.
Proof.
  refine (run_search_always_reaches_the_goal gui_init _ _).
  - split; [reflexivity | split; [reflexivity |]]. vm_compute. congruence.
  - reflexivity.
Defined.

(** ** The visualizer: showing the path *)

Lemma display_path_loop_shown (c : Cell) (actions : Path) :
  forall (g : SearchGUI) (rc : Cell),
    shown (display_path_loop g rc actions) c
    = if decide (c ∈ walk_cells rc actions
                 /\ c <> start_pos g /\ c <> goal_pos g)
      then (fun _ => COLOR_PATH) <$> shown g c
      else shown g c.
Proof.
  induction actions as [| [a |] rest IH]; intros g rc;
    cbn [display_path_loop walk_cells].
  - rewrite decide_False; [done |]. intros [Hin _].
    by apply elem_of_nil in Hin.
  - set (rc' := move_to rc a).
    set (g' := if decide (rc' <> goal_pos g)
               then update_cell_color g rc' COLOR_PATH else g).
    assert (start_pos g' = start_pos g /\ goal_pos g' = goal_pos g
            /\ shown g' c
               = if decide (c = rc' /\ c <> start_pos g /\ c <> goal_pos g)
                 then (fun _ => COLOR_PATH) <$> shown g c
                 else shown g c) as (Hs & Hg & Hshown).
    { unfold g'. case_decide as Hgoal.
      - destruct (update_cell_color_keeps g rc' COLOR_PATH)
          as (-> & -> & _).
        split; [done |]. split; [done |].
        rewrite update_cell_color_shown.
        destruct (decide (c = rc')) as [-> | Hne].
        + destruct (decide (rc' <> start_pos g)).
          * by rewrite !decide_True by tauto.
          * by rewrite !decide_False by tauto.
        + by rewrite !decide_False by tauto.
      - split; [done |]. split; [done |].
        rewrite decide_False; [done |]. by intros (-> & _ & ?). }
    rewrite IH, Hs, Hg, Hshown.
    destruct (decide (c = rc' /\ c <> start_pos g /\ c <> goal_pos g))
      as [(-> & ? & ?) | Hnot].
    + rewrite (decide_True (P := rc' ∈ rc' :: _ /\ _))
        by (split; [by left | done]).
      case_decide; [| done]. by destruct (shown g rc').
    + destruct (decide (c ∈ walk_cells rc' rest
                        /\ c <> start_pos g /\ c <> goal_pos g))
        as [(? & ? & ?) | Hnot'].
      * rewrite decide_True; [done |]. split; [by right | done].
      * rewrite decide_False; [done |].
        intros ([-> | ?]%elem_of_cons & ? & ?); tauto.
  - apply IH.
Qed.

Lemma walk_of_replay gs (actions : Path) :
  forall (s : Cell) (k : nat) (c : Cell),
    (0 < k <= length actions)%nat ->
    replay gs s (take k actions) = Some c -> c ∈ walk_cells s actions.
Proof.
  induction actions as [| [a |] rest IH]; intros s k c Hk;
    [cbn in Hk; lia | |].
  - destruct k as [| k]; [lia |]. cbn [take replay walk_cells].
    destruct (step_cell gs s a) as [s' |] eqn:Hstep; [| done].
    unfold step_cell in Hstep. case_match; [| done].
    injection Hstep as <-. intros Hq.
    destruct k as [| k]; [cbn in Hq; injection Hq as <-; by left |].
    right. apply (IH _ (S k)); [cbn [length] in Hk; lia | done].
  - destruct k as [| k]; [lia | done].
Qed.

Lemma replay_of_walk gs (actions : Path) :
  forall (s t c : Cell),
    replay gs s actions = Some t -> c ∈ walk_cells s actions ->
    exists k, replay gs s (take k actions) = Some c.
Proof.
  induction actions as [| [a |] rest IH]; intros s t c;
    cbn [replay walk_cells]; [by intros _ ?%elem_of_nil | | done].
  destruct (step_cell gs s a) as [s' |] eqn:Hstep; [| done].
  pose proof Hstep as Hmove. unfold step_cell in Hmove.
  case_match; [| done]. injection Hmove as Hmove. rewrite Hmove.
  intros Hq [-> | Hin]%elem_of_cons.
  - exists 1%nat. cbn. by rewrite Hstep.
  - destruct (IH _ _ _ Hq Hin) as [k Hk]. exists (S k).
    cbn [take replay]. by rewrite Hstep.
Qed.

(** X23.  [display_path_result] shows the path it is given: when the path
    replays from the start to the goal, each cell it passes through, other
    than the start and the goal, ends up in the path colour, and every cell
    that is not on the path keeps the colour it had. *)
Theorem display_path_result_paints_the_path (g : SearchGUI) (p : Path) :
  replay gui_grid_size (start_pos g) p = Some (goal_pos g) ->
  (forall k c,
      replay gui_grid_size (start_pos g) (take k p) = Some c ->
      c <> start_pos g -> c <> goal_pos g -> is_Some (shown g c) ->
      shown (display_path_result g p) c = Some COLOR_PATH)
  /\ (forall c,
         (forall k, replay gui_grid_size (start_pos g) (take k p) <> Some c) ->
         shown (display_path_result g p) c = shown g c).
Proof.
  intros Hp. unfold display_path_result. split.
  - intros k c Hk Hs Hg [col Hcol]. rewrite display_path_loop_shown.
    rewrite decide_True; [by rewrite Hcol |].
    split; [| done].
    destruct (decide (k = 0)%nat) as [-> | Hk0].
    { rewrite take_0 in Hk. cbn [replay] in Hk. by injection Hk as <-. }
    destruct (decide (length p < k)%nat) as [Hlong | Hshort].
    + rewrite take_ge in Hk by lia. rewrite Hp in Hk.
      by injection Hk as <-.
    + apply (walk_of_replay gui_grid_size p _ k); [lia | done].
  - intros c Hoff. rewrite display_path_loop_shown.
    rewrite decide_False; [done |]. intros (Hin & _).
    destruct (replay_of_walk _ _ _ _ _ Hp Hin) as [k Hk].
    by apply (Hoff k).
Qed.

Lemma display_path_result_paints_the_path_witness :
  shown (display_path_result
           (mkGUI (0, 0) (0, 2) ∅ false None BFS Ready
                  {[ (0, 1) := mkRectangle 25 0 50 25 COLOR_EXPLORED ]})
           [Some Right; Some Right]) (0, 1)
  = Some COLOR_PATH.
Proof.
  apply (proj1 (display_path_result_paints_the_path
                  (mkGUI (0, 0) (0, 2) ∅ false None BFS Ready
                     {[ (0, 1) := mkRectangle 25 0 50 25 COLOR_EXPLORED ]})
                  [Some Right; Some Right] eq_refl) 1%nat (0, 1)).
  - reflexivity.
  - cbn. by intros [=].
  - cbn. by intros [=].
  - vm_compute. by eexists.
Defined.

(** ** Returned paths visit no cell twice *)

Lemma simple_path_snoc gs (q : Path) :
  forall (ps : gset Cell) (s t : Cell) (a : Action) (t' : Cell),
    simple_path gs ps s q t -> step_cell gs t a = Some t' ->
    t' ∉ ps -> t' ∉ visited gs s q ->
    simple_path gs ps s (q ++ [Some a]) t'.
Proof.
  induction q as [| [b |] q IH]; intros ps s t a t'; cbn [simple_path app].
  - intros -> Hstep Hps Hvis. exists t'. cbn in Hvis.
    split; [done |]. split; [set_solver | done].
  - intros (s1 & Hb & Hs1 & Hq) Hstep Hps Hvis.
    cbn [visited] in Hvis. rewrite Hb in Hvis.
    exists s1. split; [done |]. split; [done |].
    eapply IH; [done | done | set_solver | set_solver].
  - done.
Qed.

Lemma visited_snoc gs (q : Path) :
  forall (s t : Cell) (a : Action) (t' : Cell),
    replay gs s q = Some t -> step_cell gs t a = Some t' ->
    visited gs s (q ++ [Some a]) = visited gs s q ∪ {[ t' ]}.
Proof.
  induction q as [| [b |] q IH]; intros s t a t'; cbn [replay app visited].
  - intros [= ->] ->. set_solver.
  - destruct (step_cell gs s b) as [s1 |]; [| done].
    intros Hq Hstep. rewrite (IH _ _ _ _ Hq Hstep). set_solver.
  - done.
Qed.

Lemma node_simple_root (gs : Grid) (start : Cell) (E : gset Cell) :
  node_simple gs start E (root_node start).
Proof. split; cbn; [done | set_solver]. Qed.

Lemma node_simple_mono (gs : Grid) (start : Cell) (E E' : gset Cell)
    (m : Node) :
  E ⊆ E' -> node_simple gs start E m -> node_simple gs start E' m.
Proof. intros Hsub [Hsimple Hvis]. split; [done | set_solver]. Qed.

Lemma node_simple_child (gs : Grid) (start : Cell) (E : gset Cell)
    (node : Node) (s : Cell) (a : Action) (c cst : Q) (d : Z) :
  node_simple gs start E node ->
  (s, a, c) ∈ get_successors (state node) gs ->
  s ∉ E ∪ {[ state node ]} ->
  node_simple gs start (E ∪ {[ state node ]})
              (mkNode s (Some node) (Some a) cst d).
Proof.
  intros [Hsimple Hvis] Hsucc Hnew.
  apply get_successors_spec in Hsucc as [Hstep _].
  unfold node_simple. rewrite reconstruct_path_child. cbn [state]. split.
  - eapply simple_path_snoc; [done | done | set_solver | set_solver].
  - rewrite (visited_snoc _ _ _ _ _ _ (simple_path_replay _ _ _ _ _ Hsimple)
               Hstep).
    set_solver.
Qed.

Lemma simple_path_enters_fresh gs (q : Path) :
  forall (ps : gset Cell) (s t : Cell) (j : nat) (c : Cell),
    simple_path gs ps s q t -> (0 < j <= length q)%nat ->
    replay gs s (take j q) = Some c -> c ∉ ps ∪ {[ s ]}.
Proof.
  induction q as [| [a |] q IH]; intros ps s t j c; cbn [simple_path].
  - intros _ Hj. cbn in Hj. lia.
  - intros (s1 & Hstep & Hs1 & Hq) Hj. destruct j as [| j]; [lia |].
    cbn [take replay]. rewrite Hstep. intros Hc.
    destruct j as [| j]; [cbn in Hc; by injection Hc as <- |].
    cbn [length] in Hj.
    specialize (IH _ _ _ (S j) c Hq ltac:(lia) Hc). set_solver.
  - done.
Qed.

Lemma simple_path_distinct gs (q : Path) :
  forall (ps : gset Cell) (s t : Cell),
    simple_path gs ps s q t -> visits_no_cell_twice gs s q.
Proof.
  induction q as [| [a |] q IH]; intros ps s t; cbn [simple_path].
  - intros _ i j c Hij. cbn in Hij. lia.
  - intros (s1 & Hstep & Hs1 & Hq) i j c Hij. cbn [length] in Hij.
    destruct j as [| j]; [lia |]. destruct i as [| i].
    + cbn [take replay]. intros [= <-]. rewrite Hstep. intros Hc.
      destruct j as [| j].
      * cbn in Hc. injection Hc as ->. set_solver.
      * pose proof (simple_path_enters_fresh gs q _ _ _ (S j) s Hq
                      ltac:(lia) Hc). set_solver.
    + cbn [take replay]. rewrite Hstep.
      apply (IH _ _ _ Hq). lia.
  - done.
Qed.

Lemma simple_path_length gs (q : Path) :
  forall (ps : gset Cell) (s t : Cell),
    simple_path gs ps s q t ->
    (length q <= size (grid_cells gs ∖ (ps ∪ {[ s ]})))%nat.
Proof.
  induction q as [| [a |] q IH]; intros ps s t; cbn [simple_path length].
  - lia.
  - intros (s1 & Hstep & Hs1 & Hq). specialize (IH _ _ _ Hq).
    assert (grid_cells gs ∖ (ps ∪ {[ s ]} ∪ {[ s1 ]})
            ⊂ grid_cells gs ∖ (ps ∪ {[ s ]})) as Hsub.
    { split; [set_solver |]. intros Hall. 
      assert (s1 ∈ grid_cells gs ∖ (ps ∪ {[ s ]})) as Hin.
      { apply elem_of_difference. split; [| done].
        apply elem_of_grid_cells. by eapply step_cell_in_bounds. }
      apply Hall in Hin. set_solver. }
    apply subset_size in Hsub. lia.
  - done.
Qed.

Lemma length_bind_const {A B : Type} (f : A -> list B) (n : nat)
    (l : list A) :
  (forall x, length (f x) = n) -> length (l ≫= f) = (length l * n)%nat.
Proof.
  intros Hf. induction l as [| x l IH]; [done |].
  rewrite bind_cons, length_app, Hf, IH. cbn. lia.
Qed.

Lemma size_grid_cells (gs : Grid) :
  size (grid_cells gs) = (Z.to_nat gs.1 * Z.to_nat gs.2)%nat.
Proof.
  unfold grid_cells. rewrite size_list_to_set.
  - rewrite (length_bind_const _ (Z.to_nat gs.2)), length_seqZ; [done |].
    intros r. rewrite (length_bind_const _ 1%nat), length_seqZ; [lia | done].
  - apply NoDup_bind; [| | apply NoDup_seqZ].
    + intros r1 r2 y _ _ (c1 & Hy1 & _)%list_elem_of_bind
        (c2 & Hy2 & _)%list_elem_of_bind.
      apply list_elem_of_singleton in Hy1, Hy2. congruence.
    + intros r _. apply NoDup_bind; [| | apply NoDup_seqZ].
      * intros c1 c2 y _ _ Hy1 Hy2.
        apply list_elem_of_singleton in Hy1, Hy2. congruence.
      * intros c _. apply NoDup_singleton.
Qed.

Lemma simple_path_fewer_moves_than_cells (gs : Grid) (s t : Cell)
    (q : Path) :
  simple_path gs ∅ s q t -> in_bounds gs s = true ->
  (length q < Z.to_nat gs.1 * Z.to_nat gs.2)%nat.
Proof.
  intros Hq Hs. apply simple_path_length in Hq.
  rewrite <- size_grid_cells.
  assert (grid_cells gs ∖ (∅ ∪ {[ s ]}) ⊂ grid_cells gs) as Hsub.
  { split; [set_solver |]. intros Hall.
    assert (s ∈ grid_cells gs) as Hin by by apply elem_of_grid_cells.
    apply Hall in Hin. set_solver. }
  apply subset_size in Hsub. lia.
Qed.

Lemma dfs_push_simple (gs : Grid) (start : Cell) (node : Node)
    (E : gset Cell) (succs : list (Cell * Action * Q)) :
  node_simple gs start E node ->
  (forall x, x ∈ succs -> x ∈ get_successors (state node) gs) ->
  forall F : list Node,
    (forall m, m ∈ F -> node_simple gs start (E ∪ {[ state node ]}) m) ->
    forall m, m ∈ dfs_push node (E ∪ {[ state node ]}) succs F ->
              node_simple gs start (E ∪ {[ state node ]}) m.
Proof.
  intros Hnode.
  induction succs as [| [[s a] c] rest IH]; intros Hsub F HF; cbn; [done |].
  assert (forall x, x ∈ rest -> x ∈ get_successors (state node) gs) as Hsub'
    by (intros; apply Hsub; by right).
  case_decide as Hnew; [| by apply IH].
  apply IH; [done |].
  intros m [-> | Hm]%elem_of_cons; [| auto].
  eapply node_simple_child; [done | | done]. apply Hsub. by left.
Qed.

Lemma dfs_loop_simple (gs : Grid) (start goal : Cell) (fuel : nat) :
  forall (F : list Node) (E : gset Cell) (p : Path) (E' : gset Cell),
    (forall m, m ∈ F -> node_simple gs start E m) ->
    dfs_loop fuel goal gs F E = Some (Found p, E') ->
    simple_path gs ∅ start p goal.
Proof.
  induction fuel as [| fuel IH]; intros F E p E' HF;
    destruct F as [| n0 F]; cbn [dfs_loop]; try done.
  assert (node_simple gs start E n0) as Hn0 by (apply HF; by left).
  assert (forall m, m ∈ F -> node_simple gs start E m) as HF'
    by (intros; apply HF; by right).
  case_decide as Hg.
  - intros [= <- <-]. rewrite <- Hg. apply Hn0.
  - case_decide; [| by apply IH]. apply IH.
    apply dfs_push_simple; [done | |].
    + intros x Hx. by rewrite elem_of_rev in Hx.
    + intros m Hm. eapply node_simple_mono; [| by apply HF']. set_solver.
Qed.

(** X24.  A path returned by [dfs] visits no cell twice: replaying two
    prefixes of different lengths never ends on the same cell.  So, from a
    start inside the grid, it has fewer moves than the grid has cells. *)
Theorem dfs_path_visits_no_cell_twice (gs : Grid) (start goal : Cell)
    (fuel : nat) (p : Path) :
  dfs fuel start goal gs = Some (Found p) ->
  visits_no_cell_twice gs start p
  /\ (in_bounds gs start = true ->
      (length p < Z.to_nat gs.1 * Z.to_nat gs.2)%nat).
Proof.
  unfold dfs, dfs_run.
  destruct (dfs_loop _ _ _ _ _) as [[r E'] |] eqn:Hloop; [| done].
  cbn. intros [= ->].
  assert (simple_path gs ∅ start p goal) as Hsimple.
  { eapply dfs_loop_simple; [| exact Hloop].
    intros m ->%list_elem_of_singleton. apply node_simple_root. }
  split; [by eapply simple_path_distinct |].
  intros Hs. by eapply simple_path_fewer_moves_than_cells.
Qed.

Lemma dfs_path_visits_no_cell_twice_witness :
  visits_no_cell_twice (2, 2) (0, 0) [Some Right; Some Bottom]
  /\ (in_bounds (2, 2) (0, 0) = true ->
      (length [Some Right; Some Bottom] < Z.to_nat 2 * Z.to_nat 2)%nat).
Proof.
  apply (dfs_path_visits_no_cell_twice (2, 2) (0, 0) (1, 1) 20).
  vm_compute. reflexivity.
Defined.

Lemma dls_loop_simple (gs : Grid) (start goal : Cell)
    (rec : Node -> gset Cell -> Result * gset Cell)
    (node : Node) (succs : list (Cell * Action * Q)) (ps : gset Cell) :
  state node ∈ ps -> node_simple gs start ps node ->
  (forall x, x ∈ succs -> x ∈ get_successors (state node) gs) ->
  (forall child (ps1 : gset Cell) p1 ps1',
      node_simple gs start ps1 child ->
      rec child ps1 = (Found p1, ps1') ->
      simple_path gs ∅ start p1 goal) ->
  restores rec ->
  forall (cut : bool) (p : Path) (ps' : gset Cell),
    dls_loop rec node succs cut ps = (Found p, ps') ->
    simple_path gs ∅ start p goal.
Proof.
  intros Hin Hnode Hsub Hrec Hrestore.
  induction succs as [| [[s a] c] rest IH]; intros cut p ps'; cbn.
  - by destruct cut.
  - assert (forall x, x ∈ rest -> x ∈ get_successors (state node) gs) as Hrest
      by (intros; apply Hsub; by right).
    case_decide as Hs; [by apply IH |].
    destruct (rec _ ps) as [r1 ps1] eqn:Hcall.
    destruct r1 as [p1 | |].
    + intros [= <- <-]. eapply Hrec; [| exact Hcall].
      eapply node_simple_mono;
        [| eapply node_simple_child; [exact Hnode | apply Hsub; by left |]];
        set_solver.
    + assert (ps1 = ps) as ->
        by (eapply Hrestore; [| exact Hcall | done]; done).
      by apply IH.
    + assert (ps1 = ps) as ->
        by (eapply Hrestore; [| exact Hcall | done]; done).
      by apply IH.
Qed.

Lemma recursive_dls_simple (gs : Grid) (start goal : Cell) (limit : nat) :
  forall (node : Node) (ps : gset Cell) (p : Path) (ps' : gset Cell),
    node_simple gs start ps node ->
    recursive_dls limit goal gs node ps = (Found p, ps') ->
    simple_path gs ∅ start p goal.
Proof.
  induction limit as [| limit IH]; intros node ps p ps' Hnode; cbn;
    case_decide as Hgoal; try done.
  - intros [= <- <-]. rewrite <- Hgoal. apply Hnode.
  - intros [= <- <-]. rewrite <- Hgoal. apply Hnode.
  - apply dls_loop_simple; [set_solver | | done | exact IH |].
    + eapply node_simple_mono; [| exact Hnode]. set_solver.
    + intros child ps1 r1 ps1'. apply recursive_dls_restores.
Qed.

(** X25.  A path returned by [dls] (and so by [iddfs]) visits no cell
    twice: the shared set of path states keeps the search off the cells of
    the path it is extending. *)
Theorem dls_path_visits_no_cell_twice (gs : Grid) (start goal : Cell)
    (limit : Z) (p : Path) :
  dls start goal gs limit = Found p \/
  (exists max_depth, iddfs start goal gs max_depth = Found p) ->
  visits_no_cell_twice gs start p.
Proof.
  assert (forall limit, dls start goal gs limit = Found p ->
                        visits_no_cell_twice gs start p) as Hdls.
  { intros l. unfold dls.
    destruct (recursive_dls _ _ _ _ _) as [r ps'] eqn:Hcall. cbn. intros ->.
    eapply simple_path_distinct, recursive_dls_simple; [| exact Hcall].
    apply node_simple_root. }
  intros [Hd | [max_depth Hi]]; [by eapply Hdls |].
  unfold iddfs in Hi. revert Hi. generalize 0.
  induction (Z.to_nat max_depth) as [| n IH]; intros d; cbn [iddfs_from];
    [done |].
  destruct (dls start goal gs d) as [p' | |] eqn:Hd; [| apply IH | apply IH].
  intros [= ->]. by eapply Hdls.
Qed.

Lemma dls_path_visits_no_cell_twice_witness :
  visits_no_cell_twice (1, 3) (0, 0) [Some Right; Some Right].
Proof.
  apply (dls_path_visits_no_cell_twice (1, 3) (0, 0) (0, 2) 2).
  left. vm_compute. reflexivity.
Defined.

Lemma bfs_expand_simple (gs : Grid) (start goal : Cell) (node : Node)
    (E : gset Cell) (succs : list (Cell * Action * Q)) :
  node_simple gs start E node ->
  (forall x, x ∈ succs -> x ∈ get_successors (state node) gs) ->
  forall F : list Node,
    (forall m, m ∈ F -> node_simple gs start (E ∪ {[ state node ]}) m) ->
    match bfs_expand goal node (E ∪ {[ state node ]}) succs F with
    | inl p => simple_path gs ∅ start p goal
    | inr F' =>
        forall m, m ∈ F' -> node_simple gs start (E ∪ {[ state node ]}) m
    end.
Proof.
  intros Hnode.
  induction succs as [| [[s a] c] rest IH]; intros Hsub F HF;
    cbn [bfs_expand]; [done |].
  assert (forall x, x ∈ rest -> x ∈ get_successors (state node) gs) as Hsub'
    by (intros; apply Hsub; by right).
  case_decide as Hnew; [| by apply IH].
  assert (node_simple gs start (E ∪ {[ state node ]})
            (mkNode s (Some node) (Some a) (cost node + c)%Q
                    (depth node + 1))) as Hchild.
  { eapply node_simple_child; [done | | tauto]. apply Hsub. by left. }
  case_decide as Hg.
  - cbn [state] in Hg. subst s. apply Hchild.
  - apply IH; [done |].
    intros m [Hm | ->%list_elem_of_singleton]%elem_of_app; auto.
Qed.

Lemma bfs_loop_simple (gs : Grid) (start goal : Cell) (fuel : nat) :
  forall (F : list Node) (E : gset Cell) (p : Path) (E' : gset Cell),
    (forall m, m ∈ F -> node_simple gs start E m) ->
    bfs_loop fuel goal gs F E = Some (Found p, E') ->
    simple_path gs ∅ start p goal.
Proof.
  induction fuel as [| fuel IH]; intros F E p E' HF;
    destruct F as [| n0 F]; cbn [bfs_loop]; try done.
  pose proof (bfs_expand_simple gs start goal n0 E
                (get_successors (state n0) gs)
                (HF n0 ltac:(by left)) ltac:(done) F) as Hexp.
  destruct (bfs_expand goal n0 _ _ F) as [p' | F'].
  - intros [= <- <-]. apply Hexp.
    intros m Hm. eapply node_simple_mono; [| apply HF; by right]. set_solver.
  - apply IH, Hexp.
    intros m Hm. eapply node_simple_mono; [| apply HF; by right]. set_solver.
Qed.

Lemma ucs_loop_simple (gs : Grid) (start goal : Cell) (fuel : nat) :
  forall (F : list Node) (E : gset Cell) (p : Path) (E' : gset Cell),
    is_heap F ->
    (forall m, m ∈ F -> node_simple gs start E m) ->
    ucs_loop fuel goal gs F E = Some (Found p, E') ->
    simple_path gs ∅ start p goal.
Proof.
  induction fuel as [| fuel IH]; intros F E p E' Hheap HF;
    destruct F as [| x0 F0] eqn:HeqF; cbn [ucs_loop]; try done.
  rewrite <- HeqF in *.
  destruct (heappop_spec F Hheap ltac:(by rewrite HeqF))
    as (n0 & h' & -> & Hperm & Hheap' & _).
  cbn [mbind option_bind].
  assert (node_simple gs start E n0) as Hn0
    by (apply HF; rewrite Hperm; by left).
  assert (forall m, m ∈ h' -> node_simple gs start E m) as HF'
    by (intros m Hm; apply HF; rewrite Hperm; by right).
  case_decide as Hg.
  - intros [= <- <-]. rewrite <- Hg. apply Hn0.
  - case_decide as Hnew; [| by apply IH].
    destruct (ucs_push_spec n0 (E ∪ {[ state n0 ]})
                (get_successors (state n0) gs) h' Hheap')
      as (F' & -> & Hperm' & HheapF').
    cbn [mbind option_bind]. apply IH; [done |].
    intros m Hm. rewrite Hperm' in Hm.
    apply elem_of_app in Hm as [Hm | Hm].
    + apply elem_of_ucs_children in Hm as (s & a & c & Hin & Hs & ->).
      eapply node_simple_child; [done | done | done].
    + eapply node_simple_mono; [| by apply HF']. set_solver.
Qed.

(** X26.  A path returned by [bfs] or by [ucs] visits no cell twice:
    replaying two prefixes of different lengths never ends on the same
    cell. *)
Theorem bfs_and_ucs_paths_visit_no_cell_twice (gs : Grid)
    (start goal : Cell) (fuel : nat) (p : Path) :
  bfs fuel start goal gs = Some (Found p)
  \/ ucs fuel start goal gs = Some (Found p) ->
  visits_no_cell_twice gs start p.
Proof.
  intros [Hrun | Hrun].
  - revert Hrun. unfold bfs, bfs_run. case_decide as Heq.
    + cbn. intros [= <-]. intros i j c Hij. cbn in Hij. lia.
    + destruct (bfs_loop _ _ _ _ _) as [[r E'] |] eqn:Hloop; [| done].
      cbn. intros [= ->].
      eapply simple_path_distinct, bfs_loop_simple; [| exact Hloop].
      intros m ->%list_elem_of_singleton. apply node_simple_root.
  - revert Hrun. unfold ucs, ucs_run. rewrite heappush_nil.
    cbn [mbind option_bind].
    destruct (ucs_loop _ _ _ _ _) as [[r E'] |] eqn:Hloop; [| done].
    cbn. intros [= ->].
    eapply simple_path_distinct, ucs_loop_simple; [| | exact Hloop].
    + destruct (heappush_spec [] (root_node start)) as (h & Hh & _ & Hheap).
      { intros i. intros. by destruct i. }
      rewrite heappush_nil in Hh. by injection Hh as <-.
    + intros m ->%list_elem_of_singleton. apply node_simple_root.
Qed.

Lemma bfs_and_ucs_paths_visit_no_cell_twice_witness :
  visits_no_cell_twice (2, 2) (0, 0) [Some BottomRight].
Proof.
  apply (bfs_and_ucs_paths_visit_no_cell_twice (2, 2) (0, 0) (1, 1) 20).
  left. vm_compute. reflexivity.
Defined.
